(** * NorasWorkday terrain engine: landscape elements, view collection,
      height map and collision field.

    Shallow embedding of SRC/TERRAIN/T_MAP.cpp, T_DLNAY.CPP and T_COLL.cpp.

    The C++ code computes in [float] and [double].  Every function is
    written once over an arithmetic interface [Arith] that keeps the
    precision of each operation as the C++ typing rules fix it.  What
    holds by the structure of the code alone is proved for every instance
    of the interface.  The instance [IEEE] is IEEE-754 binary32 / binary64
    with round-to-nearest-even, from the Standard Library's executable
    [SpecFloat]: the arithmetic the program runs on.  Statements that
    depend on the arithmetic are made and proved on it. *)

From Stdlib Require Import ZArith List Bool Lia Permutation Sorted.
From Stdlib Require Import SpecFloat.
Import ListNotations.

Local Open Scope Z_scope.

(** ** Machine integers *)

Definition INT_MIN : Z := - 2 ^ 31.
Definition INT_MAX : Z := 2 ^ 31 - 1.

(** [(unsigned int) i] : reduction modulo 2^32. *)
Definition u32 (i : Z) : Z := i mod 2 ^ 32.

(** [(int) u] for a value that may have left the [int] range: two's
    complement wrap-around. *)
Definition i32 (i : Z) : Z := (i + 2 ^ 31) mod 2 ^ 32 - 2 ^ 31.

(** [(unsigned char) i] and [(unsigned short) i]. *)
Definition u8 (i : Z) : Z := i mod 256.
Definition u16 (i : Z) : Z := i mod 65536.

(** A C array behind a pointer, read at an index.  Reading outside the
    array is undefined in C; the model returns 0 there. *)
Definition rd (a : list Z) (i : Z) : Z :=
  if i <? 0 then 0 else nth (Z.to_nat i) a 0.

(** Writing one cell of a C array; outside the array the model leaves it
    unchanged. *)
Fixpoint upd_nat (a : list Z) (n : nat) (v : Z) : list Z :=
  match a, n with
  | [], _ => []
  | _ :: t, O => v :: t
  | h :: t, S n' => h :: upd_nat t n' v
  end.

Definition wr (a : list Z) (i : Z) (v : Z) : list Z :=
  if i <? 0 then a else upd_nat a (Z.to_nat i) v.

(** ** The arithmetic interface *)

Inductive precision := Single | Double.

Class Arith := {
  num : Type;
  fadd : precision -> num -> num -> num;
  fsub : precision -> num -> num -> num;
  fmul : precision -> num -> num -> num;
  fdiv : precision -> num -> num -> num;
  fsqrt : precision -> num -> num;
  fopp : num -> num;
  fabs : num -> num;
  (** [(float) x] for a [double] x; the conversion from [float] to
      [double] is exact and left implicit. *)
  to_single : num -> num;
  (** [(float) i] and [(double) i] for an integer i. *)
  of_int : precision -> Z -> num;
  (** [floor] of math.h. *)
  ffloor : num -> num;
  (** Integral part towards zero, [None] for NaN and the infinities. *)
  ftrunc : num -> option Z;
  flt : num -> num -> bool;
  fle : num -> num -> bool;
  feq : num -> num -> bool;
}.

Declare Scope fl_scope.
Delimit Scope fl_scope with fl.
Infix "+f" := (fadd Single) (at level 50, left associativity) : fl_scope.
Infix "-f" := (fsub Single) (at level 50, left associativity) : fl_scope.
Infix "*f" := (fmul Single) (at level 40, left associativity) : fl_scope.
Infix "/f" := (fdiv Single) (at level 40, left associativity) : fl_scope.
Infix "+d" := (fadd Double) (at level 50, left associativity) : fl_scope.
Infix "-d" := (fsub Double) (at level 50, left associativity) : fl_scope.
Infix "*d" := (fmul Double) (at level 40, left associativity) : fl_scope.
Infix "/d" := (fdiv Double) (at level 40, left associativity) : fl_scope.
Local Open Scope fl_scope.

Section Generic.
Context {A : Arith}.

(** [(float) i] and [(double) i]. *)
Definition fl (i : Z) : num := of_int Single i.
Definition db (i : Z) : num := of_int Double i.

(** A decimal literal [n/d]: the compiler rounds it to the nearest value of
    the literal's type, as the correctly rounded quotient does. *)
Definition lit (p : precision) (n d : Z) : num :=
  fdiv p (of_int p n) (of_int p d).

Definition fgt (x y : num) : bool := flt y x.
Definition fge (x y : num) : bool := fle y x.

(** [(int) x]: truncation; outside the [int] range (and for NaN) the
    conversion is undefined in C, the model takes the x86 result
    [INT_MIN] ("integer indefinite"). *)
Definition to_int (x : num) : Z :=
  match ftrunc x with
  | Some t => if (INT_MIN <=? t) && (t <=? INT_MAX) then t else INT_MIN
  | None => INT_MIN
  end.

End Generic.

(** ** The IEEE-754 instance *)

Module IEEE.

Definition prec_of (p : precision) : Z :=
  match p with Single => 24 | Double => 53 end.
Definition emax_of (p : precision) : Z :=
  match p with Single => 128 | Double => 1024 end.

(** Canonical representation of a value in the format [p], rounding if the
    value has more digits than the format holds. *)
Definition norm (p : precision) (x : spec_float) : spec_float :=
  match x with
  | S754_finite s m e => binary_round (prec_of p) (emax_of p) s m e
  | _ => x
  end.

Definition lift2 (op : Z -> Z -> spec_float -> spec_float -> spec_float)
    (p : precision) (x y : spec_float) : spec_float :=
  op (prec_of p) (emax_of p) (norm p x) (norm p y).

Definition add := lift2 SFadd.
Definition sub := lift2 SFsub.
Definition mul := lift2 SFmul.
Definition div := lift2 SFdiv.
Definition sqrt (p : precision) (x : spec_float) : spec_float :=
  SFsqrt (prec_of p) (emax_of p) (norm p x).

Definition of_Z (p : precision) (i : Z) : spec_float :=
  binary_normalize (prec_of p) (emax_of p) i 0 false.

(** Largest integer below the value, and integral part towards zero. *)
Definition floorZ (x : spec_float) : option Z :=
  match x with
  | S754_zero _ => Some 0
  | S754_finite s m e =>
      let v := if s then Z.neg m else Z.pos m in
      Some (if 0 <=? e then v * 2 ^ e else v / 2 ^ (- e))
  | _ => None
  end.

Definition truncZ (x : spec_float) : option Z :=
  match x with
  | S754_zero _ => Some 0
  | S754_finite s m e =>
      let v := if s then Z.neg m else Z.pos m in
      Some (if 0 <=? e then v * 2 ^ e else Z.quot v (2 ^ (- e)))
  | _ => None
  end.

Definition floor (x : spec_float) : spec_float :=
  match floorZ x with
  | Some i => match x with
              | S754_zero _ => x
              | _ => of_Z Double i
              end
  | None => x
  end.

(** Comparisons are made on the binary64 representation, which holds every
    binary32 value exactly. *)
Definition cmp (x y : spec_float) : option comparison :=
  SFcompare (norm Double x) (norm Double y).
Definition ltb (x y : spec_float) : bool :=
  match cmp x y with Some Lt => true | _ => false end.
Definition leb (x y : spec_float) : bool :=
  match cmp x y with Some (Lt | Eq) => true | _ => false end.
Definition eqb (x y : spec_float) : bool :=
  match cmp x y with Some Eq => true | _ => false end.

Definition ieee_arith : Arith := {|
  num := spec_float;
  fadd := add; fsub := sub; fmul := mul; fdiv := div; fsqrt := sqrt;
  fopp := SFopp; fabs := SFabs;
  to_single := norm Single;
  of_int := of_Z;
  ffloor := floor;
  ftrunc := truncZ;
  flt := ltb; fle := leb; feq := eqb;
|}.



End IEEE.

(** ** Loops *)

(** [for (i = i0; ...; i++)] run for [n] iterations. *)
Fixpoint for_loop {S : Type} (n : nat) (i : Z) (body : Z -> S -> S) (s : S) : S :=
  match n with
  | O => s
  | S n' => for_loop n' (i + 1) body (body i s)
  end.

(** [for (z = 0; z < h; z++) for (x = 0; x < w; x++) body]. *)
Definition for_zx {S : Type} (w h : Z) (body : Z -> Z -> S -> S) (s : S) : S :=
  for_loop (Z.to_nat h) 0
    (fun z s => for_loop (Z.to_nat w) 0 (fun x s => body x z s) s) s.

(** [for (i = i0; i < bound; i += step)]; [fuel] bounds the number of
    iterations (with [step >= 1], [bound - i0] of them are enough; with
    [step <= 0] the C loop does not end). *)
Fixpoint for_stride {S : Type} (fuel : nat) (i bound step : Z)
    (body : Z -> S -> S) (s : S) : S :=
  match fuel with
  | O => s
  | S fuel' =>
      if i <? bound then for_stride fuel' (i + step) bound step body (body i s)
      else s
  end.

(** ** Landscape data (T_MAP.hpp) *)

Inductive LandscapeType :=
  | LANDSCAPE_TYPE_HEIGHT | LANDSCAPE_TYPE_ROAD | LANDSCAPE_TYPE_TREE
  | LANDSCAPE_TYPE_GRASS | LANDSCAPE_TYPE_FLOWER | LANDSCAPE_TYPE_STONE
  | LANDSCAPE_TYPE_WATER | LANDSCAPE_TYPE_OBJECT.

(** The enumerators' values, as stored in the [type] byte. *)
Definition type_code (t : LandscapeType) : Z :=
  match t with
  | LANDSCAPE_TYPE_HEIGHT => 0 | LANDSCAPE_TYPE_ROAD => 1
  | LANDSCAPE_TYPE_TREE => 2 | LANDSCAPE_TYPE_GRASS => 3
  | LANDSCAPE_TYPE_FLOWER => 4 | LANDSCAPE_TYPE_STONE => 5
  | LANDSCAPE_TYPE_WATER => 6 | LANDSCAPE_TYPE_OBJECT => 7
  end.

Section Terrain.
Context {A : Arith}.

Record LandscapeElement := mkElement {
  e_type : Z;
  e_v0 : Z;
  e_v1 : Z;
  e_v2 : Z;
  distanceThresholdSquared : num;
  e_x : num;
  e_y : num;
  e_z : num;
}.

(** [LandscapeElement()]: the class has no constructor, the members start
    indeterminate; the model starts them at zero. *)
Definition new_element : LandscapeElement :=
  mkElement 0 0 0 0 (fl 0) (fl 0) (fl 0) (fl 0).

(** Assignments [e->field = v]. *)
Definition set_type (t : LandscapeType) (e : LandscapeElement) :=
  mkElement (type_code t) (e_v0 e) (e_v1 e) (e_v2 e)
    (distanceThresholdSquared e) (e_x e) (e_y e) (e_z e).
Definition set_v0 (v : Z) (e : LandscapeElement) :=
  mkElement (e_type e) (u8 v) (e_v1 e) (e_v2 e)
    (distanceThresholdSquared e) (e_x e) (e_y e) (e_z e).
Definition set_v1 (v : Z) (e : LandscapeElement) :=
  mkElement (e_type e) (e_v0 e) (u8 v) (e_v2 e)
    (distanceThresholdSquared e) (e_x e) (e_y e) (e_z e).
Definition set_v2 (v : Z) (e : LandscapeElement) :=
  mkElement (e_type e) (e_v0 e) (e_v1 e) (u8 v)
    (distanceThresholdSquared e) (e_x e) (e_y e) (e_z e).
Definition set_dts (v : num) (e : LandscapeElement) :=
  mkElement (e_type e) (e_v0 e) (e_v1 e) (e_v2 e) v (e_x e) (e_y e) (e_z e).
Definition set_x (v : num) (e : LandscapeElement) :=
  mkElement (e_type e) (e_v0 e) (e_v1 e) (e_v2 e)
    (distanceThresholdSquared e) v (e_y e) (e_z e).
Definition set_y (v : num) (e : LandscapeElement) :=
  mkElement (e_type e) (e_v0 e) (e_v1 e) (e_v2 e)
    (distanceThresholdSquared e) (e_x e) v (e_z e).
Definition set_z (v : num) (e : LandscapeElement) :=
  mkElement (e_type e) (e_v0 e) (e_v1 e) (e_v2 e)
    (distanceThresholdSquared e) (e_x e) (e_y e) v.

Record Landscape := mkLandscape {
  scape : list LandscapeElement;
  minX : num; maxX : num;
  minY : num; maxY : num;
  minZ : num; maxZ : num;
  map_height_w : Z; map_height_h : Z;
  map_height : list Z;
  map_boden : list Z;
}.

Definition set_scape (L : Landscape) (s : list LandscapeElement) : Landscape :=
  mkLandscape s (minX L) (maxX L) (minY L) (maxY L) (minZ L) (maxZ L)
    (map_height_w L) (map_height_h L) (map_height L) (map_boden L).

Definition set_map_height (L : Landscape) (m : list Z) : Landscape :=
  mkLandscape (scape L) (minX L) (maxX L) (minY L) (maxY L) (minZ L) (maxZ L)
    (map_height_w L) (map_height_h L) m (map_boden L).

(** [Landscape::Landscape(x0, z0, x1, z1, y0, y1)]. *)
Definition new_Landscape (x0 z0 x1 z1 y0 y1 : num) : Landscape :=
  mkLandscape [] x0 x1 y0 y1 z0 z1 0 0 [] [].

(** Modelled from the spec: [Array<T>] (ARRAY.HPP is not among the
    sources) holds the master list, an ordered sequence to which every
    generation procedure appends; the model is a list, and
    [scape.push_back(e)] adds at its end. *)
Definition push_back (L : Landscape) (e : LandscapeElement) : Landscape :=
  set_scape L (scape L ++ [e]).

(** *** collectLandscape *)

(** A [LandscapeElement*] into [scape] is the index of the element. *)
Definition elem_ptr := nat.

Definition deref (L : Landscape) (p : elem_ptr) : LandscapeElement :=
  nth p (scape L) new_element.

(** Squared distance of an element to the camera, in [float]. *)
Definition dist2 (e : LandscapeElement) (cx cy cz : num) : num :=
  let dx := e_x e -f cx in
  let dy := e_y e -f cy in
  let dz := e_z e -f cz in
  dx *f dx +f dy *f dy +f dz *f dz.

(** The test of the loop body. *)
Definition in_view (e : LandscapeElement) (cx cy cz k : num) : bool :=
  flt (dist2 e cx cy cz) (distanceThresholdSquared e *f k).

(** The loop [for (i = size-1; i >= 0; i--) { ...; e++; }]: [n] iterations
    remain, [e] is the running pointer. *)
Fixpoint collect_loop (L : Landscape) (cx cy cz k : num)
    (n : nat) (e : elem_ptr) (elements : list elem_ptr) : list elem_ptr :=
  match n with
  | O => elements
  | S n' =>
      let elements' :=
        if in_view (deref L e) cx cy cz k then elements ++ [e] else elements in
      collect_loop L cx cy cz k n' (S e) elements'
  end.

Definition collectLandscape (L : Landscape) (elements : list elem_ptr)
    (cx cy cz detailScale : num) : list elem_ptr :=
  let k := detailScale in
  let elements := @nil elem_ptr in            (* elements->clear() *)
  collect_loop L cx cy cz k (length (scape L)) O elements.

(** *** getHeight, putHeight *)

(** World position of a map cell: [(maxX-minX)*x/w+minX], with [x] a
    [float] and [w] an integer. *)
Definition world (lo hi : num) (x : num) (w : Z) : num :=
  (hi -f lo) *f x /f fl w +f lo.

(** Fractional map position of a world coordinate:
    [(x - minX)*map_height_w/(maxX-minX)]. *)
Definition map_pos (lo hi : num) (x : num) (w : Z) : num :=
  (x -f lo) *f fl w /f (hi -f lo).

Definition getHeight (L : Landscape) (x z : num) (xa za : Z) : num :=
  let w := map_height_w L in
  let h := map_height_h L in
  let x := if flt x (minX L) then minX L else x in
  let z := if flt z (minZ L) then minZ L else z in
  let x := if fgt x (maxX L -f lit Single 1 1000)
           then maxX L -f lit Single 1 1000 else x in
  let z := if fgt z (maxZ L -f lit Single 1 1000)
           then maxZ L -f lit Single 1 1000 else z in
  let xf := map_pos (minX L) (maxX L) x w in
  let zf := map_pos (minZ L) (maxZ L) z h in
  let xi := to_int (ffloor xf) in
  let zi := to_int (ffloor zf) in
  let xi_ := i32 (xi + xa) in
  let zi_ := i32 (zi + za) in
  let xi0 := if xi_ <? 0 then 0 else if w <=? u32 xi_ then i32 (w - 1) else xi_ in
  let zi0 := if zi_ <? 0 then 0 else if h <=? u32 zi_ then i32 (h - 1) else zi_ in
  let xi1 := if w <=? u32 (xi0 + 1) then xi0 else i32 (xi0 + 1) in
  let zi1 := if h <=? u32 (zi0 + 1) then zi0 else i32 (zi0 + 1) in
  let fx := to_single (xf -d db xi) in
  let fy := to_single (zf -d db zi) in
  let p00 := rd (map_height L) (u32 (xi0 + zi0 * w)) in
  let p10 := rd (map_height L) (u32 (xi1 + zi0 * w)) in
  let p11 := rd (map_height L) (u32 (xi1 + zi1 * w)) in
  let p01 := rd (map_height L) (u32 (xi0 + zi1 * w)) in
  let top := (fl p10 -f fl p00) *f fx +f fl p00 in
  let btm := (fl p11 -f fl p01) *f fx +f fl p01 in
  to_single
    (((btm -f top) *f fy +f top) *f (maxY L -f minY L) /d db 65535 +d minY L).

(** The cell [putHeight] writes, when it writes. *)
Definition put_xi (L : Landscape) (x : num) : Z :=
  to_int (ffloor (map_pos (minX L) (maxX L) x (map_height_w L))).
Definition put_zi (L : Landscape) (z : num) : Z :=
  to_int (ffloor (map_pos (minZ L) (maxZ L) z (map_height_h L))).

Definition putHeight (L : Landscape) (x z height : num) : Landscape :=
  let w := map_height_w L in
  let h := map_height_h L in
  if flt x (minX L) || fge x (maxX L) then L else
  if flt z (minZ L) || fge z (maxZ L) then L else
  let xi := put_xi L x in
  let zi := put_zi L z in
  if u32 (w - 1) <=? u32 xi then L else
  if u32 (h - 1) <=? u32 zi then L else
  let k := to_single ((height -f minY L) /f (maxY L -f minY L) *d db 65535) in
  let k := if flt k (fl 0) then fl 0 else k in
  let k := if fgt k (db 65535) then to_single (db 65535) else k in
  set_map_height L (wr (map_height L) (u32 (xi + zi * w)) (u16 (to_int k))).

(** *** hitThresh *)

Definition hitThresh (center left right thresh : num) : num :=
  if flt left thresh then
    let dist0 := left -f thresh in
    let dist1 := center -f thresh in
    let k := fopp dist0 +f dist1 in
    if feq k (fl 0) then fl 0
    else fopp dist0 /f k -f fl 1
  else if flt right thresh then
    let dist0 := center -f thresh in
    let dist1 := right -f thresh in
    let k := fopp dist0 +f dist1 in
    if feq k (fl 0) then fl 0
    else fopp dist0 /f k
  else fl 0.

(** *** Neighbourhood of a map cell, clamped at the border *)

Record cross := mkCross { v__ : Z; vn_ : Z; vp_ : Z; v_n : Z; v_p : Z }.

Definition read_cross (map : list Z) (w h x z : Z) : cross :=
  mkCross
    (rd map (x + z * w))
    (rd map ((if x - 1 <? 0 then 0 else x - 1) + z * w))
    (rd map ((if w <=? x + 1 then w - 1 else x + 1) + z * w))
    (rd map (x + (if z - 1 <? 0 then 0 else z - 1) * w))
    (rd map (x + (if h <=? z + 1 then h - 1 else z + 1) * w)).

(** [128+dx*127] with [(dx,dy)] the normalised gradient, stored in [v0]. *)
Definition slope_code (c : cross) : Z :=
  let dx := fl (vp_ c - vn_ c) in
  let dy := fl (v_p c - v_n c) in
  let d := fsqrt Single (dx *f dx +f dy *f dy) in
  let dx := if feq d (fl 0) then dx else dx /f d in
  to_int (fl 128 +f dx *f fl 127).

(** *** insertEmpty *)

Definition insertEmpty (L : Landscape) (x2 z2 : num) (w h : Z) (distFact : num)
    : Landscape :=
  let e := new_element in
  let e := set_x (world (minX L) (maxX L) x2 w) e in
  let e := set_z (world (minZ L) (maxZ L) z2 h) e in
  let e := set_y (getHeight L (e_x e) (e_z e) 0 0) e in
  let e := set_type LANDSCAPE_TYPE_HEIGHT e in
  let x := to_int (ffloor x2) in
  let z := to_int (ffloor z2) in
  let x := if x <? 0 then 0 else x in
  let z := if z <? 0 then 0 else z in
  let x := if w <=? x then w - 1 else x in
  let z := if h <=? z then h - 1 else z in
  let c := read_cross (map_height L) w h x z in
  let e := set_v0 (slope_code c) e in
  let e := set_v1 (rd (map_boden L) (x + z * w)) e in
  let e := set_dts distFact e in
  push_back L e.

End Terrain.

(** ** Element generation (T_MAP.cpp) *)

(** The C library's generator: [rand_stream seed n] is the value of the
    n-th call of [rand()] after [srand(seed)].  The generator is process
    state: [rng_pos] counts the samples drawn since the last [srand]. *)
Record rng := mkRng { rng_seed : Z; rng_pos : nat }.

Definition srand (seed : Z) : rng := mkRng seed O.

Section Generators.
Context {A : Arith}.

(** [sin] and [cos] of math.h, on [double]. *)
Variable sin cos : num -> num.
Variable rand_stream : Z -> nat -> Z.

Definition rand (g : rng) : Z * rng :=
  (rand_stream (rng_seed g) (rng_pos g), mkRng (rng_seed g) (S (rng_pos g))).

(** The state the generation procedures work on: the landscape and the
    process-wide random generator. *)
Record gstate := mkG { land : Landscape; gen : rng }.

Definition with_land (f : Landscape -> Landscape) (s : gstate) : gstate :=
  mkG (f (land s)) (gen s).

(** Samples drawn since the stream was last started. *)
Definition drawn (s : gstate) : nat := rng_pos (gen s).

(** The procedural brightness pattern
    [sin(px+pz+sin(px*0.4-pz*0.2)+cos(px*0.7)-sin(pz*0.9))*0.5+0.5],
    a [double]. *)
Definition pattern (px pz : num) : num :=
  sin (px +f pz +d sin (px *d lit Double 4 10 -d pz *d lit Double 2 10)
       +d cos (px *d lit Double 7 10) -d sin (pz *d lit Double 9 10))
  *d lit Double 1 2 +d lit Double 1 2.

(** *** setTrees *)

Definition setTrees_cell (mask map : list Z) (w h randomModulo : Z)
    (x z : Z) (s : gstate) : gstate :=
  let COMMONDISTANCE := fl 200 in
  let DISTANCERAND := fl 200 in
  let '(r1, g) := rand (gen s) in
  let '(r2, g) := rand g in
  let '(r3, g) := rand g in
  let '(r4, g) := rand g in
  let '(r5, g) := rand g in
  let '(r6, g) := rand g in
  let r6 := Z.land r6 255 in
  let s := mkG (land s) g in
  if negb (rd mask (x + z * w) =? 0) then s else
  let v__ := rd map (x + z * w) in
  if negb (v__ =? 0) && (Z.rem r1 randomModulo =? 0) then
    let L := land s in
    let e := new_element in
    let e := set_x (world (minX L) (maxX L) (fl x) w) e in
    let e := set_z (world (minZ L) (maxZ L) (fl z) h) e in
    let bigTree := if 0 <? Z.quot r6 220 then 1 else 0 in
    let e := set_y (to_single (getHeight L (e_x e) (e_z e) 0 0
                      -d lit Double 1 4 -d lit Double 3 4 *d db bigTree)) e in
    let e := set_type LANDSCAPE_TYPE_TREE e in
    let e := set_v0 (Z.land r3 255) e in
    let e := set_v1 (Z.land r4 255) e in
    let e := set_v2 (Z.land r6 1 + bigTree * 128) e in
    let siz := COMMONDISTANCE +f fl (Z.land r5 255) /f fl 255 *f DISTANCERAND in
    let d := siz *f siz in
    let e := set_dts d e in
    with_land (fun L => push_back L e) s
  else s.

Definition setTrees (mask map : list Z) (w h randomModulo : Z) (s : gstate)
    : gstate :=
  let s := mkG (land s) (srand 0) in
  for_zx w h (setTrees_cell mask map w h randomModulo) s.

(** *** setGrass *)

Definition setGrass_cell (mask map : list Z) (w h randomModulo : Z)
    (x z : Z) (s : gstate) : gstate :=
  let DISTANCERAND := fl 200 in
  let '(r1, g) := rand (gen s) in
  let '(r2, g) := rand g in
  let '(r3, g) := rand g in
  let '(r4, g) := rand g in
  let '(r5, g) := rand g in
  let '(r6, g) := rand g in
  let '(r7, g) := rand g in
  let s := mkG (land s) g in
  if negb (rd mask (x + z * w) =? 0) then s else
  let v__ := rd map (x + z * w) in
  if negb (v__ =? 0) then
    let L := land s in
    let px0 := world (minX L) (maxX L) (fl x) w in
    let py0 := world (minZ L) (maxZ L) (fl z) h in
    let k := fl 3 *f (maxX L -f minX L) /f fl w in
    let dx := getHeight L (px0 +f k) py0 0 0 -f getHeight L (px0 -f k) py0 0 0 in
    let dy := getHeight L px0 (py0 +f k) 0 0 -f getHeight L px0 (py0 -f k) 0 0 in
    let d := fsqrt Single (dx *f dx +f dy *f dy) in
    let notSteep := flt d (lit Double 1 2) in
    if (Z.rem r1 randomModulo =? 0) && notSteep then
      let ox := fl (Z.land r6 255) /f fl 255 in
      let oz := fl (Z.land r7 255) /f fl 255 in
      let e := new_element in
      let e := set_x (world (minX L) (maxX L) (fl x +f ox) w) e in
      let e := set_z (world (minZ L) (maxZ L) (fl z +f oz) h) e in
      let e := set_y (getHeight L (e_x e) (e_z e) 0 0) e in
      let e := set_type LANDSCAPE_TYPE_GRASS e in
      let px := to_single (e_x e *d lit Double 1 4) in
      let pz := to_single (e_z e *d lit Double 1 4) in
      let f := to_single (pattern px pz) in
      let e := set_v0 (to_int (f *f fl 8 +f fl 18 +f fl 4)) e in
      let e := set_v1 (Z.land r3 255) e in
      let e := set_v2 (Z.land r4 255) e in
      let siz := to_single (DISTANCERAND *d
                   (fl (Z.land r5 255) /f fl 255 *d lit Double 3 4
                    +d lit Double 1 4)) in
      let d := siz *f siz in
      let e := set_dts d e in
      with_land (fun L => push_back L e) s
    else s
  else s.

Definition setGrass (mask map : list Z) (w h randomModulo : Z) (s : gstate)
    : gstate :=
  let s := mkG (land s) (srand 0) in
  for_zx w h (setGrass_cell mask map w h randomModulo) s.

(** *** setFlowers *)

Definition setFlowers_cell (mask map : list Z) (w h randomModulo : Z)
    (x z : Z) (s : gstate) : gstate :=
  let RANDDISTANCE := fl 75 in
  let '(r1, g) := rand (gen s) in
  let '(r2, g) := rand g in
  let '(r3, g) := rand g in
  let '(r4, g) := rand g in
  let '(r5, g) := rand g in
  let '(r6, g) := rand g in
  let '(r7, g) := rand g in
  let s := mkG (land s) g in
  if negb (rd mask (x + z * w) =? 0) then s else
  let v__ := rd map (x + z * w) in
  if negb (v__ =? 0) && (Z.rem r1 randomModulo =? 0) then
    let L := land s in
    let e := new_element in
    let e := set_x (world (minX L) (maxX L) (fl x) w) e in
    let e := set_z (world (minZ L) (maxZ L) (fl z) h) e in
    let e := set_y (to_single (getHeight L (e_x e) (e_z e) 0 0
                                 +d lit Double 1 2)) e in
    let e := set_type LANDSCAPE_TYPE_FLOWER e in
    let px := to_single (e_x e *d lit Double 1 2) in
    let pz := to_single (e_z e *d lit Double 1 2) in
    let f := to_single (pattern px pz) in
    let f := if Z.land r3 7 =? 0 then fl (Z.land r4 7) /f fl 7 else f in
    let e := set_v0 (Z.land (to_int (f *f fl 4)) 3) e in
    let e := set_v1 (Z.land r5 255) e in
    let e := set_v2 (Z.land r7 255) e in
    let siz := to_single (RANDDISTANCE *d
                 (fl (Z.land r5 255) /f fl 255 *d lit Double 3 4
                  +d lit Double 1 4) *d
                 (fl (e_v2 e) /f fl 255 *d lit Double 1 2 +d lit Double 1 2)) in
    let d := siz *f siz in
    let e := set_dts d e in
    with_land (fun L => push_back L e) s
  else s.

Definition setFlowers (mask map : list Z) (w h randomModulo : Z) (s : gstate)
    : gstate :=
  let s := mkG (land s) (srand 0) in
  for_zx w h (setFlowers_cell mask map w h randomModulo) s.

(** *** Contours: setStones, setWater, setRoads *)

(** [v__ >= thresh] and some neighbour below [thresh]. *)
Definition contour (c : cross) (thresh : Z) : bool :=
  let some := thresh <=? v__ c in
  let someNotAround :=
    (vn_ c <? thresh) || (vp_ c <? thresh) ||
    (v_n c <? thresh) || (v_p c <? thresh) in
  some && someNotAround.

Definition hit_x (c : cross) (thresh : Z) : num :=
  hitThresh (fl (v__ c)) (fl (vn_ c)) (fl (vp_ c)) (fl thresh).
Definition hit_z (c : cross) (thresh : Z) : num :=
  hitThresh (fl (v__ c)) (fl (v_n c)) (fl (v_p c)) (fl thresh).

(** [gradX*gradX+gradZ*gradZ] under the root, with
    [gradX = (vp_ - vn_)/255.0]. *)
Definition grad_len (c : cross) : num :=
  let gradX := to_single (db (vp_ c - vn_ c) /d db 255) in
  let gradZ := to_single (db (v_p c - v_n c) /d db 255) in
  fsqrt Single (gradX *f gradX +f gradZ *f gradZ).

(** The element placed on a contour at cell [(x,z)]. *)
Definition contour_element (L : Landscape) (t : LandscapeType)
    (c : cross) (thresh w h x z : Z) : LandscapeElement :=
  let xd := hit_x c thresh in
  let zd := hit_z c thresh in
  let e := new_element in
  let e := set_x (world (minX L) (maxX L) (fl x +f xd) w) e in
  let e := set_z (world (minZ L) (maxZ L) (fl z +f zd) h) e in
  let e := set_y (getHeight L (e_x e) (e_z e) 0 0) e in
  set_type t e.

(** The blank height vertex placed on the cleanup contour. *)
Definition cleanup (c : cross) (thresh w h x z : Z) (d : num)
    (L : Landscape) : Landscape :=
  if contour c thresh then
    let xd := hit_x c thresh in
    let zd := hit_z c thresh in
    insertEmpty L (fl x +f xd) (fl z +f zd) (i32 w) (i32 h) d
  else L.

Definition setStones_height (map : list Z) (w h threshOuter : Z)
    (x z : Z) (s : gstate) : gstate :=
  let L := land s in
  let '(r2, g) := rand (gen s) in
  let r2 := Z.land r2 255 in
  let s := mkG L g in
  let rx := u32 (x * w) / map_height_w L in
  let rz := u32 (z * h) / map_height_h L in
  let v__ := rd map (rx + rz * w) in
  if threshOuter <=? v__ then
    let ex := world (minX L) (maxX L) (fl x) w in
    let ez := world (minZ L) (maxZ L) (fl z) h in
    let px := to_single (ex *d lit Double 1 10) in
    let pz := to_single (ez *d lit Double 1 10) in
    let f := to_single
      ((sin (px +f pz +d sin px +d cos pz) *d lit Double 1 2
        +d lit Double 1 2 +d lit Double 2 10) *d db 3
       *d (db 1 +d fl r2 /f fl 255 *d lit Double 1 4)) in
    let y := getHeight L ex ez 0 0 +f f in
    with_land (fun L => putHeight L ex ez y) s
  else s.

Definition setStones_cell (map : list Z) (w h threshOuter threshCleanup : Z)
    (x z : Z) (s : gstate) : gstate :=
  let COMMONDISTANCE := fl 250 in
  let '(r1, g) := rand (gen s) in
  let r1 := Z.land r1 255 in
  let s := mkG (land s) g in
  let c := read_cross map w h x z in
  let grad := grad_len c in
  let grad := grad *f grad *f fl 9 in
  let siz := to_single (COMMONDISTANCE *d (grad *f fl 2 +d lit Double 1 100)) in
  let d := siz *f siz in
  let s :=
    if contour c threshOuter then
      let e := contour_element (land s) LANDSCAPE_TYPE_STONE c threshOuter w h x z in
      let e := set_v0 r1 e in
      let e := set_dts d e in
      with_land (fun L => push_back L e) s
    else s in
  with_land (cleanup c threshCleanup w h x z d) s.

Definition setStones (map : list Z) (w h threshOuter threshCleanup : Z)
    (s : gstate) : gstate :=
  let s := mkG (land s) (srand 0) in
  let s := for_zx (map_height_w (land s)) (map_height_h (land s))
             (setStones_height map w h threshOuter) s in
  let s := mkG (land s) (srand 0) in
  for_zx w h (setStones_cell map w h threshOuter threshCleanup) s.

Definition setWater_cell (map : list Z) (w h threshOuter threshCleanup : Z)
    (x z : Z) (L : Landscape) : Landscape :=
  let COMMONDISTANCE := fl 400 in
  let c := read_cross map w h x z in
  let grad := grad_len c in
  let grad := grad *f grad *f fl 9 in
  let grad := grad *f grad *f fl 9 in
  let grad := grad *f grad *f fl 9 in
  let siz := to_single (COMMONDISTANCE *d (grad *f fl 3 +d lit Double 1 100)) in
  let d := siz *f siz in
  let fillPoint := false in
  let L :=
    if contour c threshOuter || fillPoint then
      let e := contour_element L LANDSCAPE_TYPE_WATER c threshOuter w h x z in
      let e := set_dts (if fillPoint then COMMONDISTANCE else d) e in
      push_back L e
    else L in
  cleanup c threshCleanup w h x z d L.

Definition setWater (map : list Z) (w h threshOuter threshCleanup : Z)
    (s : gstate) : gstate :=
  let s := mkG (land s) (srand 0) in
  with_land (for_zx w h (setWater_cell map w h threshOuter threshCleanup)) s.

Definition setRoads_height (map : list Z) (w h threshWayOuter : Z)
    (x z : Z) (L : Landscape) : Landscape :=
  let px := world (minX L) (maxX L) (fl x) w in
  let pz := world (minZ L) (maxZ L) (fl z) h in
  let rx := u32 (x * w) / map_height_w L in
  let rz := u32 (z * h) / map_height_h L in
  let v__ := rd map (rx + rz * w) in
  if threshWayOuter <=? v__ then
    let f := to_single (pattern px pz *d lit Double 1 2 +d lit Double 1 2) in
    let depth := lit Single 1 4 in
    let y := getHeight L px pz 0 0 -f f *f depth in
    putHeight L px pz y
  else L.

(** The decorative grass tuft on a road vertex [pos]: the source computes
    its x and z by the expressions of the vertex, so they are the vertex's
    values.  [rand() & mask == 0] decides, two more samples set it up. *)
Definition road_grass (mask size : Z) (pos : LandscapeElement) (s : gstate)
    : gstate :=
  let '(r, g) := rand (gen s) in
  let s := mkG (land s) g in
  if Z.land r mask =? 0 then
    let e := new_element in
    let e := set_x (e_x pos) e in
    let e := set_z (e_z pos) e in
    let e := set_y (getHeight (land s) (e_x e) (e_z e) 0 0) e in
    let e := set_type LANDSCAPE_TYPE_GRASS e in
    let '(ra, g) := rand (gen s) in
    let e := set_v0 (Z.rem ra 4 + 16) e in
    let e := set_v1 size e in
    let e := set_v2 0 e in
    let '(rb, g) := rand g in
    let siz := to_single (db 200 *d
                 (fl (Z.land rb 255) /f fl 255 *d lit Double 3 4
                  +d lit Double 1 4)) in
    let d := siz *f siz in
    let e := set_dts d e in
    mkG (push_back (land s) e) g
  else s.

Definition setRoads_cell (map : list Z)
    (w h threshWayOuter threshWayInner threshCleanupMuchOuta : Z)
    (x z : Z) (s : gstate) : gstate :=
  let c := read_cross map w h x z in
  let grad := grad_len c in
  let grad := grad *f grad *f fl 9 in
  let siz := to_single (db 500 *d (grad *f fl 3 +d lit Double 1 100)) in
  let d := siz *f siz in
  let s :=
    if contour c threshWayOuter then
      let e := contour_element (land s) LANDSCAPE_TYPE_ROAD c threshWayOuter w h x z in
      let e := set_v0 0 e in
      let e := set_dts d e in
      let s := with_land (fun L => push_back L e) s in
      road_grass 7 200 e s
    else s in
  let s :=
    if contour c threshWayInner then
      let e := contour_element (land s) LANDSCAPE_TYPE_ROAD c threshWayInner w h x z in
      let e := set_dts d e in
      let f := to_single (pattern (e_x e) (e_z e) *d lit Double 1 2
                          +d lit Double 1 2) in
      let e := set_v0 (to_int (f *d db 255)) e in
      let s := with_land (fun L => push_back L e) s in
      road_grass 15 100 e s
    else s in
  with_land (cleanup c threshCleanupMuchOuta w h x z d) s.

Definition setRoads (map : list Z)
    (w h threshWayOuter threshWayInner threshCleanupMuchOuta : Z)
    (s : gstate) : gstate :=
  let s := mkG (land s) (srand 0) in
  let s := with_land
             (fun L => for_zx (map_height_w L) (map_height_h L)
                         (setRoads_height map w h threshWayOuter) L) s in
  for_zx w h
    (setRoads_cell map w h threshWayOuter threshWayInner threshCleanupMuchOuta) s.

End Generators.

(** ** setObjects, setHeightMap (T_MAP.cpp) *)

Section Ground.
Context {A : Arith}.

Definition setObjects_cell (rgba : list Z) (w h : Z) (x z : Z) (L : Landscape)
    : Landscape :=
  let p := rd rgba (x + z * w) in
  let p0 := Z.land p 255 / 4 in
  if negb (p0 =? 0) then
    let p1 := Z.land (Z.shiftr p 8) 255 / 4 in
    let p2 := Z.land (Z.shiftr p 16) 255 / 4 in
    let p3 := Z.land (Z.shiftr p 24) 255 / 4 in
    let px := world (minX L) (maxX L) (fl x) w in
    let pz := world (minZ L) (maxZ L) (fl z) h in
    let py := getHeight L px pz 0 0 in
    let e := new_element in
    let e := set_x px e in
    let e := set_y py e in
    let e := set_z pz e in
    let e := set_v0 p0 e in
    let e := set_v1 p1 e in
    let e := set_v2 p2 e in
    let e := set_type LANDSCAPE_TYPE_OBJECT e in
    let siz := to_single (((maxX L -f minX L) +f (maxZ L -f minZ L))
                          *d lit Double 5 100) in
    let siz := if (p0 - 1 =? 3) || (p0 - 1 =? 4) then siz *f fl 3 else siz in
    let e := set_dts (siz *f siz) e in
    push_back L e
  else L.

Definition setObjects (rgba : list Z) (w h : Z) (L : Landscape) : Landscape :=
  for_zx w h (setObjects_cell rgba w h) L.

(** Modelled from the spec: [Array<T>::resize] (ARRAY.HPP is not among the
    sources); [scape.resize(n)] cuts the sequence to [n] elements or fills
    it up with fresh ones. *)
Definition resize (n : Z) (l : list LandscapeElement) : list LandscapeElement :=
  let n := Z.to_nat n in
  firstn n l ++ repeat new_element (n - length l).

(** [scape[k] = e]; outside the array the model leaves it unchanged (the
    write is undefined in C++). *)
Fixpoint set_at (l : list LandscapeElement) (k : nat) (e : LandscapeElement)
    : list LandscapeElement :=
  match l, k with
  | [], _ => []
  | _ :: t, O => e :: t
  | a :: t, S k' => a :: set_at t k' e
  end.

(** [int t = t0; while ((x % t) != 0) t >>= 1;] on 32-bit integers. *)
Fixpoint align (fuel : nat) (x t : Z) : Z :=
  match fuel with
  | O => t
  | S fuel' => if negb (Z.rem x t =? 0) then align fuel' x (Z.shiftr t 1) else t
  end.

Definition setHeightMap_cell (mask map : list Z) (w h stepX stepZ : Z)
    (distFact steepThresh : num) (boden : list Z) (tz : Z)
    (x z : Z) (st : Landscape * Z) : Landscape * Z :=
  let COMMONDISTANCE := fl 750 in
  let '(L, k) := st in
  let border := (x =? 0) || (u32 (w - stepX) <=? x)
                || (z =? 0) || (u32 (h - stepZ) <=? z) in
  if negb (rd mask (x + z * w) =? 0) && negb border then st else
  let c := read_cross map w h x z in
  let vx := to_single (db (vn_ c + vp_ c) *d lit Double 1 2 -d db (v__ c)) in
  let vy := to_single (db (v_n c + v_p c) *d lit Double 1 2 -d db (v__ c)) in
  let v := fsqrt Single (vx *f vx +f vy *f vy) in
  if flt v steepThresh && negb border then st else
  let e := nth (Z.to_nat k) (scape L) new_element in
  let e := set_x (world (minX L) (maxX L) (fl x) w) e in
  let e := set_y (to_single ((maxY L -f minY L) *f fl (v__ c) /d db 65535
                             +d minY L)) e in
  let e := set_z (world (minZ L) (maxZ L) (fl z) h) e in
  let e := set_type LANDSCAPE_TYPE_HEIGHT e in
  let e := set_v0 (slope_code c) e in
  let e := set_v1 (rd boden (x + z * w)) e in
  let tx := align 32 x (i32 w) in
  let siz := fl tx /f fl w in
  let siz := if tz <? tx then fl tz /f fl h else siz in
  let siz := siz *f COMMONDISTANCE in
  let siz := siz *f distFact in
  let siz := if border && (Z.land (x + z) 7 =? 0)
             then maxX L -f minX L +f maxZ L -f minZ L else siz in
  let e := set_dts (siz *f siz) e in
  (set_scape L (set_at (scape L) (Z.to_nat k) e), k + 1).

Definition setHeightMap (mask map : list Z) (w h stepX stepZ : Z)
    (distFact steepThresh : num) (boden : list Z) (L : Landscape) : Landscape :=
  let L := mkLandscape (scape L) (minX L) (maxX L) (minY L) (maxY L)
             (minZ L) (maxZ L) w h map boden in
  let k := Z.of_nat (length (scape L)) in
  let L := set_scape L (resize (k + (w / stepX) * (h / stepZ)) (scape L)) in
  let '(L, k) :=
    for_stride (Z.to_nat h) 0 h stepZ
      (fun z st =>
         let tz := align 32 z (i32 h) in
         for_stride (Z.to_nat w) 0 w stepX
           (fun x st =>
              setHeightMap_cell mask map w h stepX stepZ distFact steepThresh
                boden tz x z st) st)
      (L, k) in
  set_scape L (resize k (scape L)).

End Ground.

(** ** The view's element collection (T_DLNAY.CPP) *)

(** [qsort] of the C library sorts an array with the caller's comparison
    function; the algorithm is the library's choice. *)
Definition qsort_fn := forall T : Type, (T -> T -> Z) -> list T -> list T.

(** What the C standard grants: the result is a rearrangement of the
    array, and neighbours are in the comparison's order whenever the
    comparison is consistent (total and transitive) on the array. *)
Definition cmp_le {T : Type} (cmp : T -> T -> Z) (a b : T) : Prop := cmp a b <= 0.

Definition consistent {T : Type} (cmp : T -> T -> Z) (l : list T) : Prop :=
  (forall a b, In a l -> In b l -> cmp a b <= 0 \/ cmp b a <= 0) /\
  (forall a b c, In a l -> In b l -> In c l ->
     cmp a b <= 0 -> cmp b c <= 0 -> cmp a c <= 0).

Definition qsort_contract (qsort : qsort_fn) : Prop :=
  forall (T : Type) (cmp : T -> T -> Z) (l : list T),
    Permutation l (qsort T cmp l) /\
    (consistent cmp l -> Sorted (cmp_le cmp) (qsort T cmp l)).

(** One implementation of the contract: insertion sort. *)
Fixpoint insert_by {T : Type} (cmp : T -> T -> Z) (a : T) (l : list T) : list T :=
  match l with
  | [] => [a]
  | b :: t => if cmp a b <=? 0 then a :: b :: t else b :: insert_by cmp a t
  end.

Definition insertion_qsort : qsort_fn :=
  fun T cmp l => fold_right (insert_by cmp) [] l.

Section Delaunay.
Context {A : Arith}.

(** Modelled from the spec: [Vector] (VECTOR.HPP is not among the
    sources), a position in world space with the members x, y and z. *)
Record Vector := mkVector { vec_x : num; vec_y : num; vec_z : num }.

(** The comparison function; [eSortCX], [eSortCY], [eSortCZ] are the file's
    static variables, [v0] and [v1] the elements the two array slots point
    to.  Integer subtraction and negation wrap around. *)
Definition elementSortFunc (eSortCX eSortCY eSortCZ : num)
    (v0 v1 : LandscapeElement) : Z :=
  let dx0 := e_x v0 -f eSortCX in
  let dy0 := e_y v0 -f eSortCY in
  let dz0 := e_z v0 -f eSortCZ in
  let dx1 := e_x v1 -f eSortCX in
  let dy1 := e_y v1 -f eSortCY in
  let dz1 := e_z v1 -f eSortCZ in
  i32 (- i32 (to_int (dx1 *f dx1 +f dy1 *f dy1 +f dz1 *f dz1)
              - to_int (dx0 *f dx0 +f dy0 *f dy0 +f dz0 *f dz0))).

(** [LandscapeRaw::collectElements]; the result is the member array
    [elements].  The camera position and the detail scale are converted to
    [float] where they are passed on and stored. *)
Definition collectElements (qsort : qsort_fn) (L : Landscape)
    (elements : list elem_ptr) (cameraPos : Vector) (detailScale : num)
    : list elem_ptr :=
  let elements :=
    collectLandscape L elements (to_single (vec_x cameraPos))
      (to_single (vec_y cameraPos)) (to_single (vec_z cameraPos))
      (to_single detailScale) in
  let eSortCX := to_single (vec_x cameraPos) in
  let eSortCY := to_single (vec_y cameraPos) in
  let eSortCZ := to_single (vec_z cameraPos) in
  qsort elem_ptr
    (fun a b => elementSortFunc eSortCX eSortCY eSortCZ (deref L a) (deref L b))
    elements.

(** *** delaunay, update *)

(** [LandscapeTriangle]: the three vertex indices [p[0..2]]. *)
Record LandscapeTriangle := mkTriangle { tri_p0 : Z; tri_p1 : Z; tri_p2 : Z }.

(** [triangleSortFunc]: the difference of the first indices, an [int]. *)
Definition triangleSortFunc (v0 v1 : LandscapeTriangle) : Z :=
  i32 (tri_p0 v0 - tri_p0 v1).

(** The arrays of [LandscapeRaw]; [points] holds [double]s. *)
Record LandscapeRaw := mkRaw {
  points : list num;
  elements : list elem_ptr;
  triangles : list LandscapeTriangle;
  types : list Z;
  vertices : list Vector;
  parameters : list Vector;
}.

(** [LandscapeRaw(_scape)]: the arrays start empty. *)
Definition new_LandscapeRaw : LandscapeRaw := mkRaw [] [] [] [] [] [].

(** The cases of the [switch]: the kinds that belong to the ground. *)
Definition is_ground (t : Z) : bool :=
  (t =? type_code LANDSCAPE_TYPE_WATER) || (t =? type_code LANDSCAPE_TYPE_STONE)
  || (t =? type_code LANDSCAPE_TYPE_HEIGHT) || (t =? type_code LANDSCAPE_TYPE_ROAD).

(** The body of the loop over [elements]. *)
Definition delaunay_push (L : Landscape) (R : LandscapeRaw) (p : elem_ptr)
    : LandscapeRaw :=
  let e := deref L p in
  if is_ground (e_type e) then
    mkRaw (points R ++ [e_x e; e_z e]) (elements R) (triangles R)
      (types R ++ [e_type e])
      (vertices R ++ [mkVector (e_x e) (e_y e) (e_z e)])
      (parameters R ++ [mkVector (db (e_v0 e) /d db 255) (db (e_v1 e) /d db 255)
                                 (db (e_v2 e) /d db 255)])
  else R.

(** Modelled from the spec: [Delaunator::delaunator] (DELAUNTR.HPP is not
    among the sources) takes the flat array [x0,z0,x1,z1,...] and leaves a
    flat array of triangle indices in its member [triangles]. *)
Definition delaunator_fn := list num -> list Z.

Definition delaunay (qsort : qsort_fn) (delaunator : delaunator_fn)
    (L : Landscape) (R : LandscapeRaw) : LandscapeRaw :=
  let R := mkRaw [] (elements R) [] [] [] [] in
  let R := fold_left (delaunay_push L) (elements R) R in
  let t := delaunator (points R) in
  let tris :=
    for_loop (Z.to_nat (Z.of_nat (length t) / 3)) 0
      (fun j acc =>
         acc ++ [mkTriangle (rd t (j * 3 + 0)) (rd t (j * 3 + 1)) (rd t (j * 3 + 2))])
      [] in
  mkRaw (points R) (elements R) (qsort LandscapeTriangle triangleSortFunc tris)
    (types R) (vertices R) (parameters R).

Definition update (qsort : qsort_fn) (delaunator : delaunator_fn)
    (L : Landscape) (R : LandscapeRaw) (cameraPos : Vector) (detailScale : num)
    : LandscapeRaw :=
  let R := mkRaw (points R)
             (collectElements qsort L (elements R) cameraPos detailScale)
             (triangles R) (types R) (vertices R) (parameters R) in
  delaunay qsort delaunator L R.

End Delaunay.

(** ** The collision field (T_COLL.cpp) *)

Module Coll.
Section Collision.
Context {A : Arith}.

Record LandscapeCollision := mkCollision {
  data : list Z;
  width : Z; height : Z;
  minX : num; maxX : num;
  minZ : num; maxZ : num;
}.

(** [LandscapeCollision(x0, z0, x1, z1, w, h)]: the field starts at zero. *)
Definition new_LandscapeCollision (x0 z0 x1 z1 : num) (w h : Z)
    : LandscapeCollision :=
  mkCollision (repeat 0 (Z.to_nat (w * h))) w h x0 x1 z0 z1.

Definition xCoord (C : LandscapeCollision) (x : num) : Z :=
  to_int (ffloor ((x -d minX C) *d db (width C) /d (maxX C -d minX C))).

Definition xPos (C : LandscapeCollision) (x : Z) : num :=
  db x *d (maxX C -d minX C) /d db (width C) +d minX C.

Definition zCoord (C : LandscapeCollision) (z : num) : Z :=
  to_int (ffloor ((z -d minZ C) *d db (height C) /d (maxZ C -d minZ C))).

Definition zPos (C : LandscapeCollision) (z : Z) : num :=
  db z *d (maxZ C -d minZ C) /d db (height C) +d minZ C.

Definition point (C : LandscapeCollision) (x z : num) : num :=
  let x2 := (x -d minX C) *d db (width C) /d (maxX C -d minX C) in
  let z2 := (z -d minZ C) *d db (height C) /d (maxZ C -d minZ C) in
  let xp := to_int (ffloor x2) in
  let zp := to_int (ffloor z2) in
  if u32 (width C - 1) <=? u32 xp then db 255 else
  if u32 (height C - 1) <=? u32 zp then db 255 else
  let fx := x2 -d db xp in
  let fz := z2 -d db zp in
  let v__ := rd (data C) (xp + zp * width C) in
  let vp_ := rd (data C) ((xp + 1) + zp * width C) in
  let vpp := rd (data C) ((xp + 1) + (zp + 1) * width C) in
  let v_p := rd (data C) (xp + (zp + 1) * width C) in
  let up := (db vp_ -d db v__) *d fx +d db v__ in
  let dn := (db vpp -d db v_p) *d fx +d db v_p in
  (dn -d up) *d fz +d up.

Definition isPoint (C : LandscapeCollision) (x z : num) : bool :=
  fge (point C x z) (db 128).

(** [normal] writes through [nx] and [nz]; the model returns the pair. *)
Definition normal (C : LandscapeCollision) (x z : num) : num * num :=
  let dx := (maxX C -d minX C) /d db (width C) *d lit Double 1 2 in
  let dz := (maxZ C -d minZ C) /d db (height C) *d lit Double 1 2 in
  let ax := point C (x +d dx) z -d point C (x -d dx) z in
  let az := point C x (z +d dz) -d point C x (z -d dz) in
  let d := fsqrt Double (ax *d ax +d az *d az) in
  let d := if feq d (db 0) then d else db 1 /d d in
  (fopp ax *d d, fopp az *d d).

(** [placeCircle]. *)
Definition placeCircle_cell (x z rad2 dz : num) (zp xp : Z)
    (C : LandscapeCollision) : LandscapeCollision :=
  if u32 (width C) <=? u32 xp then C else
  let dx := (xPos C xp -d x) /d rad2 in
  let d := db 1 -d fsqrt Double (dx *d dx +d dz *d dz) in
  if fgt d (db 0) then
    let k := to_int (d *d db 256) in
    let k := if 255 <? k then 255 else k in
    let k := if k <? 0 then 0 else k in
    let i := xp + zp * width C in
    if rd (data C) i <? k then
      mkCollision (wr (data C) i (u8 k)) (width C) (height C)
        (minX C) (maxX C) (minZ C) (maxZ C)
    else C
  else C.

Definition placeCircle (C : LandscapeCollision) (x z rad : num)
    : LandscapeCollision :=
  let rad2 := rad *d db 2 in
  let xp0 := xCoord C (x -d rad2) in
  let zp0 := zCoord C (z -d rad2) in
  let xp1 := xCoord C (x +d rad2) in
  let zp1 := zCoord C (z +d rad2) in
  for_loop (Z.to_nat (zp1 - zp0 + 1)) zp0
    (fun zp C =>
       let dz := (zPos C zp -d z) /d rad2 in
       if u32 (height C) <=? u32 zp then C else
       for_loop (Z.to_nat (xp1 - xp0 + 1)) xp0
         (placeCircle_cell x z rad2 dz zp) C)
    C.

(** The result of [collideLine]: the return value and what is written
    through [xh], [zh], [xn], [zn]. *)
Record collision := mkHit {
  hit : bool;
  xh : num; zh : num;
  xn : num; zn : num;
}.

Definition no_hit : collision := mkHit false (db 0) (db 0) (db 0) (db 0).

Definition hit_at (C : LandscapeCollision) (lx lz : num) : collision :=
  let n := normal C lx lz in
  mkHit true lx lz (fst n) (snd n).

(** The [while(1)] loop; [None] when [fuel] iterations did not reach a
    [return]. *)
Fixpoint collide_loop (fuel : nat) (C : LandscapeCollision)
    (x0 z0 xd zd d step xp zp : num) : option collision :=
  match fuel with
  | O => None
  | S fuel' =>
      let lx := xp in
      let lz := zp in
      let xp := xp +d xd *d step in
      let zp := zp +d zd *d step in
      let dx := xp -d x0 in
      let dz := zp -d z0 in
      if fgt (fsqrt Double (dx *d dx +d dz *d dz)) d then
        if isPoint C xp zp then Some (hit_at C lx lz) else Some no_hit
      else if isPoint C xp zp then Some (hit_at C lx lz)
      else collide_loop fuel' C x0 z0 xd zd d step xp zp
  end.

(** The step length: a tenth of half a cell, of the smaller cell side. *)
Definition line_step (C : LandscapeCollision) : num :=
  let stepX := (maxX C -d minX C) /d db (width C) in
  let stepZ := (maxZ C -d minZ C) /d db (height C) in
  let step := if flt stepZ stepX then stepZ *d lit Double 1 2
              else stepX *d lit Double 1 2 in
  let stepSpeed := lit Double 1 10 in
  step *d stepSpeed.

Definition collideLine (fuel : nat) (C : LandscapeCollision)
    (x0 z0 x1 z1 : num) : option collision :=
  let hit := isPoint C x0 z0 in
  if hit then Some no_hit else
  let xd := x1 -d x0 in
  let zd := z1 -d z0 in
  let d := fsqrt Double (xd *d xd +d zd *d zd) in
  if flt (fabs d) (lit Double 1 100000) then
    Some (if hit then mkHit hit x0 z0 (db 0) (db 0) else no_hit)
  else
  let xd := xd /d d in
  let zd := zd /d d in
  collide_loop fuel C x0 z0 xd zd d (line_step C) x0 z0.

(** [placeMask]: the mask is read with bilinear filtering; [w] and [h] are
    [unsigned int], so the indices into the mask are computed modulo
    2^32. *)
Definition placeMask_cell (map : list Z) (w h : Z) (scale add : num)
    (x z : Z) (C : LandscapeCollision) : LandscapeCollision :=
  let x3 := fl x *f fl w /f fl (width C) in
  let z3 := fl z *f fl h /f fl (height C) in
  let x2 := to_int (ffloor x3) in
  let z2 := to_int (ffloor z3) in
  let x4 := x3 -f fl x2 in
  let z4 := z3 -f fl z2 in
  let xn := if w <=? u32 (x2 + 1) then u32 (w - 1) else u32 (x2 + 1) in
  let zn := if h <=? u32 (z2 + 1) then u32 (h - 1) else u32 (z2 + 1) in
  let v__ := rd map (u32 (x2 + z2 * w)) in
  let vp_ := rd map (u32 (xn + z2 * w)) in
  let vpp := rd map (u32 (xn + zn * w)) in
  let v_p := rd map (u32 (x2 + zn * w)) in
  let top := (fl vp_ -f fl v__) *f x4 +f fl v__ in
  let bottom := (fl vpp -f fl v_p) *f x4 +f fl v_p in
  let t := (bottom -f top) *f z4 +f top in
  let k := to_int (t *f scale +f add *f fl 256) in
  let k := if 255 <? k then 255 else k in
  let k := if k <? 0 then 0 else k in
  let i := x + z * width C in
  if rd (data C) i <? k then
    mkCollision (wr (data C) i (u8 k)) (width C) (height C)
      (minX C) (maxX C) (minZ C) (maxZ C)
  else C.

Definition placeMask (C : LandscapeCollision) (map : list Z) (w h : Z)
    (scale add : num) : LandscapeCollision :=
  for_zx (width C) (height C) (placeMask_cell map w h scale add) C.

(** [boxBlur]: [oldData] is the copy of the field made at the start; the
    kernel loops run from [-boxSize+y] to [boxSize+y]; the [float] mean is
    stored as [unsigned char]. *)
Definition boxBlur_cell (oldData : list Z) (boxSize : Z) (x y : Z)
    (C : LandscapeCollision) : LandscapeCollision :=
  let '(v, w) :=
    for_loop (Z.to_nat (boxSize + boxSize + 1)) (i32 (- boxSize + y))
      (fun ky st =>
         for_loop (Z.to_nat (boxSize + boxSize + 1)) (i32 (- boxSize + x))
           (fun kx '(v, w) =>
              if (u32 kx <? u32 (width C)) && (u32 ky <? u32 (height C))
              then (v +f fl (rd oldData (kx + ky * width C)), w +f fl 1)
              else (v, w)) st)
      (fl 0, fl 0) in
  let v := if negb (feq w (fl 0)) then v /f w else v in
  mkCollision (wr (data C) (x + y * width C) (u8 (to_int v)))
    (width C) (height C) (minX C) (maxX C) (minZ C) (maxZ C).

Definition boxBlur (C : LandscapeCollision) (boxSize : Z) : LandscapeCollision :=
  let oldData := data C in
  for_zx (width C) (height C) (boxBlur_cell oldData boxSize) C.

(** *** Notions used in the statements about the field *)

(** Two fields of the same size, over the same part of the world. *)
Definition same_geometry (C C' : LandscapeCollision) : Prop :=
  width C' = width C /\ height C' = height C /\
  minX C' = minX C /\ maxX C' = maxX C /\
  minZ C' = minZ C /\ maxZ C' = maxZ C /\
  length (data C') = length (data C).

(** [C'] is [C] with some cells raised. *)
Definition raised (C C' : LandscapeCollision) : Prop :=
  same_geometry C C' /\ forall i, rd (data C) i <= rd (data C') i.

(** [if (k > 255) k = 255; if (k < 0) k = 0;]. *)
Definition saturate (k : Z) : Z :=
  let k := if 255 <? k then 255 else k in
  if k <? 0 then 0 else k.

(** [if (k > data[i]) data[i] = k;]. *)
Definition raise (i k : Z) (C : LandscapeCollision) : LandscapeCollision :=
  if rd (data C) i <? k then
    mkCollision (wr (data C) i (u8 k)) (width C) (height C)
      (minX C) (maxX C) (minZ C) (maxZ C)
  else C.

(** An operation on the field that only raises cells, that has nothing
    left to do once it is done, and that stays done when cells are raised
    further. *)
Definition steady (g : LandscapeCollision -> LandscapeCollision) : Prop :=
  (forall C, raised C (g C)) /\
  (forall C C', g C = C -> raised C C' -> g C' = C') /\
  (forall C, g (g C) = g C).

End Collision.
End Coll.

(** ** Notions used in the statements *)

Section ViewOrder.
Context {A : Arith}.

(** The sort key of the view: the squared camera distance, cut to [int]. *)
Definition sort_key (L : Landscape) (cameraPos : Vector) (p : elem_ptr) : Z :=
  to_int (dist2 (deref L p) (to_single (vec_x cameraPos))
            (to_single (vec_y cameraPos)) (to_single (vec_z cameraPos))).

Definition nearer_first (L : Landscape) (cameraPos : Vector) (p q : elem_ptr)
    : Prop :=
  sort_key L cameraPos p <= sort_key L cameraPos q.

(** The order of the specification: the earlier entry is at least as far
    from the camera as the later one. *)
Definition farther_first (L : Landscape) (cameraPos : Vector) (p q : elem_ptr)
    : Prop :=
  fle (dist2 (deref L q) (to_single (vec_x cameraPos))
         (to_single (vec_y cameraPos)) (to_single (vec_z cameraPos)))
      (dist2 (deref L p) (to_single (vec_x cameraPos))
         (to_single (vec_y cameraPos)) (to_single (vec_z cameraPos))) = true.





End ViewOrder.

Module CollSpec.
Import Coll.
Section Samples.
Context {A : Arith}.
Variable C : LandscapeCollision.
Variables x0 z0 x1 z1 : num.

(** Length and unit direction of the segment, as [collideLine] computes
    them. *)
Definition seg_len : num :=
  let xd := x1 -d x0 in
  let zd := z1 -d z0 in
  fsqrt Double (xd *d xd +d zd *d zd).

Definition seg_dir : num * num :=
  ((x1 -d x0) /d seg_len, (z1 -d z0) /d seg_len).

(** The position after [n] steps of the loop. *)
Fixpoint sample (n : nat) : num * num :=
  match n with
  | O => (x0, z0)
  | S n' =>
      let p := sample n' in
      (fst p +d fst seg_dir *d line_step C, snd p +d snd seg_dir *d line_step C)
  end.

(** The n-th sample lies farther from the start than the segment is long. *)
Definition past_end (n : nat) : bool :=
  let dx := fst (sample n) -d x0 in
  let dz := snd (sample n) -d z0 in
  fgt (fsqrt Double (dx *d dx +d dz *d dz)) seg_len.

Definition solid (n : nat) : bool := isPoint C (fst (sample n)) (snd (sample n)).

(** The rule of the specification: when no sample within the segment's
    length is solid, there is no hit. *)
Definition spec_no_hit_rule : Prop :=
  isPoint C x0 z0 = false ->
  (forall k, (1 <= k)%nat ->
     (forall j, (1 <= j <= k)%nat -> past_end j = false) -> solid k = false) ->
  forall fuel r, collideLine fuel C x0 z0 x1 z1 = Some r -> hit r = false.

End Samples.
End CollSpec.

(** Calls of the generation procedures, in the order a caller makes them. *)
Section Calls.
Context {A : Arith}.
Variable sin cos : num -> num.
Variable rand_stream : Z -> nat -> Z.

Inductive gen_call :=
  | Call_setHeightMap (mask map : list Z) (w h stepX stepZ : Z)
      (distFact steepThresh : num) (boden : list Z)
  | Call_setObjects (rgba : list Z) (w h : Z)
  | Call_setTrees (mask map : list Z) (w h randomModulo : Z)
  | Call_setGrass (mask map : list Z) (w h randomModulo : Z)
  | Call_setFlowers (mask map : list Z) (w h randomModulo : Z)
  | Call_setStones (map : list Z) (w h threshOuter threshCleanup : Z)
  | Call_setWater (map : list Z) (w h threshOuter threshCleanup : Z)
  | Call_setRoads (map : list Z)
      (w h threshWayOuter threshWayInner threshCleanupMuchOuta : Z)
  | Call_insertEmpty (x2 z2 : num) (w h : Z) (distFact : num).

Definition run_call (c : gen_call) (s : gstate) : gstate :=
  match c with
  | Call_setHeightMap mask map w h stepX stepZ distFact steepThresh boden =>
      with_land (setHeightMap mask map w h stepX stepZ distFact steepThresh boden) s
  | Call_setObjects rgba w h => with_land (setObjects rgba w h) s
  | Call_setTrees mask map w h m => setTrees rand_stream mask map w h m s
  | Call_setGrass mask map w h m => setGrass sin cos rand_stream mask map w h m s
  | Call_setFlowers mask map w h m => setFlowers sin cos rand_stream mask map w h m s
  | Call_setStones map w h t1 t2 => setStones sin cos rand_stream map w h t1 t2 s
  | Call_setWater map w h t1 t2 => setWater map w h t1 t2 s
  | Call_setRoads map w h t1 t2 t3 => setRoads sin cos rand_stream map w h t1 t2 t3 s
  | Call_insertEmpty x2 z2 w h d => with_land (fun L => insertEmpty L x2 z2 w h d) s
  end.

Definition run_calls (cs : list gen_call) (s : gstate) : gstate :=
  fold_left (fun s c => run_call c s) cs s.


End Calls.

(** The generator of the C standard's example implementation of [rand]. *)
Fixpoint ansi_next (seed : Z) (n : nat) : Z :=
  match n with
  | O => (seed * 1103515245 + 12345) mod 2 ^ 32
  | S n' => (ansi_next seed n' * 1103515245 + 12345) mod 2 ^ 32
  end.

Definition ansi_rand (seed : Z) (n : nat) : Z :=
  (ansi_next seed n / 65536) mod 32768.

(** ** Concrete fields and landscapes, in IEEE arithmetic *)

Module Scenario.
#[local] Existing Instance IEEE.ieee_arith.

(** The height map of the specification's scenario 4: 2 x 2 samples
    [0, 65535, 65535, 0], heights 0..100, world 0..1 x 0..1. *)
Definition scape4 : Landscape :=
  mkLandscape [] (fl 0) (fl 1) (fl 0) (fl 100) (fl 0) (fl 1)
    2 2 [0; 65535; 65535; 0] [0; 0; 0; 0].

Definition within (x c tol : num) : Prop := fle (fabs (x -f c)) tol = true.

(** Two elements, 0 and 10 units from a camera at the origin, both in
    view. *)
Definition view2 : Landscape :=
  mkLandscape
    [ mkElement 0 0 0 0 (fl 10000) (fl 0) (fl 0) (fl 0);
      mkElement 0 0 0 0 (fl 10000) (fl 10) (fl 0) (fl 0) ]
    (fl (-100)) (fl 100) (fl 0) (fl 100) (fl (-100)) (fl 100) 0 0 [] [].

Definition origin : Vector := mkVector (db 0) (db 0) (db 0).

(** The collision field of the specification's scenarios 1 to 3:
    0..10 x 0..10 on 100 x 100 cells, with a disc of radius 1 at (5,5). *)
Definition field100 : Coll.LandscapeCollision :=
  Coll.new_LandscapeCollision (db 0) (db 0) (db 10) (db 10) 100 100.

Definition disc100 : Coll.LandscapeCollision :=
  Coll.placeCircle field100 (db 5) (db 5) (db 1).

(** The field of the example in T_COLL.cpp:
    [new LandscapeCollision(-250,-250,250,250,1024,1024)]. *)
Definition field1024 : Coll.LandscapeCollision :=
  Coll.new_LandscapeCollision (db (-250)) (db (-250)) (db 250) (db 250) 1024 1024.

(** A 4 x 4 field on 0..4 x 0..4 whose cells (3,1) and (3,2) are solid: the
    interpolated value reaches 128 a little right of x = 2.5 on the line
    z = 1.5. *)
Definition wall4 : Coll.LandscapeCollision :=
  Coll.mkCollision [0;0;0;0; 0;0;0;255; 0;0;0;255; 0;0;0;0] 4 4
    (db 0) (db 4) (db 0) (db 4).

Fixpoint upto (n : nat) : list Z :=
  match n with
  | O => []
  | S k => upto k ++ [Z.of_nat k]
  end.


Definition all_255 (seed : Z) (n : nat) : Z := 255.


(** Two elements 5 units from the origin, with thresholds 25 and 26. *)
Definition view3 : Landscape :=
  mkLandscape
    [ mkElement 0 0 0 0 (fl 25) (fl 3) (fl 4) (fl 0);
      mkElement 0 0 0 0 (fl 26) (fl 3) (fl 4) (fl 0) ]
    (fl (-100)) (fl 100) (fl 0) (fl 100) (fl (-100)) (fl 100) 0 0 [] [].

(** A world of one cell whose width, 2^128, is beyond the largest
    [float]. *)
Definition huge1 : Landscape :=
  mkLandscape [] (fl (- 2 ^ 127)) (fl (2 ^ 127)) (fl 0) (fl 100) (fl 0) (fl 1)
    1 1 [0] [0].

End Scenario.

(** ** removeElementsWithType, getHeightBox (T_MAP.cpp) *)

Section TerrainMore.
Context {A : Arith}.

(** Modelled from the spec: [Array<T>::erase(i, n)] (ARRAY.HPP is not among
    the sources) takes [n] elements out of the sequence, from index [i]
    on; the elements behind move up. *)
Definition erase (l : list LandscapeElement) (i n : nat) : list LandscapeElement :=
  firstn i l ++ skipn (i + n) l.

(** The loop [for (i = size-1; i >= 0; i--) if (scape[i].type == type)
    scape.erase(i,1);], with [n = i + 1] indices still to visit. *)
Fixpoint remove_loop (type : Z) (n : nat) (s : list LandscapeElement)
    : list LandscapeElement :=
  match n with
  | O => s
  | S i =>
      remove_loop type i
        (if e_type (nth i s new_element) =? type then erase s i 1 else s)
  end.

Definition removeElementsWithType (L : Landscape) (type : Z) : Landscape :=
  set_scape L (remove_loop type (length (scape L)) (scape L)).

(** [getHeightBox]: the two loops run from [-rad] to [rad]. *)
Definition getHeightBox (L : Landscape) (x z : num) (rad : Z) : num :=
  let '(h, w) :=
    for_loop (Z.to_nat (rad + rad + 1)) (- rad)
      (fun zi st =>
         for_loop (Z.to_nat (rad + rad + 1)) (- rad)
           (fun xi '(h, w) => (h +f getHeight L x z xi zi, w +f fl 1)) st)
      (fl 0, fl 0) in
  if fgt w (fl 0) then h /f w else fl 0.

(** Two landscapes with the same bounds, height map and soil map. *)
Definition same_ground (L L' : Landscape) : Prop :=
  minX L' = minX L /\ maxX L' = maxX L /\ minY L' = minY L /\
  maxY L' = maxY L /\ minZ L' = minZ L /\ maxZ L' = maxZ L /\
  map_height_w L' = map_height_w L /\ map_height_h L' = map_height_h L /\
  map_height L' = map_height L /\ map_boden L' = map_boden L.

(** The same, but for the samples of the height map, of which only the
    number is kept. *)
Definition same_frame (L L' : Landscape) : Prop :=
  minX L' = minX L /\ maxX L' = maxX L /\ minY L' = minY L /\
  maxY L' = maxY L /\ minZ L' = minZ L /\ maxZ L' = maxZ L /\
  map_height_w L' = map_height_w L /\ map_height_h L' = map_height_h L /\
  length (map_height L') = length (map_height L) /\ map_boden L' = map_boden L.

(** [L'] has the elements of [L], in their places, and behind them
    elements whose type is one of [kinds]. *)
Definition extends (kinds : list LandscapeType) (L L' : Landscape) : Prop :=
  exists suffix,
    scape L' = scape L ++ suffix /\
    Forall (fun e => In (e_type e) (map type_code kinds)) suffix.

(** The cells of a scan [for z < h, for x < w], in the order of the scan. *)
Definition scan_cells (w h : Z) : list (Z * Z) :=
  flat_map (fun z => map (fun x => (Z.of_nat x, Z.of_nat z)) (seq 0 (Z.to_nat w)))
    (seq 0 (Z.to_nat h)).

(** What [setObjects] makes of one pixel, on its own. *)
Definition object_of_pixel (L : Landscape) (rgba : list Z) (w h : Z)
    (c : Z * Z) : list LandscapeElement :=
  scape (setObjects_cell rgba w h (fst c) (snd c) (set_scape L [])).

End TerrainMore.

(** The types a generation call can add. *)
Definition kinds_of_call {A : Arith} (c : gen_call) : list LandscapeType :=
  match c with
  | Call_setHeightMap _ _ _ _ _ _ _ _ _ => [LANDSCAPE_TYPE_HEIGHT]
  | Call_setObjects _ _ _ => [LANDSCAPE_TYPE_OBJECT]
  | Call_setTrees _ _ _ _ _ => [LANDSCAPE_TYPE_TREE]
  | Call_setGrass _ _ _ _ _ => [LANDSCAPE_TYPE_GRASS]
  | Call_setFlowers _ _ _ _ _ => [LANDSCAPE_TYPE_FLOWER]
  | Call_setStones _ _ _ _ _ => [LANDSCAPE_TYPE_STONE; LANDSCAPE_TYPE_HEIGHT]
  | Call_setWater _ _ _ _ _ => [LANDSCAPE_TYPE_WATER; LANDSCAPE_TYPE_HEIGHT]
  | Call_setRoads _ _ _ _ _ _ =>
      [LANDSCAPE_TYPE_ROAD; LANDSCAPE_TYPE_GRASS; LANDSCAPE_TYPE_HEIGHT]
  | Call_insertEmpty _ _ _ _ _ => [LANDSCAPE_TYPE_HEIGHT]
  end.

(** [setHeightMap] is only defined when its steps are positive and divide
    the sides of the map: it sizes the array for [(w/stepX)*(h/stepZ)]
    elements. *)
Definition call_defined {A : Arith} (c : gen_call) : Prop :=
  match c with
  | Call_setHeightMap _ _ w h stepX stepZ _ _ _ =>
      0 <= w /\ 0 <= h /\ 0 < stepX /\ 0 < stepZ /\ (stepX | w) /\ (stepZ | h)
  | _ => True
  end.

(** ** The object editor (t_edit.cpp) *)

Section Editor.
Context {A : Arith}.
Variable qsort : qsort_fn.
Variable delaunator : delaunator_fn.

(** Modelled from the spec: [RGBAImage] (IMAGE.HPP is not among the
    sources), the RGBA placement raster: [width*height] pixels of 32
    bits. *)
Record RGBAImage := mkImage { img_data : list Z; img_width : Z; img_height : Z }.

(** The editor with what it points to: the landscape, the view, the camera
    position and the detail scale.  Modelled from the spec: [savePNG]
    saves the raster; [saved] lists what was written to the file, latest
    first. *)
Record LandscapeEdit := mkEdit {
  ed_scape : Landscape;
  ed_raw : LandscapeRaw;
  objects : RGBAImage;
  cameraPos : Vector;
  details : num;
  saved : list RGBAImage;
}.

Definition set_objects (E : LandscapeEdit) (o : RGBAImage) : LandscapeEdit :=
  mkEdit (ed_scape E) (ed_raw E) o (cameraPos E) (details E) (saved E).

Definition savePNG (E : LandscapeEdit) : LandscapeEdit :=
  mkEdit (ed_scape E) (ed_raw E) (objects E) (cameraPos E) (details E)
    (objects E :: saved E).

(** [setObjectsFile]: [loaded] is what [RGBAImage::fromFile] found, [None]
    when its [data] is NULL. *)
Definition setObjectsFile (E : LandscapeEdit) (loaded : option RGBAImage)
    (w h : Z) : LandscapeEdit :=
  match loaded with
  | Some o => set_objects E o
  | None => set_objects E (mkImage (repeat 0 (Z.to_nat (w * h))) w h)
  end.

Definition refreshObjects (E : LandscapeEdit) : LandscapeEdit :=
  let L := removeElementsWithType (ed_scape E) (type_code LANDSCAPE_TYPE_OBJECT) in
  let L := setObjects (img_data (objects E)) (img_width (objects E))
             (img_height (objects E)) L in
  let R := update qsort delaunator L (ed_raw E) (cameraPos E) (details E) in
  mkEdit L R (objects E) (cameraPos E) (details E) (saved E).

(** The pixel of a world position:
    [(float)(pos->x - scape->minX) / (scape->maxX - scape->minX) * objects->width]
    as [int]. *)
Definition pixel_x (E : LandscapeEdit) (pos : Vector) : Z :=
  let L := ed_scape E in
  to_int (to_single (vec_x pos -d minX L) /f (maxX L -f minX L)
          *f fl (img_width (objects E))).
Definition pixel_z (E : LandscapeEdit) (pos : Vector) : Z :=
  let L := ed_scape E in
  to_int (to_single (vec_z pos -d minZ L) /f (maxZ L -f minZ L)
          *f fl (img_height (objects E))).

(** [r|(g<<8)|(b<<16)|(a<<24)], stored as [unsigned int]. *)
Definition rgba_of (r g b a : Z) : Z :=
  u32 (Z.lor r (Z.lor (Z.shiftl g 8) (Z.lor (Z.shiftl b 16) (Z.shiftl a 24)))).

Definition set_pixel (o : RGBAImage) (x z : Z) (v : Z) : RGBAImage :=
  mkImage (wr (img_data o) (x + z * img_width o) v) (img_width o) (img_height o).

Definition placeObject (E : LandscapeEdit) (pos : Vector) (objectId : Z)
    : LandscapeEdit :=
  let px := pixel_x E pos in
  let pz := pixel_z E pos in
  if u32 (img_width (objects E)) <=? u32 px then E else
  if u32 (img_height (objects E)) <=? u32 pz then E else
  let r := Z.land objectId 63 * 4 + 2 in
  let g := 0 in
  let b := 0 in
  let a := 0 in
  let E := set_objects E (set_pixel (objects E) px pz (rgba_of r g b a)) in
  let E := savePNG E in
  refreshObjects E.

(** The loops over the box of 5 by 5 pixels around [(px,pz)]. *)
Definition for_box {S : Type} (px pz : Z) (body : Z -> Z -> S -> S) (s : S) : S :=
  let box := 2 in
  for_loop (Z.to_nat (box + box + 1)) (i32 (- box + pz))
    (fun z s =>
       for_loop (Z.to_nat (box + box + 1)) (i32 (- box + px))
         (fun x s => body x z s) s) s.

Definition rotateObjectY_cell (rotation : Z) (x z : Z) (st : RGBAImage * bool)
    : RGBAImage * bool :=
  let '(o, some) := st in
  if u32 (img_width o) <=? u32 x then st else
  if u32 (img_height o) <=? u32 z then st else
  let rgba := rd (img_data o) (x + z * img_width o) in
  let r := Z.land rgba 255 in
  if negb (r =? 0) then
    let g := rotation * 4 + 2 in
    let b := Z.land (Z.shiftr rgba 16) 255 in
    let a := Z.land (Z.shiftr rgba 24) 255 in
    (set_pixel o x z (rgba_of r g b a), true)
  else st.

Definition rotateObjectY (E : LandscapeEdit) (pos : Vector) (rotation : Z)
    : LandscapeEdit :=
  let px := pixel_x E pos in
  let pz := pixel_z E pos in
  let '(o, some) :=
    for_box px pz (rotateObjectY_cell rotation) (objects E, false) in
  let E := set_objects E o in
  if some then refreshObjects (savePNG E) else E.

(** The pixel of an object after [rotateObjectY]: the green channel is
    set, red, blue and alpha are kept; a pixel without an object stays. *)
Definition turned (rotation : Z) (rgba : Z) : Z :=
  let r := Z.land rgba 255 in
  if negb (r =? 0) then
    rgba_of r (rotation * 4 + 2) (Z.land (Z.shiftr rgba 16) 255)
      (Z.land (Z.shiftr rgba 24) 255)
  else rgba.



End Editor.

(** ** An editor on the 2 x 2 map, in IEEE arithmetic *)

Module Editing.
Import Scenario.
#[local] Existing Instance IEEE.ieee_arith.

(** A triangulator that returns two triangles over four points. *)
Definition two_triangles : delaunator_fn := fun _ => [1; 2; 3; 0; 1; 2].

(** An empty raster of 4 by 4 pixels over the map of [scape4]. *)
Definition raster4 : RGBAImage := mkImage (repeat 0 16) 4 4.

Definition editor4 : LandscapeEdit :=
  mkEdit scape4 new_LandscapeRaw raster4 origin (db 1) [].

(** A position on the raster, pixel (2,2), and one outside of it. *)
Definition on_raster : Vector := mkVector (lit Double 1 2) (db 0) (lit Double 1 2).
Definition off_raster : Vector := mkVector (db 2) (db 0) (lit Double 1 2).

(** The generation calls of a small landscape. *)
Definition calls4 : list gen_call :=
  [ Call_setHeightMap [0; 0; 0; 0] [0; 65535; 65535; 0] 2 2 1 1 (fl 1) (fl 0)
      [0; 0; 0; 0];
    Call_setObjects [12; 0; 0; 0] 2 2;
    Call_insertEmpty (fl 1) (fl 1) 2 2 (fl 4) ].

End Editing.

(** * Verification *)

(** ** Machine integers and arrays *)

Lemma u32_small (i : Z) : 0 <= i < 2 ^ 32 -> u32 i = i.
Proof. intros H. unfold u32. apply Z.mod_small. exact H. Qed.

Lemma u32_range (i : Z) : 0 <= u32 i < 2 ^ 32.
Proof. unfold u32. apply Z.mod_pos_bound. lia. Qed.

Lemma u32_neg (i : Z) : - 2 ^ 31 <= i < 0 -> u32 i = i + 2 ^ 32.
Proof.
  intros H. unfold u32.
  symmetry. apply Z.mod_unique with (q := -1); lia.
Qed.

Lemma i32_small (i : Z) : - 2 ^ 31 <= i < 2 ^ 31 -> i32 i = i.
Proof.
  intros H. unfold i32. rewrite Z.mod_small; lia.
Qed.

Lemma upd_nat_other (a : list Z) (n m : nat) (v : Z) :
  n <> m -> nth m (upd_nat a n v) 0 = nth m a 0.
Proof.
  revert n m. induction a as [|h t IH]; intros n m Hne.
  - reflexivity.
  - destruct n, m; simpl; try reflexivity.
    + congruence.
    + apply IH. congruence.
Qed.

Lemma rd_wr_other (a : list Z) (i j v : Z) :
  i <> j -> rd (wr a i v) j = rd a j.
Proof.
  intros Hne. unfold rd, wr.
  destruct (j <? 0) eqn:Hj; [reflexivity|].
  destruct (i <? 0) eqn:Hi; [reflexivity|].
  apply upd_nat_other.
  apply Z.ltb_ge in Hi, Hj. intros E. apply Hne.
  apply Z2Nat.inj; assumption.
Qed.

Lemma land_255_range (r : Z) : 0 <= Z.land r 255 <= 255.
Proof.
  assert (E : Z.land r 255 = r mod 2 ^ 8).
  { change 255 with (Z.ones 8). apply Z.land_ones. lia. }
  rewrite E. pose proof (Z.mod_pos_bound r (2 ^ 8)) as H. lia.
Qed.

Lemma In_upto (n : nat) (b : Z) :
  0 <= b < Z.of_nat n -> In b (Scenario.upto n).
Proof.
  induction n as [|n IH]; intros Hb; [lia|].
  simpl. apply in_or_app.
  destruct (Z.eq_dec b (Z.of_nat n)) as [->|Hn]; [right; now left|].
  left. apply IH. lia.
Qed.

Section IntConversion.
Context {A : Arith}.

Lemma to_int_range (x : num) : INT_MIN <= to_int x <= INT_MAX.
Proof.
  unfold to_int.
  destruct (ftrunc x) as [t|]; [|unfold INT_MIN, INT_MAX; lia].
  destruct ((INT_MIN <=? t) && (t <=? INT_MAX)) eqn:E.
  - apply andb_prop in E. destruct E as [E1 E2].
    apply Z.leb_le in E1. apply Z.leb_le in E2. lia.
  - unfold INT_MIN, INT_MAX; lia.
Qed.

End IntConversion.

(** ** collectLandscape *)

Section ViewCollection.
Context {A : Arith}.

Lemma collect_loop_filter (L : Landscape) (cx cy cz k : num) :
  forall n e acc,
    collect_loop L cx cy cz k n e acc =
    acc ++ filter (fun p => in_view (deref L p) cx cy cz k) (seq e n).
Proof.
  induction n as [|n IH]; intros e acc; simpl.
  - now rewrite app_nil_r.
  - rewrite IH.
    destruct (in_view (deref L e) cx cy cz k).
    + now rewrite <- app_assoc.
    + reflexivity.
Qed.

Lemma map_nth_seq_from {T : Type} (d : T) (pre l : list T) :
  map (fun p => nth p (pre ++ l) d) (seq (length pre) (length l)) = l.
Proof.
  revert pre. induction l as [|a l IH]; intros pre; simpl.
  - reflexivity.
  - f_equal.
    + rewrite app_nth2 by lia. now rewrite Nat.sub_diag.
    + specialize (IH (pre ++ [a])).
      rewrite <- app_assoc in IH. simpl in IH.
      rewrite length_app in IH. simpl in IH.
      rewrite Nat.add_1_r in IH. exact IH.
Qed.

Lemma map_filter_comm {T U : Type} (f : T -> U) (P : U -> bool) (l : list T) :
  map f (filter (fun t => P (f t)) l) = filter P (map f l).
Proof.
  induction l as [|a l IH]; simpl; [reflexivity|].
  destruct (P (f a)); simpl; now rewrite IH.
Qed.

(** C7: whatever the output array held, after [collectLandscape] it holds
    the pointers to exactly the elements of the master list with
    [(e.x-cx)^2 + (e.y-cy)^2 + (e.z-cz)^2 < e.distanceThresholdSquared * s],
    every operation in [float], in the order of the master list. *)
Theorem collectLandscape_exact_subset
    (L : Landscape) (elements : list elem_ptr) (cx cy cz s : num) :
  let near (e : LandscapeElement) : bool :=
    flt ((e_x e -f cx) *f (e_x e -f cx) +f (e_y e -f cy) *f (e_y e -f cy)
         +f (e_z e -f cz) *f (e_z e -f cz))
        (distanceThresholdSquared e *f s) in
  collectLandscape L elements cx cy cz s =
    filter (fun p => near (deref L p)) (seq 0 (length (scape L)))
  /\ map (deref L) (collectLandscape L elements cx cy cz s) =
    filter near (scape L).
Proof.
  intros near.
  assert (H : collectLandscape L elements cx cy cz s =
    filter (fun p => near (deref L p)) (seq 0 (length (scape L)))).
  { unfold collectLandscape. now rewrite collect_loop_filter. }
  split; [exact H|].
  rewrite H.
  rewrite (map_filter_comm (deref L) near).
  f_equal. unfold deref.
  exact (map_nth_seq_from new_element [] (scape L)).
Qed.

End ViewCollection.

(** ** putHeight *)

Section HeightMapWrites.
Context {A : Arith}.

(** When [putHeight] gets past its four guards, the cell it addresses
    lies strictly inside the last row and the last column. *)
Lemma putHeight_cases (L : Landscape) (x z height : num) :
  0 < map_height_w L < 2 ^ 32 -> 0 < map_height_h L < 2 ^ 32 ->
  map_height_w L * map_height_h L <= 2 ^ 32 ->
  putHeight L x z height = L \/
  exists xi zi v,
    0 <= xi < map_height_w L - 1 /\ 0 <= zi < map_height_h L - 1 /\
    putHeight L x z height =
      set_map_height L (wr (map_height L) (xi + zi * map_height_w L) v).
Proof.
  intros Hw Hh Hwh. unfold putHeight.
  destruct (flt x (minX L) || fge x (maxX L)); [now left|].
  destruct (flt z (minZ L) || fge z (maxZ L)); [now left|].
  pose proof (to_int_range (ffloor (map_pos (minX L) (maxX L) x (map_height_w L)))) as Rx.
  pose proof (to_int_range (ffloor (map_pos (minZ L) (maxZ L) z (map_height_h L)))) as Rz.
  fold (put_xi L x) in *. fold (put_zi L z) in *.
  unfold INT_MIN, INT_MAX in Rx, Rz.
  destruct (u32 (map_height_w L - 1) <=? u32 (put_xi L x)) eqn:Ex; [now left|].
  destruct (u32 (map_height_h L - 1) <=? u32 (put_zi L z)) eqn:Ez; [now left|].
  right.
  apply Z.leb_gt in Ex, Ez.
  rewrite (u32_small (map_height_w L - 1)) in Ex by lia.
  rewrite (u32_small (map_height_h L - 1)) in Ez by lia.
  (* a cell is written only if there are at least two rows and columns *)
  assert (Hw3 : 2 <= map_height_w L).
  { pose proof (u32_range (put_xi L x)). lia. }
  assert (Hh3 : 2 <= map_height_h L).
  { pose proof (u32_range (put_zi L z)). lia. }
  assert (Hw4 : map_height_w L <= 2 ^ 31) by nia.
  assert (Hh4 : map_height_h L <= 2 ^ 31) by nia.
  assert (Px : 0 <= put_xi L x).
  { destruct (Z_lt_le_dec (put_xi L x) 0) as [n|p]; [|exact p].
    rewrite u32_neg in Ex by lia. lia. }
  assert (Pz : 0 <= put_zi L z).
  { destruct (Z_lt_le_dec (put_zi L z) 0) as [n|p]; [|exact p].
    rewrite u32_neg in Ez by lia. lia. }
  rewrite (u32_small (put_xi L x)) in Ex by lia.
  rewrite (u32_small (put_zi L z)) in Ez by lia.
  eexists (put_xi L x), (put_zi L z), _.
  split; [lia|]. split; [lia|].
  rewrite (u32_small (put_xi L x + put_zi L z * map_height_w L)) by nia.
  reflexivity.
Qed.

(** C10: [putHeight] returns the landscape as it was when the position is
    outside [minX, maxX) x [minZ, maxZ) or the cell index reaches the last
    column or row; and whatever the arguments, the last row and the last
    column of the height map, the element list, the bounds, the map's
    size and the soil map stay as they were. *)
Theorem putHeight_frame (L : Landscape) (x z height : num) :
  0 < map_height_w L < 2 ^ 32 -> 0 < map_height_h L < 2 ^ 32 ->
  map_height_w L * map_height_h L <= 2 ^ 32 ->
  (flt x (minX L) = true \/ fge x (maxX L) = true \/
   flt z (minZ L) = true \/ fge z (maxZ L) = true \/
   map_height_w L - 1 <= put_xi L x \/ map_height_h L - 1 <= put_zi L z ->
   putHeight L x z height = L)
  /\ (forall c r,
        0 <= c < map_height_w L -> 0 <= r < map_height_h L ->
        c = map_height_w L - 1 \/ r = map_height_h L - 1 ->
        rd (map_height (putHeight L x z height)) (c + r * map_height_w L) =
        rd (map_height L) (c + r * map_height_w L))
  /\ set_map_height (putHeight L x z height) (map_height L) = L.
Proof.
  intros Hw Hh Hwh. split; [|split].
  - intros Hout. unfold putHeight.
    destruct (flt x (minX L)) eqn:E1; [reflexivity|].
    destruct (fge x (maxX L)) eqn:E2; [reflexivity|].
    destruct (flt z (minZ L)) eqn:E3; [reflexivity|].
    destruct (fge z (maxZ L)) eqn:E4; [reflexivity|].
    simpl.
    pose proof (to_int_range (ffloor (map_pos (minX L) (maxX L) x (map_height_w L)))) as Rx.
    pose proof (to_int_range (ffloor (map_pos (minZ L) (maxZ L) z (map_height_h L)))) as Rz.
    fold (put_xi L x) in *. fold (put_zi L z) in *.
    unfold INT_MIN, INT_MAX in Rx, Rz.
    destruct Hout as [H|[H|[H|[H|[H|H]]]]]; try discriminate.
    + rewrite (u32_small (map_height_w L - 1)) by lia.
      rewrite (u32_small (put_xi L x)) by lia.
      apply Z.leb_le in H. now rewrite H.
    + destruct (u32 (map_height_w L - 1) <=? u32 (put_xi L x)); [reflexivity|].
      rewrite (u32_small (map_height_h L - 1)) by lia.
      rewrite (u32_small (put_zi L z)) by lia.
      apply Z.leb_le in H. now rewrite H.
  - intros c r Hc Hr Hlast.
    destruct (putHeight_cases L x z height Hw Hh Hwh) as [E|(xi & zi & v & Hxi & Hzi & E)];
      rewrite E; [reflexivity|].
    simpl. apply rd_wr_other. intros E'.
    assert (Hzr : zi = r).
    { destruct (Z.lt_trichotomy zi r) as [Hlt|[Heq|Hgt]]; [nia|exact Heq|nia]. }
    subst r. lia.
  - destruct (putHeight_cases L x z height Hw Hh Hwh) as [E|(xi & zi & v & Hxi & Hzi & E)];
      rewrite E; destruct L; reflexivity.
Qed.

End HeightMapWrites.

(** ** collideLine *)

Module CollFacts.
Import Coll CollSpec.
Section Line.
Context {A : Arith}.

(** C5: a segment that starts inside a solid region reports no hit,
    wherever it ends; the four output values are zero. *)
Theorem collideLine_start_solid
    (fuel : nat) (C : LandscapeCollision) (x0 z0 x1 z1 : num) :
  isPoint C x0 z0 = true ->
  collideLine fuel C x0 z0 x1 z1 = Some no_hit.
Proof.
  intros Hsolid. unfold collideLine. now rewrite Hsolid.
Qed.

(** The loop, started at the k-th sample, walks over samples that are
    neither solid nor past the end. *)
Lemma collide_loop_skip (C : LandscapeCollision) (x0 z0 x1 z1 : num) :
  forall (n k fuel : nat),
    (forall j, (k < j <= k + n)%nat ->
       past_end C x0 z0 x1 z1 j = false /\ solid C x0 z0 x1 z1 j = false) ->
    collide_loop (n + fuel) C x0 z0
      (fst (seg_dir x0 z0 x1 z1)) (snd (seg_dir x0 z0 x1 z1))
      (seg_len x0 z0 x1 z1) (line_step C)
      (fst (sample C x0 z0 x1 z1 k)) (snd (sample C x0 z0 x1 z1 k)) =
    collide_loop fuel C x0 z0
      (fst (seg_dir x0 z0 x1 z1)) (snd (seg_dir x0 z0 x1 z1))
      (seg_len x0 z0 x1 z1) (line_step C)
      (fst (sample C x0 z0 x1 z1 (k + n))) (snd (sample C x0 z0 x1 z1 (k + n))).
Proof.
  induction n as [|n IH]; intros k fuel Hfree.
  - now rewrite Nat.add_0_r.
  - destruct (Hfree (S k)) as [Hpast Hsolid]; [lia|].
    unfold past_end, solid in Hpast, Hsolid. simpl in Hpast, Hsolid.
    simpl. rewrite Hpast, Hsolid.
    specialize (IH (S k) fuel).
    simpl in IH. rewrite IH.
    + now replace (k + S n)%nat with (S (k + n)) by lia.
    + intros j Hj. apply Hfree. lia.
Qed.

(** One more iteration decides. *)
Lemma collide_loop_decide (C : LandscapeCollision) (x0 z0 x1 z1 : num)
    (k fuel : nat) :
  collide_loop (S fuel) C x0 z0
    (fst (seg_dir x0 z0 x1 z1)) (snd (seg_dir x0 z0 x1 z1))
    (seg_len x0 z0 x1 z1) (line_step C)
    (fst (sample C x0 z0 x1 z1 k)) (snd (sample C x0 z0 x1 z1 k)) =
  if solid C x0 z0 x1 z1 (S k)
  then Some (hit_at C (fst (sample C x0 z0 x1 z1 k)) (snd (sample C x0 z0 x1 z1 k)))
  else if past_end C x0 z0 x1 z1 (S k) then Some no_hit
  else collide_loop fuel C x0 z0
         (fst (seg_dir x0 z0 x1 z1)) (snd (seg_dir x0 z0 x1 z1))
         (seg_len x0 z0 x1 z1) (line_step C)
         (fst (sample C x0 z0 x1 z1 (S k))) (snd (sample C x0 z0 x1 z1 (S k))).
Proof.
  unfold past_end, solid. simpl.
  destruct (fgt _ _); destruct (isPoint _ _ _); reflexivity.
Qed.

(** C4, as the code has it.  Let the start be free.  A segment shorter
    than 0.00001 gives no hit.  Otherwise, let the samples 1 .. N be
    neither solid nor farther from the start than the segment is long:
    given fuel for N+1 iterations, a solid sample N+1 is reported as a hit
    at sample N, also when sample N+1 already lies past the end of the
    segment; and a free sample N+1 past the end gives no hit. *)
Theorem collideLine_first_solid_sample
    (C : LandscapeCollision) (x0 z0 x1 z1 : num) (N fuel : nat) :
  isPoint C x0 z0 = false ->
  (flt (fabs (seg_len x0 z0 x1 z1)) (lit Double 1 100000) = true ->
   collideLine fuel C x0 z0 x1 z1 = Some no_hit)
  /\
  (flt (fabs (seg_len x0 z0 x1 z1)) (lit Double 1 100000) = false ->
   (forall j, (1 <= j <= N)%nat ->
      past_end C x0 z0 x1 z1 j = false /\ solid C x0 z0 x1 z1 j = false) ->
   (N < fuel)%nat ->
   (solid C x0 z0 x1 z1 (S N) = true ->
    collideLine fuel C x0 z0 x1 z1 =
      Some (hit_at C (fst (sample C x0 z0 x1 z1 N)) (snd (sample C x0 z0 x1 z1 N))))
   /\ (solid C x0 z0 x1 z1 (S N) = false ->
       past_end C x0 z0 x1 z1 (S N) = true ->
       collideLine fuel C x0 z0 x1 z1 = Some no_hit)).
Proof.
  intros Hstart. split.
  { intros Hshort. unfold collideLine. rewrite Hstart.
    fold (seg_len x0 z0 x1 z1). rewrite Hshort. reflexivity. }
  intros Hlong Hfree Hfuel.
  assert (E : collideLine fuel C x0 z0 x1 z1 =
    if solid C x0 z0 x1 z1 (S N)
    then Some (hit_at C (fst (sample C x0 z0 x1 z1 N)) (snd (sample C x0 z0 x1 z1 N)))
    else if past_end C x0 z0 x1 z1 (S N) then Some no_hit
    else collide_loop (fuel - S N) C x0 z0
           (fst (seg_dir x0 z0 x1 z1)) (snd (seg_dir x0 z0 x1 z1))
           (seg_len x0 z0 x1 z1) (line_step C)
           (fst (sample C x0 z0 x1 z1 (S N))) (snd (sample C x0 z0 x1 z1 (S N)))).
  { unfold collideLine. rewrite Hstart.
    fold (seg_len x0 z0 x1 z1). rewrite Hlong.
    replace fuel with (N + S (fuel - S N))%nat at 1 by lia.
    change x0 with (fst (sample C x0 z0 x1 z1 0)) at 4.
    change z0 with (snd (sample C x0 z0 x1 z1 0)) at 4.
    change ((x1 -d x0) /d seg_len x0 z0 x1 z1)%fl with (fst (seg_dir x0 z0 x1 z1)).
    change ((z1 -d z0) /d seg_len x0 z0 x1 z1)%fl with (snd (seg_dir x0 z0 x1 z1)).
    rewrite (collide_loop_skip C x0 z0 x1 z1 N 0).
    - simpl (0 + N)%nat. apply collide_loop_decide.
    - intros j Hj. apply Hfree. lia. }
  split.
  - intros Hs. now rewrite E, Hs.
  - intros Hs Hp. now rewrite E, Hs, Hp.
Qed.

End Line.
End CollFacts.

(** ** The order of the collected elements *)

Section InsertionSort.
Variable T : Type.
Variable cmp : T -> T -> Z.

Lemma insert_by_perm (a : T) (l : list T) :
  Permutation (a :: l) (insert_by cmp a l).
Proof.
  induction l as [|b t IH]; simpl.
  - apply Permutation_refl.
  - destruct (cmp a b <=? 0).
    + apply Permutation_refl.
    + apply perm_trans with (b :: a :: t).
      * apply perm_swap.
      * now apply perm_skip.
Qed.

Lemma insertion_qsort_perm (l : list T) :
  Permutation l (insertion_qsort T cmp l).
Proof.
  induction l as [|a l IH]; simpl.
  - apply perm_nil.
  - apply perm_trans with (a :: insertion_qsort T cmp l).
    + now apply perm_skip.
    + apply insert_by_perm.
Qed.

Lemma insert_by_hd (a b : T) (l : list T) :
  cmp b a <= 0 -> HdRel (cmp_le cmp) b l -> HdRel (cmp_le cmp) b (insert_by cmp a l).
Proof.
  intros Hba Hl. destruct l as [|c t]; simpl.
  - now constructor.
  - destruct (cmp a c <=? 0); constructor; trivial.
    now inversion Hl.
Qed.

Lemma insert_by_sorted (a : T) (l : list T) :
  (forall b, In b l -> cmp a b <= 0 \/ cmp b a <= 0) ->
  Sorted (cmp_le cmp) l -> Sorted (cmp_le cmp) (insert_by cmp a l).
Proof.
  intros Htot Hs. induction Hs as [|b t Ht IH Hhd]; simpl.
  - repeat constructor.
  - destruct (cmp a b <=? 0) eqn:E.
    + constructor.
      * now constructor.
      * constructor. now apply Z.leb_le in E.
    + apply Z.leb_gt in E.
      constructor.
      * apply IH. intros c Hc. apply Htot. now right.
      * apply insert_by_hd; [|exact Hhd].
        destruct (Htot b) as [H|H]; [now left|lia|exact H].
Qed.

Lemma insertion_qsort_sorted (l : list T) :
  consistent cmp l -> Sorted (cmp_le cmp) (insertion_qsort T cmp l).
Proof.
  intros [Htot _]. induction l as [|a l IH]; simpl.
  - constructor.
  - apply insert_by_sorted.
    + intros b Hb. apply Htot; [now left|right].
      apply Permutation_in with (insertion_qsort T cmp l); [|exact Hb].
      apply Permutation_sym, insertion_qsort_perm.
    + apply IH. intros x y Hx Hy. apply Htot; now right.
Qed.

End InsertionSort.

Lemma insertion_qsort_contract : qsort_contract insertion_qsort.
Proof.
  intros T cmp l. split.
  - apply insertion_qsort_perm.
  - apply insertion_qsort_sorted.
Qed.

Lemma Sorted_weaken {T : Type} (R R' : T -> T -> Prop) (l : list T) :
  (forall a b, In a l -> In b l -> R a b -> R' a b) ->
  Sorted R l -> Sorted R' l.
Proof.
  intros Himp Hs. induction Hs as [|a l Hl IH Hhd].
  - constructor.
  - constructor.
    + apply IH. intros x y Hx Hy. apply Himp; now right.
    + destruct Hhd as [|b t Hab]; constructor.
      apply Himp; [now left|right; now left|exact Hab].
Qed.

Section ViewSorting.
Context {A : Arith}.

(** On keys that are not negative, the comparison function is the
    difference "key of the left element minus key of the right one". *)
Lemma elementSortFunc_keys (L : Landscape) (cameraPos : Vector) (a b : elem_ptr) :
  0 <= sort_key L cameraPos a -> 0 <= sort_key L cameraPos b ->
  elementSortFunc (to_single (vec_x cameraPos)) (to_single (vec_y cameraPos))
    (to_single (vec_z cameraPos)) (deref L a) (deref L b) =
  sort_key L cameraPos a - sort_key L cameraPos b.
Proof.
  intros Ha Hb. unfold elementSortFunc.
  fold (dist2 (deref L b) (to_single (vec_x cameraPos))
          (to_single (vec_y cameraPos)) (to_single (vec_z cameraPos))).
  fold (dist2 (deref L a) (to_single (vec_x cameraPos))
          (to_single (vec_y cameraPos)) (to_single (vec_z cameraPos))).
  fold (sort_key L cameraPos a). fold (sort_key L cameraPos b).
  pose proof (to_int_range (dist2 (deref L a) (to_single (vec_x cameraPos))
          (to_single (vec_y cameraPos)) (to_single (vec_z cameraPos)))) as Ra.
  pose proof (to_int_range (dist2 (deref L b) (to_single (vec_x cameraPos))
          (to_single (vec_y cameraPos)) (to_single (vec_z cameraPos)))) as Rb.
  fold (sort_key L cameraPos a) in Ra. fold (sort_key L cameraPos b) in Rb.
  unfold INT_MIN, INT_MAX in Ra, Rb.
  rewrite (i32_small (sort_key L cameraPos b - sort_key L cameraPos a)) by lia.
  rewrite i32_small by lia. lia.
Qed.

(** C1, as the code has it: with any [qsort] that meets the C contract,
    and squared distances that fit an [int], the collected list is in
    ascending order of the squared camera distance cut to an integer:
    nearest first. *)
Theorem collectElements_nearest_first
    (qsort : qsort_fn) (L : Landscape) (elements : list elem_ptr)
    (cameraPos : Vector) (detailScale : num) :
  qsort_contract qsort ->
  (forall p,
     In p (collectLandscape L elements (to_single (vec_x cameraPos))
             (to_single (vec_y cameraPos)) (to_single (vec_z cameraPos))
             (to_single detailScale)) ->
     0 <= sort_key L cameraPos p) ->
  Sorted (nearer_first L cameraPos)
    (collectElements qsort L elements cameraPos detailScale).
Proof.
  intros Hq Hkeys. unfold collectElements.
  set (l := collectLandscape L elements _ _ _ _) in *.
  set (cmp := fun a b : elem_ptr => elementSortFunc _ _ _ (deref L a) (deref L b)).
  destruct (Hq elem_ptr cmp l) as [Hperm Hsorted].
  assert (Hcmp : forall a b, In a l -> In b l ->
            cmp a b = sort_key L cameraPos a - sort_key L cameraPos b).
  { intros a b Ha Hb. apply elementSortFunc_keys; now apply Hkeys. }
  apply Sorted_weaken with (R := cmp_le cmp).
  - intros a b Ha Hb Hab. unfold cmp_le in Hab. unfold nearer_first.
    rewrite Hcmp in Hab; [lia| |];
      apply Permutation_in with (qsort elem_ptr cmp l);
      try (apply Permutation_sym; exact Hperm); assumption.
  - apply Hsorted. split.
    + intros a b Ha Hb. rewrite !Hcmp by assumption. lia.
    + intros a b c Ha Hb Hc. rewrite !Hcmp by assumption. lia.
Qed.

End ViewSorting.

(** ** Samples drawn by setTrees, setGrass and setFlowers *)

Section Loops.
Context {S : Type}.

Lemma for_loop_count (pos : S -> nat) (c : nat) (body : Z -> S -> S) :
  (forall i s, pos (body i s) = (pos s + c)%nat) ->
  forall n i s, pos (for_loop n i body s) = (pos s + n * c)%nat.
Proof.
  intros Hbody. induction n as [|n IH]; intros i s; simpl.
  - lia.
  - rewrite IH, Hbody. lia.
Qed.

Lemma for_zx_count (pos : S -> nat) (c : nat) (body : Z -> Z -> S -> S) :
  (forall x z s, pos (body x z s) = (pos s + c)%nat) ->
  forall w h s,
    pos (for_zx w h body s) = (pos s + Z.to_nat h * (Z.to_nat w * c))%nat.
Proof.
  intros Hbody w h s. unfold for_zx.
  apply for_loop_count. intros z s'.
  apply for_loop_count. intros x s''. apply Hbody.
Qed.

(** A property of the state that every iteration keeps is kept by the
    loop; the body is only asked about the cells of the scan. *)
Lemma for_loop_keeps (P : S -> Prop) (body : Z -> S -> S) :
  forall n i0,
    (forall i s, i0 <= i < i0 + Z.of_nat n -> P s -> P (body i s)) ->
    forall s, P s -> P (for_loop n i0 body s).
Proof.
  induction n as [|n IH]; intros i0 Hbody s Hs; simpl.
  - exact Hs.
  - apply IH.
    + intros i s' Hi. apply Hbody. lia.
    + apply Hbody; [lia|exact Hs].
Qed.

Lemma for_zx_keeps (P : S -> Prop) (body : Z -> Z -> S -> S) (w h : Z) :
  (forall x z s, 0 <= x < w -> 0 <= z < h -> P s -> P (body x z s)) ->
  forall s, P s -> P (for_zx w h body s).
Proof.
  intros Hbody s Hs. unfold for_zx.
  apply for_loop_keeps; [|exact Hs].
  intros z s' Hz Hs'.
  apply for_loop_keeps; [|exact Hs'].
  intros x s'' Hx. apply Hbody; lia.
Qed.

End Loops.

Lemma for_stride_keeps {S : Type} (P : S -> Prop) (body : Z -> S -> S)
    (bound step : Z) :
  (forall i s, P s -> P (body i s)) ->
  forall fuel i s, P s -> P (for_stride fuel i bound step body s).
Proof.
  intros Hb. induction fuel as [|fuel IH]; intros i s Hs; simpl.
  - exact Hs.
  - destruct (i <? bound); [|exact Hs]. apply IH. now apply Hb.
Qed.

Section Draws.
Context {A : Arith}.
Variable sin cos : num -> num.
Variable rand_stream : Z -> nat -> Z.

Lemma setTrees_cell_draws mask map w h m x z s :
  drawn (setTrees_cell rand_stream mask map w h m x z s) = (drawn s + 6)%nat.
Proof.
  unfold setTrees_cell, drawn, rand. simpl.
  destruct (negb _); [simpl; lia|].
  destruct (_ && _); simpl; lia.
Qed.

Lemma setGrass_cell_draws mask map w h m x z s :
  drawn (setGrass_cell sin cos rand_stream mask map w h m x z s) = (drawn s + 7)%nat.
Proof.
  unfold setGrass_cell, drawn, rand. simpl.
  destruct (negb _); [simpl; lia|].
  destruct (negb _); [|simpl; lia].
  destruct (_ && _); simpl; lia.
Qed.

Lemma setFlowers_cell_draws mask map w h m x z s :
  drawn (setFlowers_cell sin cos rand_stream mask map w h m x z s) = (drawn s + 7)%nat.
Proof.
  unfold setFlowers_cell, drawn, rand. simpl.
  destruct (negb _); [simpl; lia|].
  destruct (_ && _); simpl; lia.
Qed.

(** C3, as the code has it: whatever the mask, the layer and the sample
    values are, one cell of the scan draws 6 samples in [setTrees] and 7
    in [setGrass] and in [setFlowers]; so a whole call, which starts the
    stream anew, has drawn 6 (or 7) times the number of cells. *)
Theorem samples_drawn_per_cell (mask map : list Z) (w h m : Z) (s : gstate) :
  (forall x z s,
     drawn (setTrees_cell rand_stream mask map w h m x z s) = (drawn s + 6)%nat /\
     drawn (setGrass_cell sin cos rand_stream mask map w h m x z s) = (drawn s + 7)%nat /\
     drawn (setFlowers_cell sin cos rand_stream mask map w h m x z s) = (drawn s + 7)%nat)
  /\ drawn (setTrees rand_stream mask map w h m s) = (Z.to_nat h * (Z.to_nat w * 6))%nat
  /\ drawn (setGrass sin cos rand_stream mask map w h m s) = (Z.to_nat h * (Z.to_nat w * 7))%nat
  /\ drawn (setFlowers sin cos rand_stream mask map w h m s) = (Z.to_nat h * (Z.to_nat w * 7))%nat.
Proof.
  split; [|split; [|split]].
  - intros x z s'. split; [|split].
    + apply setTrees_cell_draws.
    + apply setGrass_cell_draws.
    + apply setFlowers_cell_draws.
  - unfold setTrees.
    rewrite (for_zx_count drawn 6); [reflexivity|].
    intros; apply setTrees_cell_draws.
  - unfold setGrass.
    rewrite (for_zx_count drawn 7); [reflexivity|].
    intros; apply setGrass_cell_draws.
  - unfold setFlowers.
    rewrite (for_zx_count drawn 7); [reflexivity|].
    intros; apply setFlowers_cell_draws.
Qed.

End Draws.

(** ** No threshold below zero *)

Section Thresholds.
Context {A : Arith}.
Variable sin cos : num -> num.
Variable rand_stream : Z -> nat -> Z.

(** What the proof needs of the arithmetic: a square is not below zero,
    and neither is zero itself. *)
Hypothesis square_ok : forall x : num, flt (x *f x) (fl 0) = false.
Hypothesis zero_ok : flt (fl 0) (fl 0) = false.






















End Thresholds.

(** *** In IEEE arithmetic *)

Module Signs.
Import IEEE.
#[local] Existing Instance IEEE.ieee_arith.







End Signs.

(** ** The program on concrete inputs, in IEEE arithmetic *)

Module Run.
Import Scenario.
#[local] Existing Instance IEEE.ieee_arith.

(** *** getHeight on the 2 x 2 map *)

(** C2, refuted as stated: at (0.5, 0.5) the result is not within 0.01 of
    50. *)
Lemma getHeight_centre_not_50 :
  ~ within (getHeight scape4 (lit Single 1 2) (lit Single 1 2) 0 0)
      (fl 50) (lit Single 1 100).
Proof. unfold within. vm_compute. discriminate. Qed.

(** C2, as the code has it: the world is mapped onto W cells, not onto
    W-1 intervals, so (0.5, 0.5) falls on cell (1,1) and the result is that
    cell's height, exactly 0; the value 50 is taken at (0.25, 0.25), half
    way between the four samples. *)
Theorem getHeight_scenario4 :
  getHeight scape4 (lit Single 1 2) (lit Single 1 2) 0 0 = fl 0 /\
  getHeight scape4 (lit Single 1 4) (lit Single 1 4) 0 0 = fl 50.
Proof. split; vm_compute; reflexivity. Qed.

(** *** collectLandscape *)

(** Of two elements with squared distance 25, the one with threshold 26
    is collected at detail scale 1 and the one with threshold 25 is not:
    the comparison is strict; at detail scale 2 both are. *)
Lemma collectLandscape_exact_subset_witness :
  collectLandscape view3 [] (fl 0) (fl 0) (fl 0) (fl 1) = [1%nat] /\
  collectLandscape view3 [] (fl 0) (fl 0) (fl 0) (fl 2) = [0%nat; 1%nat].
Proof.
  split.
  - rewrite (proj1 (collectLandscape_exact_subset view3 [] (fl 0) (fl 0) (fl 0) (fl 1))).
    vm_compute. reflexivity.
  - rewrite (proj1 (collectLandscape_exact_subset view3 [] (fl 0) (fl 0) (fl 0) (fl 2))).
    vm_compute. reflexivity.
Defined.

(** *** The order of the collected elements *)

(** C1, refuted as stated: the element at distance 0 comes before the
    element at distance 10. *)
Lemma collectElements_not_farthest_first :
  ~ Sorted (farther_first view2 origin)
      (collectElements insertion_qsort view2 [] origin (db 1)).
Proof.
  assert (E : collectElements insertion_qsort view2 [] origin (db 1) = [0%nat; 1%nat])
    by (vm_compute; reflexivity).
  rewrite E. intros Hs.
  inversion Hs as [|a l Hl Hhd]; subst.
  inversion Hhd as [|b t Hab]; subst.
  unfold farther_first in Hab. vm_compute in Hab. discriminate.
Qed.

Lemma collectElements_nearest_first_witness :
  Sorted (nearer_first view2 origin)
    (collectElements insertion_qsort view2 [] origin (db 1)).
Proof.
  apply collectElements_nearest_first.
  - exact insertion_qsort_contract.
  - intros p Hp.
    assert (E : collectLandscape view2 [] (to_single (vec_x origin))
                  (to_single (vec_y origin)) (to_single (vec_z origin))
                  (to_single (db 1)) = [0%nat; 1%nat])
      by (vm_compute; reflexivity).
    rewrite E in Hp.
    destruct Hp as [<-|[<-|[]]]; vm_compute; discriminate.
Defined.

(** Whatever [qsort] the C library has, the contract forces the order
    nearest first on [view2]. *)
Lemma collectElements_order_forced (qsort : qsort_fn) :
  qsort_contract qsort ->
  collectElements qsort view2 [] origin (db 1) = [0%nat; 1%nat].
Proof.
  intros Hq. unfold collectElements.
  assert (El : collectLandscape view2 [] (to_single (vec_x origin))
                 (to_single (vec_y origin)) (to_single (vec_z origin))
                 (to_single (db 1)) = [0%nat; 1%nat])
    by (vm_compute; reflexivity).
  rewrite El.
  set (cmp := fun a b : elem_ptr => elementSortFunc _ _ _ (deref view2 a) (deref view2 b)).
  assert (C00 : cmp 0%nat 0%nat = 0) by (vm_compute; reflexivity).
  assert (C01 : cmp 0%nat 1%nat = -100) by (vm_compute; reflexivity).
  assert (C10 : cmp 1%nat 0%nat = 100) by (vm_compute; reflexivity).
  assert (C11 : cmp 1%nat 1%nat = 0) by (vm_compute; reflexivity).
  destruct (Hq elem_ptr cmp [0%nat; 1%nat]) as [Hperm Hsorted].
  assert (Hc : consistent cmp [0%nat; 1%nat]).
  { split.
    - intros a b [<-|[<-|[]]] [<-|[<-|[]]]; rewrite ?C00, ?C01, ?C10, ?C11; lia.
    - intros a b c [<-|[<-|[]]] [<-|[<-|[]]] [<-|[<-|[]]];
        rewrite ?C00, ?C01, ?C10, ?C11; lia. }
  specialize (Hsorted Hc).
  destruct (Permutation_length_2_inv Hperm) as [E|E]; rewrite E in *.
  - reflexivity.
  - inversion Hsorted as [|a l Hl Hhd]; subst.
    inversion Hhd as [|b t Hab]; subst.
    unfold cmp_le in Hab. rewrite C10 in Hab. lia.
Qed.

(** *** Samples drawn *)

(** C3, refuted as stated: one cell of [setTrees] does not advance the
    stream by 7 samples. *)
Lemma setTrees_cell_not_7_samples :
  drawn (setTrees_cell ansi_rand [0] [1] 1 1 1 0 0 (mkG scape4 (srand 0)))
  <> (drawn (mkG scape4 (srand 0)) + 7)%nat.
Proof. vm_compute. discriminate. Qed.

(** *** hitThresh *)


(** **** Arithmetic on byte values

    The cells of the maps are [unsigned char]; on them the [float]
    operations of [hitThresh] are decided by evaluation. *)











(** *** The element invariant *)



(** Where the width of the world is beyond the largest [float],
    [maxX-minX] is infinite and the position of column 0 is NaN, which is
    not at or above [minX]. *)
Lemma setTrees_position_nan :
  flt (minX huge1) (maxX huge1) = true /\
  map (fun e => (e_x e, fle (minX huge1) (e_x e)))
    (scape (land (setTrees all_255 [0] [1] 1 1 1 (mkG huge1 (srand 0)))))
  = [(S754_nan, false)].
Proof. split; vm_compute; reflexivity. Qed.




(** *** The collision field *)

(** C9, at the failing input: on the field of the specification's
    scenarios, 0..10 on 100 columns, [xPos] gives x = 2.3 for column 23 and
    [xCoord] gives column 22 for it: [(2.3-0)*100/10] is
    22.999999999999996 in [double], and [floor] cuts it down. *)
Lemma xCoord_xPos_not_identity :
  0 <= 23 < Coll.width field100 /\
  Coll.xPos field100 23 = lit Double 23 10 /\
  (Coll.xPos field100 23 -d Coll.minX field100) *d db (Coll.width field100)
    /d (Coll.maxX field100 -d Coll.minX field100)
  = S754_finite false 6473924464345087 (-48) /\
  Coll.xCoord field100 (Coll.xPos field100 23) = 22.
Proof.
  split; [vm_compute; intuition discriminate|].
  repeat split; vm_compute; reflexivity.
Qed.

(** On the field of the source's own example, every column and row index
    comes back. *)
Lemma xCoord_xPos_field1024 :
  forallb (fun c => (Coll.xCoord field1024 (Coll.xPos field1024 c) =? c)
                    && (Coll.zCoord field1024 (Coll.zPos field1024 c) =? c))
    (upto 1024) = true.
Proof. vm_compute. reflexivity. Qed.

Lemma collideLine_start_solid_witness :
  Coll.collideLine 0 disc100 (db 5) (db 5) (db 10) (db 5) = Some Coll.no_hit.
Proof.
  apply CollFacts.collideLine_start_solid.
  vm_compute. reflexivity.
Defined.

(** The samples of the segment (2, 1.5) -> (2.501, 1.5) on [wall4]:
    samples 1 .. 10 are free and within the segment's length. *)
Lemma wall4_free_samples (j : nat) :
  (1 <= j <= 10)%nat ->
  CollSpec.past_end wall4 (db 2) (lit Double 3 2) (lit Double 2501 1000) (lit Double 3 2) j = false /\
  CollSpec.solid wall4 (db 2) (lit Double 3 2) (lit Double 2501 1000) (lit Double 3 2) j = false.
Proof.
  intros Hj.
  do 11 (destruct j as [|j]; [try lia; split; vm_compute; reflexivity|]).
  lia.
Qed.

(** C4, refuted as stated: no sample within the length of the segment is
    solid, and [collideLine] reports a hit: sample 11 is the first past the
    end, and it is solid. *)
Lemma collideLine_hit_past_end :
  ~ CollSpec.spec_no_hit_rule wall4
      (db 2) (lit Double 3 2) (lit Double 2501 1000) (lit Double 3 2).
Proof.
  intros Hrule.
  assert (Hrun : option_map Coll.hit
            (Coll.collideLine 30 wall4 (db 2) (lit Double 3 2)
               (lit Double 2501 1000) (lit Double 3 2)) = Some true)
    by (vm_compute; reflexivity).
  destruct (Coll.collideLine 30 wall4 (db 2) (lit Double 3 2)
              (lit Double 2501 1000) (lit Double 3 2)) as [r|] eqn:Hr;
    [|discriminate].
  assert (Hhit : Coll.hit r = false).
  { apply Hrule with (fuel := 30%nat).
    - vm_compute. reflexivity.
    - intros k Hk Hwithin.
      destruct (Nat.le_gt_cases k 10) as [Hle|Hgt].
      + apply wall4_free_samples. lia.
      + specialize (Hwithin 11%nat ltac:(lia)).
        vm_compute in Hwithin. discriminate.
    - exact Hr. }
  simpl in Hrun. rewrite Hhit in Hrun. discriminate.
Qed.

Lemma collideLine_first_solid_sample_witness :
  Coll.collideLine 30 wall4 (db 2) (lit Double 3 2) (lit Double 2501 1000) (lit Double 3 2)
  = Some (Coll.hit_at wall4
            (fst (CollSpec.sample wall4 (db 2) (lit Double 3 2)
                    (lit Double 2501 1000) (lit Double 3 2) 10))
            (snd (CollSpec.sample wall4 (db 2) (lit Double 3 2)
                    (lit Double 2501 1000) (lit Double 3 2) 10)))
  /\ CollSpec.past_end wall4 (db 2) (lit Double 3 2)
       (lit Double 2501 1000) (lit Double 3 2) 11 = true
  /\ Coll.collideLine 0 wall4 (db 2) (lit Double 3 2) (db 2) (lit Double 3 2)
     = Some Coll.no_hit.
Proof.
  split; [|split].
  - refine (proj1 (proj2 (CollFacts.collideLine_first_solid_sample wall4
             (db 2) (lit Double 3 2) (lit Double 2501 1000) (lit Double 3 2) 10 30
             _) _ _ _) _).
    + vm_compute. reflexivity.
    + vm_compute. reflexivity.
    + exact wall4_free_samples.
    + lia.
    + vm_compute. reflexivity.
  - vm_compute. reflexivity.
  - refine (proj1 (CollFacts.collideLine_first_solid_sample wall4
             (db 2) (lit Double 3 2) (db 2) (lit Double 3 2) 0 0 _) _).
    + vm_compute. reflexivity.
    + vm_compute. reflexivity.
Defined.

(** *** putHeight *)

Lemma putHeight_frame_witness :
  putHeight scape4 (fl 5) (lit Single 1 2) (fl 10) = scape4.
Proof.
  refine (proj1 (putHeight_frame scape4 (fl 5) (lit Single 1 2) (fl 10) _ _ _) _).
  - vm_compute. intuition discriminate.
  - vm_compute. intuition discriminate.
  - vm_compute. discriminate.
  - right. left. vm_compute. reflexivity.
Defined.

End Run.


(** * Further properties of the code *)

(** ** Arrays *)

Lemma length_upd_nat (a : list Z) (n : nat) (v : Z) :
  length (upd_nat a n v) = length a.
Proof. revert n. induction a as [|h t IH]; intros [|n]; simpl; auto. Qed.

Lemma length_wr (a : list Z) (i v : Z) : length (wr a i v) = length a.
Proof. unfold wr. destruct (i <? 0); [reflexivity|apply length_upd_nat]. Qed.

Lemma nth_upd_same (a : list Z) (n : nat) (v : Z) :
  (n < length a)%nat -> nth n (upd_nat a n v) 0 = v.
Proof.
  revert n. induction a as [|h t IH]; intros [|n] Hn; simpl in *;
    try lia; auto. apply IH. lia.
Qed.

Lemma upd_out (a : list Z) (n : nat) (v : Z) :
  (length a <= n)%nat -> upd_nat a n v = a.
Proof.
  revert n. induction a as [|h t IH]; intros [|n] Hn; simpl in *;
    try lia; auto. f_equal. apply IH. lia.
Qed.

Lemma rd_wr_same (a : list Z) (i v : Z) :
  0 <= i < Z.of_nat (length a) -> rd (wr a i v) i = v.
Proof.
  intros Hi. unfold rd, wr.
  destruct (i <? 0) eqn:E; [apply Z.ltb_lt in E; lia|].
  apply nth_upd_same. lia.
Qed.

Lemma wr_out (a : list Z) (i v : Z) :
  ~ 0 <= i < Z.of_nat (length a) -> wr a i v = a.
Proof.
  intros Hi. unfold wr.
  destruct (i <? 0) eqn:E; [reflexivity|].
  apply Z.ltb_ge in E. apply upd_out. lia.
Qed.

Lemma wr_rd (a : list Z) (i : Z) : wr a i (rd a i) = a.
Proof.
  unfold wr, rd. destruct (i <? 0); [reflexivity|].
  generalize (Z.to_nat i). intros n. revert n.
  induction a as [|h t IH]; intros [|n]; simpl; auto. f_equal. apply IH.
Qed.

Lemma rd_ext (a b : list Z) :
  length a = length b -> (forall i, rd a i = rd b i) -> a = b.
Proof.
  intros Hl Hrd. apply (nth_ext a b 0 0 Hl). intros n Hn.
  specialize (Hrd (Z.of_nat n)). unfold rd in Hrd.
  destruct (Z.of_nat n <? 0) eqn:E; [apply Z.ltb_lt in E; lia|].
  now rewrite Nat2Z.id in Hrd.
Qed.

Lemma in_or_out (a : list Z) (i : Z) :
  {0 <= i < Z.of_nat (length a)} + {~ 0 <= i < Z.of_nat (length a)}.
Proof.
  destruct (Z_lt_ge_dec i 0); [right; lia|].
  destruct (Z_lt_ge_dec i (Z.of_nat (length a))); [left; lia|right; lia].
Qed.

Lemma rd_wr_zero (a : list Z) (i : Z) : rd (wr a i 0) i = 0.
Proof.
  unfold rd, wr. destruct (i <? 0); [reflexivity|].
  generalize (Z.to_nat i). intros n. revert n.
  induction a as [|h t IH]; intros [|n]; simpl; auto.
Qed.


Lemma rd_bounds (lo hi : Z) (l : list Z) :
  lo <= 0 <= hi -> Forall (fun v => lo <= v <= hi) l ->
  forall i, lo <= rd l i <= hi.
Proof.
  intros H0 Hl i. unfold rd. destruct (i <? 0); [exact H0|].
  generalize (Z.to_nat i). intros n. revert n.
  induction Hl as [|v l Hv Hl IH]; intros [|n]; simpl; auto.
Qed.

(** ** Loops and cell indices *)

Lemma for_loop_index {St : Type} (I : Z -> St -> Prop) (body : Z -> St -> St) :
  forall n i0,
    (forall i s, i0 <= i < i0 + Z.of_nat n -> I i s -> I (i + 1) (body i s)) ->
    forall s, I i0 s -> I (i0 + Z.of_nat n) (for_loop n i0 body s).
Proof.
  induction n as [|n IH]; intros i0 Hb s Hs.
  - simpl. now rewrite Z.add_0_r.
  - cbn [for_loop].
    replace (i0 + Z.of_nat (S n)) with ((i0 + 1) + Z.of_nat n) by lia.
    apply IH.
    + intros i s' Hi. apply Hb. lia.
    + apply Hb; [lia|exact Hs].
Qed.

Lemma cell_index_unique (w a b x z : Z) :
  0 <= a < w -> 0 <= x < w -> a + b * w = x + z * w -> a = x /\ b = z.
Proof.
  intros Ha Hx E.
  destruct (Z.lt_trichotomy b z) as [Hlt|[Heq|Hgt]].
  - exfalso. nia.
  - subst. split; lia.
  - exfalso. nia.
Qed.



(** ** removeElementsWithType *)

Section RemoveByType.
Context {A : Arith}.

Lemma firstn_succ_nth (l : list LandscapeElement) (i : nat) :
  (i < length l)%nat -> firstn (S i) l = firstn i l ++ [nth i l new_element].
Proof.
  revert i. induction l as [|a l IH]; intros i Hi; simpl in Hi; [lia|].
  destruct i as [|i]; [reflexivity|].
  simpl. f_equal. apply IH. lia.
Qed.

Lemma skipn_nth_cons (l : list LandscapeElement) (i : nat) :
  (i < length l)%nat -> skipn i l = nth i l new_element :: skipn (S i) l.
Proof.
  revert i. induction l as [|a l IH]; intros i Hi; simpl in Hi; [lia|].
  destruct i as [|i]; [reflexivity|].
  simpl. apply IH. lia.
Qed.

Lemma remove_loop_filter (type : Z) :
  forall n s, (n <= length s)%nat ->
    remove_loop type n s =
    filter (fun e => negb (e_type e =? type)) (firstn n s) ++ skipn n s.
Proof.
  induction n as [|i IH]; intros s Hn; [reflexivity|].
  simpl remove_loop.
  rewrite firstn_succ_nth by lia.
  rewrite filter_app. simpl filter.
  destruct (e_type (nth i s new_element) =? type) eqn:E; simpl negb; cbv iota.
  - unfold erase. rewrite IH.
    + rewrite firstn_app, firstn_firstn, Nat.min_id.
      rewrite length_firstn, Nat.min_l by lia.
      rewrite Nat.sub_diag. simpl firstn. rewrite !app_nil_r.
      f_equal.
      rewrite skipn_app, length_firstn, Nat.min_l by lia.
      rewrite Nat.sub_diag. simpl skipn at 2.
      rewrite skipn_all2 by (rewrite length_firstn; lia).
      simpl. now rewrite Nat.add_1_r.
    + rewrite length_app, length_firstn, Nat.min_l by lia. lia.
  - rewrite IH by lia. rewrite <- app_assoc. simpl.
    now rewrite (skipn_nth_cons s i) by lia.
Qed.

Lemma same_ground_set_scape_early (L : Landscape) (s : list LandscapeElement) :
  same_ground L (set_scape L s).
Proof. unfold same_ground. simpl. repeat split. Qed.

Lemma remove_filter_ground (L : Landscape) (type : Z) :
  scape (removeElementsWithType L type) =
    filter (fun e => negb (e_type e =? type)) (scape L)
  /\ same_ground L (removeElementsWithType L type).
Proof.
  split.
  - unfold removeElementsWithType. simpl.
    rewrite remove_loop_filter by lia.
    rewrite firstn_all, skipn_all. apply app_nil_r.
  - unfold same_ground, removeElementsWithType. simpl. repeat split.
Qed.

(** X1: [removeElementsWithType] leaves exactly the elements of the other
    types, in the order they had, and nothing else of the landscape
    changes. *)
Theorem removeElementsWithType_filter (L : Landscape) (type : Z) :
  scape (removeElementsWithType L type) =
    filter (fun e => negb (e_type e =? type)) (scape L)
  /\ same_ground L (removeElementsWithType L type).
Proof.
  split.
  - unfold removeElementsWithType. simpl.
    rewrite remove_loop_filter by lia.
    rewrite firstn_all, skipn_all. apply app_nil_r.
  - apply same_ground_set_scape_early.
Qed.

End RemoveByType.


(** ** What the generation procedures add, and what they leave alone *)

Section LandscapeRelations.
Context {A : Arith}.

Lemma same_ground_refl (L : Landscape) : same_ground L L.
Proof. unfold same_ground. repeat split. Qed.

Lemma same_ground_trans (L1 L2 L3 : Landscape) :
  same_ground L1 L2 -> same_ground L2 L3 -> same_ground L1 L3.
Proof. unfold same_ground. intuition congruence. Qed.

Lemma same_frame_refl (L : Landscape) : same_frame L L.
Proof. unfold same_frame. repeat split. Qed.

Lemma same_frame_trans (L1 L2 L3 : Landscape) :
  same_frame L1 L2 -> same_frame L2 L3 -> same_frame L1 L3.
Proof. unfold same_frame. intuition congruence. Qed.

Lemma same_ground_frame (L L' : Landscape) : same_ground L L' -> same_frame L L'.
Proof. unfold same_ground, same_frame. intuition congruence. Qed.

Lemma same_ground_set_scape (L : Landscape) (s : list LandscapeElement) :
  same_ground L (set_scape L s).
Proof. unfold same_ground. simpl. repeat split. Qed.

Lemma same_frame_putHeight (L : Landscape) (x z y : num) :
  same_frame L (putHeight L x z y) /\ scape (putHeight L x z y) = scape L.
Proof.
  unfold putHeight.
  repeat match goal with
         | |- context [if ?c then L else _] => destruct c
         end; try (split; [apply same_frame_refl|reflexivity]).
  split; [|reflexivity].
  unfold same_frame. simpl. rewrite length_wr. repeat split.
Qed.

Lemma extends_refl (K : list LandscapeType) (L : Landscape) : extends K L L.
Proof. exists []. split; [now rewrite app_nil_r|constructor]. Qed.

Lemma extends_trans (K : list LandscapeType) (L1 L2 L3 : Landscape) :
  extends K L1 L2 -> extends K L2 L3 -> extends K L1 L3.
Proof.
  intros [s1 [E1 F1]] [s2 [E2 F2]]. exists (s1 ++ s2). split.
  - rewrite E2, E1. now rewrite app_assoc.
  - apply Forall_app. now split.
Qed.

Lemma extends_same_scape (K : list LandscapeType) (L L' : Landscape) :
  scape L' = scape L -> extends K L L'.
Proof. intros E. exists []. split; [now rewrite app_nil_r|constructor]. Qed.

Lemma extends_push (K : list LandscapeType) (L : Landscape)
    (e : LandscapeElement) :
  In (e_type e) (map type_code K) -> extends K L (push_back L e).
Proof.
  intros H. exists [e]. split; [reflexivity|].
  constructor; [exact H|constructor].
Qed.

(** A relation between landscapes that is reflexive and transitive, and
    that every cell of a scan respects, is respected by the scan. *)
Lemma for_zx_related (R : Landscape -> Landscape -> Prop)
    (body : Z -> Z -> Landscape -> Landscape) (w h : Z) :
  (forall L, R L L) ->
  (forall L1 L2 L3, R L1 L2 -> R L2 L3 -> R L1 L3) ->
  (forall x z L, R L (body x z L)) ->
  forall L, R L (for_zx w h body L).
Proof.
  intros Hr Ht Hb L.
  apply (for_zx_keeps (fun L' => R L L')); [|apply Hr].
  intros x z L' _ _ H. eapply Ht; [exact H|apply Hb].
Qed.

Lemma for_zx_related_state (R : Landscape -> Landscape -> Prop)
    (body : Z -> Z -> gstate -> gstate) (w h : Z) :
  (forall L, R L L) ->
  (forall L1 L2 L3, R L1 L2 -> R L2 L3 -> R L1 L3) ->
  (forall x z s, R (land s) (land (body x z s))) ->
  forall s, R (land s) (land (for_zx w h body s)).
Proof.
  intros Hr Ht Hb s.
  apply (for_zx_keeps (fun s' => R (land s) (land s'))); [|apply Hr].
  intros x z s' _ _ H. eapply Ht; [exact H|apply Hb].
Qed.

(** What one step adds: elements of the kinds [K] behind the others, on
    the same ground. *)
Lemma adds_refl (K : list LandscapeType) (L : Landscape) :
  extends K L L /\ same_ground L L.
Proof. split; [apply extends_refl|apply same_ground_refl]. Qed.

Lemma adds_trans (K : list LandscapeType) (L1 L2 L3 : Landscape) :
  extends K L1 L2 /\ same_ground L1 L2 ->
  extends K L2 L3 /\ same_ground L2 L3 ->
  extends K L1 L3 /\ same_ground L1 L3.
Proof.
  intros [E1 G1] [E2 G2]. split.
  - eapply extends_trans; eassumption.
  - eapply same_ground_trans; eassumption.
Qed.

Lemma reshapes_refl (K : list LandscapeType) (L : Landscape) :
  extends K L L /\ same_frame L L.
Proof. split; [apply extends_refl|apply same_frame_refl]. Qed.

Lemma reshapes_trans (K : list LandscapeType) (L1 L2 L3 : Landscape) :
  extends K L1 L2 /\ same_frame L1 L2 ->
  extends K L2 L3 /\ same_frame L2 L3 ->
  extends K L1 L3 /\ same_frame L1 L3.
Proof.
  intros [E1 G1] [E2 G2]. split.
  - eapply extends_trans; eassumption.
  - eapply same_frame_trans; eassumption.
Qed.

Lemma adds_reshapes (K : list LandscapeType) (L L' : Landscape) :
  extends K L L' /\ same_ground L L' -> extends K L L' /\ same_frame L L'.
Proof. intros [E G]. split; [exact E|now apply same_ground_frame]. Qed.

Lemma adds_push (K : list LandscapeType) (L : Landscape)
    (e : LandscapeElement) :
  In (e_type e) (map type_code K) ->
  extends K L (push_back L e) /\ same_ground L (push_back L e).
Proof.
  intros H. split; [now apply extends_push|apply same_ground_set_scape].
Qed.

Lemma adds_more (K K' : list LandscapeType) (L L' : Landscape) :
  incl K K' ->
  extends K L L' /\ same_ground L L' -> extends K' L L' /\ same_ground L L'.
Proof.
  intros Hi [[suf [E F]] G]. split; [|exact G].
  exists suf. split; [exact E|].
  eapply Forall_impl; [|exact F]. intros e He. simpl in He.
  apply in_map_iff in He. destruct He as [t [Et It]].
  apply in_map_iff. exists t. split; [exact Et|now apply Hi].
Qed.

End LandscapeRelations.

Ltac split_ifs :=
  repeat match goal with
         | |- context [land (if ?c then _ else _)] => destruct c
         | |- context [if ?c then push_back _ _ else _] => destruct c
         | |- context [if ?c then with_land _ _ else _] => destruct c
         end.

Ltac one_push :=
  first [ apply adds_refl
        | apply adds_push; cbn; tauto ].

Section GroundFacts.
Context {A : Arith}.

Lemma adds_insertEmpty (L : Landscape) (x2 z2 : num) (w h : Z) (d : num) :
  extends [LANDSCAPE_TYPE_HEIGHT] L (insertEmpty L x2 z2 w h d) /\
  same_ground L (insertEmpty L x2 z2 w h d).
Proof. unfold insertEmpty. cbv beta iota zeta. one_push. Qed.

Lemma adds_cleanup (c : cross) (thresh w h x z : Z) (d : num) (L : Landscape) :
  extends [LANDSCAPE_TYPE_HEIGHT] L (cleanup c thresh w h x z d L) /\
  same_ground L (cleanup c thresh w h x z d L).
Proof.
  unfold cleanup. destruct (contour c thresh);
    [apply adds_insertEmpty|apply adds_refl].
Qed.

Lemma adds_setObjects_cell (rgba : list Z) (w h x z : Z) (L : Landscape) :
  extends [LANDSCAPE_TYPE_OBJECT] L (setObjects_cell rgba w h x z L) /\
  same_ground L (setObjects_cell rgba w h x z L).
Proof.
  unfold setObjects_cell. cbv beta iota zeta.
  destruct (negb _); one_push.
Qed.

Lemma adds_setWater_cell (map : list Z) (w h t1 t2 x z : Z) (L : Landscape) :
  let K := [LANDSCAPE_TYPE_WATER; LANDSCAPE_TYPE_HEIGHT] in
  extends K L (setWater_cell map w h t1 t2 x z L) /\
  same_ground L (setWater_cell map w h t1 t2 x z L).
Proof.
  intros K. unfold setWater_cell. cbv beta iota zeta.
  eapply adds_trans;
    [|apply (adds_more [LANDSCAPE_TYPE_HEIGHT]);
      [intros t [<-|[]]; simpl; tauto|apply adds_cleanup]].
  destruct (contour _ _ || false); one_push.
Qed.

Lemma quiet_refl (L : Landscape) : scape L = scape L /\ same_frame L L.
Proof. split; [reflexivity|apply same_frame_refl]. Qed.

Lemma quiet_trans (L1 L2 L3 : Landscape) :
  scape L2 = scape L1 /\ same_frame L1 L2 ->
  scape L3 = scape L2 /\ same_frame L2 L3 ->
  scape L3 = scape L1 /\ same_frame L1 L3.
Proof.
  intros [E1 F1] [E2 F2]. split; [congruence|].
  eapply same_frame_trans; eassumption.
Qed.

Lemma quiet_reshapes (K : list LandscapeType) (L L' : Landscape) :
  scape L' = scape L /\ same_frame L L' -> extends K L L' /\ same_frame L L'.
Proof. intros [E F]. split; [now apply extends_same_scape|exact F]. Qed.

(** *** setHeightMap *)

Lemma set_at_app_r (l suf : list LandscapeElement) (k : nat)
    (e : LandscapeElement) :
  (length l <= k)%nat ->
  set_at (l ++ suf) k e = l ++ set_at suf (k - length l) e.
Proof.
  revert k. induction l as [|a l IH]; intros k Hk; simpl.
  - now rewrite Nat.sub_0_r.
  - destruct k as [|k]; simpl in Hk; [lia|].
    simpl. f_equal. apply IH. lia.
Qed.

Lemma Forall_set_at (P : LandscapeElement -> Prop) (l : list LandscapeElement)
    (k : nat) (e : LandscapeElement) :
  P e -> Forall P l -> Forall P (set_at l k e).
Proof.
  intros He Hl. revert k. induction Hl as [|a l Ha Hl IH]; intros k; simpl.
  - constructor.
  - destruct k; constructor; auto.
Qed.

Lemma Forall_repeat (P : LandscapeElement -> Prop) (e : LandscapeElement)
    (n : nat) :
  P e -> Forall P (repeat e n).
Proof. intros He. induction n; simpl; constructor; auto. Qed.

Lemma resize_app_r (l suf : list LandscapeElement) (n : Z) :
  Z.of_nat (length l) <= n ->
  resize n (l ++ suf) =
    l ++ firstn (Z.to_nat n - length l) suf
      ++ repeat new_element (Z.to_nat n - length (l ++ suf)).
Proof.
  intros Hn. unfold resize.
  rewrite firstn_app, firstn_all2 by lia.
  now rewrite <- app_assoc.
Qed.

Lemma setHeightMap_cell_steps (mask map : list Z) (w h stepX stepZ : Z)
    (distFact steepThresh : num) (boden : list Z) (tz x z : Z)
    (L : Landscape) (k : Z) :
  let st' := setHeightMap_cell mask map w h stepX stepZ distFact steepThresh
               boden tz x z (L, k) in
  st' = (L, k) \/
  exists e, e_type e = type_code LANDSCAPE_TYPE_HEIGHT /\
    st' = (set_scape L (set_at (scape L) (Z.to_nat k) e), k + 1).
Proof.
  unfold setHeightMap_cell. cbv beta iota zeta.
  destruct (negb _ && negb _); [now left|].
  destruct (flt _ _ && negb _); [now left|].
  right. eexists. split; [|reflexivity]. reflexivity.
Qed.

Lemma setHeightMap_appends (mask map : list Z) (w h stepX stepZ : Z)
    (distFact steepThresh : num) (boden : list Z) (L : Landscape) :
  0 <= w -> 0 <= h -> 0 < stepX -> 0 < stepZ ->
  extends [LANDSCAPE_TYPE_HEIGHT] L
    (setHeightMap mask map w h stepX stepZ distFact steepThresh boden L).
Proof.
  intros Hw Hh Hx Hz. unfold setHeightMap. cbv beta iota zeta.
  cbn [scape set_scape].
  set (T := fun e : LandscapeElement =>
              In (e_type e) (List.map type_code [LANDSCAPE_TYPE_HEIGHT])).
  assert (Tnew : T new_element) by (unfold T; simpl; tauto).
  set (Q := fun st : Landscape * Z =>
              Z.of_nat (length (scape L)) <= snd st /\
              exists suf, scape (fst st) = scape L ++ suf /\ Forall T suf).
  match goal with
  | |- context [for_stride ?f ?i ?b ?st ?body ?s0] =>
      assert (HQ : Q (for_stride f i b st body s0))
  end.
  { apply for_stride_keeps.
    - intros z st Hst. apply for_stride_keeps; [|exact Hst].
      intros x [L' k] [Hk [suf [E F]]]. simpl in Hk, E.
      destruct (setHeightMap_cell_steps mask map w h stepX stepZ distFact
                  steepThresh boden (align 32 z (i32 h)) x z L' k)
        as [-> | [e [Te ->]]].
      + split; [exact Hk|]. exists suf. now split.
      + split; [simpl; lia|]. simpl.
        rewrite E, set_at_app_r by lia.
        eexists. split; [reflexivity|].
        apply Forall_set_at; [|exact F].
        unfold T. rewrite Te. simpl. tauto.
    - split; [simpl; lia|]. cbn [fst scape set_scape].
      assert (Ht : 0 <= w / stepX * (h / stepZ)).
      { apply Z.mul_nonneg_nonneg; apply Z.div_pos; lia. }
      exists (repeat new_element
                (Z.to_nat (Z.of_nat (length (scape L)) + w / stepX * (h / stepZ))
                 - length (scape L))).
      split; [|now apply Forall_repeat].
      unfold resize. now rewrite firstn_all2 by lia. }
  destruct (for_stride _ _ _ _ _ _) as [L3 k].
  destruct HQ as [Hk [suf [E F]]]. simpl in Hk, E.
  cbn [scape set_scape]. rewrite E, resize_app_r by lia.
  eexists. split; [reflexivity|].
  apply Forall_app. split.
  - clear - F. revert F. generalize (Z.to_nat k - length (scape L))%nat.
    intros n F. revert n. induction F; intros [|n]; simpl; constructor; auto.
  - now apply Forall_repeat.
Qed.

Lemma setHeightMap_ground (mask map : list Z) (w h stepX stepZ : Z)
    (distFact steepThresh : num) (boden : list Z) (L : Landscape) :
  same_ground
    (mkLandscape (scape L) (minX L) (maxX L) (minY L) (maxY L)
       (minZ L) (maxZ L) w h map boden)
    (setHeightMap mask map w h stepX stepZ distFact steepThresh boden L).
Proof.
  unfold setHeightMap. cbv beta iota zeta.
  set (L1 := mkLandscape (scape L) (minX L) (maxX L) (minY L) (maxY L)
               (minZ L) (maxZ L) w h map boden).
  match goal with
  | |- context [for_stride ?f ?i ?b ?st ?body ?s0] =>
      assert (HQ : same_ground L1 (fst (for_stride f i b st body s0)))
  end.
  { apply (for_stride_keeps (fun st => same_ground L1 (fst st))).
    - intros z st Hst.
      apply (for_stride_keeps (fun st => same_ground L1 (fst st)));
        [|exact Hst].
      intros x [L' k] H. simpl in H.
      destruct (setHeightMap_cell_steps mask map w h stepX stepZ distFact
                  steepThresh boden (align 32 z (i32 h)) x z L' k)
        as [-> | [e [Te ->]]]; [exact H|].
      simpl fst. eapply same_ground_trans; [exact H|].
      apply same_ground_set_scape.
    - simpl fst. apply same_ground_set_scape. }
  destruct (for_stride _ _ _ _ _ _) as [L3 k]. simpl in HQ.
  eapply same_ground_trans; [exact HQ|]. apply same_ground_set_scape.
Qed.

(** *** setObjects, pixel by pixel *)

Lemma for_loop_fold {S : Type} (body : Z -> S -> S) :
  forall n a s,
    for_loop n (Z.of_nat a) body s =
    fold_left (fun s k => body (Z.of_nat k) s) (seq a n) s.
Proof.
  induction n as [|n IH]; intros a s; [reflexivity|].
  simpl. rewrite <- IH. f_equal. lia.
Qed.

Lemma fold_left_flat_map {S T U : Type} (f : S -> U -> S) (g : T -> list U)
    (l : list T) (s : S) :
  fold_left f (flat_map g l) s =
  fold_left (fun s t => fold_left f (g t) s) l s.
Proof.
  revert s. induction l as [|t l IH]; intros s; [reflexivity|].
  simpl. now rewrite fold_left_app, IH.
Qed.

(** The scan visits the cells of [scan_cells], in that order. *)
Lemma for_zx_scan {S : Type} (body : Z -> Z -> S -> S) (w h : Z) (s : S) :
  for_zx w h body s =
  fold_left (fun s c => body (fst c) (snd c) s) (scan_cells w h) s.
Proof.
  unfold for_zx, scan_cells.
  rewrite (for_loop_fold _ (Z.to_nat h) 0), fold_left_flat_map.
  generalize (seq 0 (Z.to_nat h)). intros lz. revert s.
  induction lz as [|z lz IHz]; intros s; [reflexivity|].
  simpl. rewrite <- IHz. f_equal.
  rewrite (for_loop_fold _ (Z.to_nat w) 0).
  generalize (seq 0 (Z.to_nat w)). intros l. revert s.
  induction l as [|x l IH]; intros s; [reflexivity|]. simpl. apply IH.
Qed.

Lemma getHeight_ground (L L' : Landscape) (x z : num) (xa za : Z) :
  same_ground L L' -> getHeight L' x z xa za = getHeight L x z xa za.
Proof.
  unfold same_ground. destruct L, L'. simpl.
  intros (-> & -> & -> & -> & -> & -> & -> & -> & -> & ->). reflexivity.
Qed.

Lemma setObjects_cell_pixel (rgba : list Z) (w h x z : Z) (L L' : Landscape) :
  same_ground L L' ->
  scape (setObjects_cell rgba w h x z L') =
    scape L' ++ object_of_pixel L rgba w h (x, z) /\
  same_ground L (setObjects_cell rgba w h x z L').
Proof.
  intros G. split.
  - unfold object_of_pixel, setObjects_cell. cbv beta iota zeta.
    cbn [fst snd].
    destruct (negb _); [|cbn [scape set_scape]; now rewrite app_nil_r].
    cbn [scape set_scape push_back app].
    rewrite (getHeight_ground L L') by exact G.
    rewrite (getHeight_ground L (set_scape L []))
      by apply same_ground_set_scape.
    destruct G as (-> & -> & _ & _ & -> & -> & _).
    cbn [minX maxX minZ maxZ set_scape]. reflexivity.
  - eapply same_ground_trans; [exact G|].
    apply (adds_setObjects_cell rgba w h x z L').
Qed.

Lemma setObjects_fold (rgba : list Z) (w h : Z) (L : Landscape) :
  forall cells L',
    same_ground L L' ->
    let R := fold_left (fun s c => setObjects_cell rgba w h (fst c) (snd c) s)
               cells L' in
    scape R = scape L' ++ flat_map (object_of_pixel L rgba w h) cells /\
    same_ground L R.
Proof.
  induction cells as [|[x z] cells IH]; intros L' G; simpl.
  - split; [now rewrite app_nil_r|exact G].
  - destruct (setObjects_cell_pixel rgba w h x z L L' G) as [E G'].
    destruct (IH _ G') as [E2 G2]. split; [|exact G2].
    rewrite E2, E. now rewrite <- app_assoc.
Qed.

Lemma setObjects_scan (rgba : list Z) (w h : Z) (L : Landscape) :
  scape (setObjects rgba w h L) =
    scape L ++ flat_map (object_of_pixel L rgba w h) (scan_cells w h).
Proof.
  unfold setObjects. rewrite for_zx_scan.
  apply (setObjects_fold rgba w h L (scan_cells w h) L (same_ground_refl L)).
Qed.

Lemma object_of_pixel_decode (rgba : list Z) (w h : Z) (L : Landscape)
    (x z : Z) :
  let p := rd rgba (x + z * w) in
  (Z.land p 255 < 4 -> object_of_pixel L rgba w h (x, z) = []) /\
  (4 <= Z.land p 255 ->
   exists e, object_of_pixel L rgba w h (x, z) = [e] /\
     e_type e = type_code LANDSCAPE_TYPE_OBJECT /\
     e_v0 e = Z.land p 255 / 4 /\
     e_v1 e = Z.land (Z.shiftr p 8) 255 / 4 /\
     e_v2 e = Z.land (Z.shiftr p 16) 255 / 4 /\
     1 <= e_v0 e <= 63 /\
     e_x e = world (minX L) (maxX L) (fl x) w /\
     e_z e = world (minZ L) (maxZ L) (fl z) h /\
     e_y e = getHeight L (e_x e) (e_z e) 0 0).
Proof.
  intros p.
  assert (Hb : forall q, 0 <= Z.land q 255 / 4 <= 63).
  { intros q. pose proof (land_255_range q) as Hq.
    split; [apply Z.div_pos; lia|].
    assert (Z.land q 255 / 4 < 64) by (apply Z.div_lt_upper_bound; lia).
    lia. }
  assert (Hu : forall q, u8 (Z.land q 255 / 4) = Z.land q 255 / 4).
  { intros q. unfold u8. apply Z.mod_small. specialize (Hb q). lia. }
  unfold object_of_pixel, setObjects_cell. cbv beta iota zeta.
  cbn [fst snd]. fold p. split; intros Hp.
  - replace (Z.land p 255 / 4) with 0
      by (symmetry; apply Z.div_small;
          pose proof (land_255_range p); lia).
    reflexivity.
  - assert (H1 : 1 <= Z.land p 255 / 4)
      by (apply Z.div_le_lower_bound; lia).
    destruct (Z.land p 255 / 4 =? 0) eqn:E; [lia|]. cbn [negb].
    eexists. split; [reflexivity|].
    cbn [e_type e_v0 e_v1 e_v2 e_x e_y e_z set_dts set_type set_v0 set_v1
         set_v2 set_x set_y set_z new_element type_code].
    rewrite !Hu.
    rewrite (getHeight_ground L (set_scape L []))
      by apply same_ground_set_scape.
    specialize (Hb p). repeat split; lia.
Qed.

(** X5: [setObjects] appends, in scan order, one object for every pixel
    whose red channel is 4 or more, and nothing for the others; the
    object's parameters v0, v1 and v2 are the pixel's red, green and blue
    channels divided by 4, v0 being the object's type, 1 to 63, and it
    stands on the ground at the world position of the pixel. *)
Theorem setObjects_per_pixel (rgba : list Z) (w h : Z) (L : Landscape) :
  scape (setObjects rgba w h L) =
    scape L ++ flat_map (object_of_pixel L rgba w h) (scan_cells w h)
  /\ forall x z,
       let p := rd rgba (x + z * w) in
       (Z.land p 255 < 4 -> object_of_pixel L rgba w h (x, z) = []) /\
       (4 <= Z.land p 255 ->
        exists e, object_of_pixel L rgba w h (x, z) = [e] /\
          e_type e = type_code LANDSCAPE_TYPE_OBJECT /\
          e_v0 e = Z.land p 255 / 4 /\
          e_v1 e = Z.land (Z.shiftr p 8) 255 / 4 /\
          e_v2 e = Z.land (Z.shiftr p 16) 255 / 4 /\
          1 <= e_v0 e <= 63 /\
          e_x e = world (minX L) (maxX L) (fl x) w /\
          e_z e = world (minZ L) (maxZ L) (fl z) h /\
          e_y e = getHeight L (e_x e) (e_z e) 0 0).
Proof.
  split; [apply setObjects_scan|].
  intros x z. apply object_of_pixel_decode.
Qed.

End GroundFacts.

Section GenerationFacts.
Context {A : Arith}.
Variable sin cos : num -> num.
Variable rand_stream : Z -> nat -> Z.

Lemma adds_setTrees_cell (mask map : list Z) (w h m x z : Z) (s : gstate) :
  let s' := setTrees_cell rand_stream mask map w h m x z s in
  extends [LANDSCAPE_TYPE_TREE] (land s) (land s') /\
  same_ground (land s) (land s').
Proof.
  unfold setTrees_cell, rand. cbv beta iota zeta.
  split_ifs; one_push.
Qed.

Lemma adds_setGrass_cell (mask map : list Z) (w h m x z : Z) (s : gstate) :
  let s' := setGrass_cell sin cos rand_stream mask map w h m x z s in
  extends [LANDSCAPE_TYPE_GRASS] (land s) (land s') /\
  same_ground (land s) (land s').
Proof.
  unfold setGrass_cell, rand. cbv beta iota zeta.
  split_ifs; one_push.
Qed.

Lemma adds_setFlowers_cell (mask map : list Z) (w h m x z : Z) (s : gstate) :
  let s' := setFlowers_cell sin cos rand_stream mask map w h m x z s in
  extends [LANDSCAPE_TYPE_FLOWER] (land s) (land s') /\
  same_ground (land s) (land s').
Proof.
  unfold setFlowers_cell, rand. cbv beta iota zeta.
  split_ifs; one_push.
Qed.

Lemma adds_setStones_cell (map : list Z) (w h t1 t2 x z : Z) (s : gstate) :
  let K := [LANDSCAPE_TYPE_STONE; LANDSCAPE_TYPE_HEIGHT] in
  let s' := setStones_cell rand_stream map w h t1 t2 x z s in
  extends K (land s) (land s') /\ same_ground (land s) (land s').
Proof.
  intros K. unfold setStones_cell, rand. cbv beta iota zeta.
  unfold with_land at 1. cbn [land].
  eapply adds_trans;
    [|apply (adds_more [LANDSCAPE_TYPE_HEIGHT]);
      [intros t [<-|[]]; simpl; tauto|apply adds_cleanup]].
  destruct (contour _ _); one_push.
Qed.

Lemma adds_road_grass (K : list LandscapeType) (mask size : Z)
    (pos : LandscapeElement) (s : gstate) :
  In LANDSCAPE_TYPE_GRASS K ->
  extends K (land s) (land (road_grass rand_stream mask size pos s)) /\
  same_ground (land s) (land (road_grass rand_stream mask size pos s)).
Proof.
  intros HK. unfold road_grass, rand. cbv beta iota zeta.
  destruct (Z.land _ _ =? 0); cbn [land].
  - apply adds_push. cbn [e_type set_dts set_v2 set_v1 set_v0 set_type].
    apply in_map_iff. exists LANDSCAPE_TYPE_GRASS. now split.
  - apply adds_refl.
Qed.

Lemma adds_setRoads_cell (map : list Z) (w h t1 t2 t3 x z : Z) (s : gstate) :
  let K := [LANDSCAPE_TYPE_ROAD; LANDSCAPE_TYPE_GRASS; LANDSCAPE_TYPE_HEIGHT] in
  let s' := setRoads_cell sin cos rand_stream map w h t1 t2 t3 x z s in
  extends K (land s) (land s') /\ same_ground (land s) (land s').
Proof.
  intros K. unfold setRoads_cell. cbv beta iota zeta.
  unfold with_land at 1. cbn [land].
  eapply adds_trans;
    [|apply (adds_more [LANDSCAPE_TYPE_HEIGHT]);
      [intros t [<-|[]]; simpl; tauto|apply adds_cleanup]].
  match goal with
  | |- context [if contour ?c t1 then ?a else ?b] =>
      set (s1 := if contour c t1 then a else b)
  end.
  assert (H1 : extends K (land s) (land s1) /\ same_ground (land s) (land s1)).
  { subst s1. destruct (contour _ t1); [|apply adds_refl].
    eapply adds_trans; [|apply adds_road_grass; simpl; tauto].
    cbn [land with_land]. one_push. }
  clearbody s1. eapply adds_trans; [exact H1|].
  destruct (contour _ t2); [|apply adds_refl].
  eapply adds_trans; [|apply adds_road_grass; simpl; tauto].
  cbn [land with_land]. one_push.
Qed.

Lemma reshapes_setStones_height (map : list Z) (w h t x z : Z) (s : gstate) :
  let s' := setStones_height sin cos rand_stream map w h t x z s in
  scape (land s') = scape (land s) /\ same_frame (land s) (land s').
Proof.
  unfold setStones_height, rand. cbv beta iota zeta.
  destruct (t <=? _); cbn [land with_land].
  - match goal with
    | |- context [putHeight ?L ?px ?pz ?y] =>
        destruct (same_frame_putHeight L px pz y) as [F E]
    end.
    split; assumption.
  - split; [reflexivity|apply same_frame_refl].
Qed.
Lemma reshapes_setRoads_height (map : list Z) (w h t x z : Z) (L : Landscape) :
  let L' := setRoads_height sin cos map w h t x z L in
  scape L' = scape L /\ same_frame L L'.
Proof.
  unfold setRoads_height. cbv beta iota zeta.
  destruct (t <=? _).
  - match goal with
    | |- context [putHeight ?L ?px ?pz ?y] =>
        destruct (same_frame_putHeight L px pz y) as [F E]
    end.
    split; assumption.
  - split; [reflexivity|apply same_frame_refl].
Qed.

(** *** Every call *)

Lemma run_call_reshapes (c : gen_call) (s : gstate) :
  match c with
  | Call_setHeightMap _ _ _ _ _ _ _ _ _ => True
  | Call_setStones _ _ _ _ _ | Call_setRoads _ _ _ _ _ _ =>
      extends (kinds_of_call c) (land s)
        (land (run_call sin cos rand_stream c s)) /\
      same_frame (land s) (land (run_call sin cos rand_stream c s))
  | _ =>
      extends (kinds_of_call c) (land s)
        (land (run_call sin cos rand_stream c s)) /\
      same_ground (land s) (land (run_call sin cos rand_stream c s))
  end.
Proof.
  destruct c; cbn [run_call kinds_of_call]; [exact I|..].
  - (* setObjects *)
    cbn [with_land land]. unfold setObjects.
    apply (for_zx_related
             (fun L L' => extends [LANDSCAPE_TYPE_OBJECT] L L' /\
                          same_ground L L'));
      [apply adds_refl|apply adds_trans|].
    intros x z L. apply adds_setObjects_cell.
  - (* setTrees *)
    unfold setTrees. cbv zeta.
    apply (for_zx_related_state
             (fun L L' => extends [LANDSCAPE_TYPE_TREE] L L' /\
                          same_ground L L')
             _ w h (adds_refl _) (adds_trans _)
             (adds_setTrees_cell mask map w h randomModulo)
             (mkG (land s) (srand 0))).
  - unfold setGrass. cbv zeta.
    apply (for_zx_related_state
             (fun L L' => extends [LANDSCAPE_TYPE_GRASS] L L' /\
                          same_ground L L')
             _ w h (adds_refl _) (adds_trans _)
             (adds_setGrass_cell mask map w h randomModulo)
             (mkG (land s) (srand 0))).
  - unfold setFlowers. cbv zeta.
    apply (for_zx_related_state
             (fun L L' => extends [LANDSCAPE_TYPE_FLOWER] L L' /\
                          same_ground L L')
             _ w h (adds_refl _) (adds_trans _)
             (adds_setFlowers_cell mask map w h randomModulo)
             (mkG (land s) (srand 0))).
  - (* setStones *)
    unfold setStones. cbv zeta. cbn [land].
    set (s1 := for_zx _ _ (setStones_height _ _ _ _ _ _ _) _).
    assert (H1 : scape (land s1) = scape (land s) /\
                 same_frame (land s) (land s1)).
    { subst s1.
      apply (for_zx_related_state
               (fun L L' => scape L' = scape L /\ same_frame L L')
               _ _ _ quiet_refl quiet_trans
               (reshapes_setStones_height map w h threshOuter)
               (mkG (land s) (srand 0))). }
    clearbody s1.
    eapply reshapes_trans; [apply quiet_reshapes; exact H1|].
    apply adds_reshapes.
    apply (for_zx_related_state
             (fun L L' =>
                extends [LANDSCAPE_TYPE_STONE; LANDSCAPE_TYPE_HEIGHT] L L' /\
                same_ground L L')
             _ w h (adds_refl _) (adds_trans _)
             (adds_setStones_cell map w h threshOuter threshCleanup)
             (mkG (land s1) (srand 0))).
  - (* setWater *)
    unfold setWater. cbv zeta. cbn [with_land land].
    apply (for_zx_related
             (fun L L' =>
                extends [LANDSCAPE_TYPE_WATER; LANDSCAPE_TYPE_HEIGHT] L L' /\
                same_ground L L'));
      [apply adds_refl|apply adds_trans|].
    intros x z L. apply adds_setWater_cell.
  - (* setRoads *)
    unfold setRoads. cbv zeta. unfold with_land. cbn [land gen].
    set (L1 := for_zx _ _ (setRoads_height _ _ _ _ _ _) _).
    assert (H1 : scape L1 = scape (land s) /\ same_frame (land s) L1).
    { subst L1.
      apply (for_zx_related
               (fun L L' => scape L' = scape L /\ same_frame L L'));
        [apply quiet_refl|apply quiet_trans|].
      intros x z L. apply reshapes_setRoads_height. }
    clearbody L1.
    eapply reshapes_trans; [apply quiet_reshapes; exact H1|].
    apply adds_reshapes.
    apply (for_zx_related_state
             (fun L L' =>
                extends [LANDSCAPE_TYPE_ROAD; LANDSCAPE_TYPE_GRASS;
                         LANDSCAPE_TYPE_HEIGHT] L L' /\
                same_ground L L')
             _ w h (adds_refl _) (adds_trans _)
             (adds_setRoads_cell map w h threshWayOuter threshWayInner
                threshCleanupMuchOuta)
             (mkG L1 (srand 0))).
  - (* insertEmpty *)
    cbn [with_land land]. apply adds_insertEmpty.
Qed.

Lemma run_call_extends (c : gen_call) (s : gstate) :
  call_defined c ->
  extends (kinds_of_call c) (land s) (land (run_call sin cos rand_stream c s)).
Proof.
  intros Hc. pose proof (run_call_reshapes c s) as H.
  destruct c; try exact (proj1 H).
  cbn [run_call kinds_of_call with_land land].
  destruct Hc as (Hw & Hh & Hx & Hz & _).
  now apply setHeightMap_appends.
Qed.

(** X2: a generation call only appends: the elements that were there stay
    where they are, unchanged, and what comes behind them is of the kinds
    of the call (its own kind, and blank height vertices for the contour
    procedures, grass tufts for the roads). *)
Theorem run_call_appends (c : gen_call) (s : gstate) :
  call_defined c ->
  extends (kinds_of_call c) (land s) (land (run_call sin cos rand_stream c s)).
Proof.
  intros Hc. pose proof (run_call_reshapes c s) as H.
  destruct c; try exact (proj1 H).
  cbn [run_call kinds_of_call with_land land].
  destruct Hc as (Hw & Hh & Hx & Hz & _).
  now apply setHeightMap_appends.
Qed.

(** X4: a sequence of generation calls keeps the elements it started with
    as the front of the master list; each element behind them is of a kind
    one of the calls adds. *)
Theorem run_calls_append_only (cs : list gen_call) (s : gstate) :
  Forall call_defined cs ->
  exists suffix,
    scape (land (run_calls sin cos rand_stream cs s)) =
      scape (land s) ++ suffix /\
    Forall (fun e => exists c, In c cs /\
                       In (e_type e) (map type_code (kinds_of_call c)))
      suffix.
Proof.
  revert s. induction cs as [|c cs IH]; intros s Hcs.
  - exists []. split; [simpl; now rewrite app_nil_r|constructor].
  - inversion Hcs as [|c' cs' Hc Hcs']; subst.
    destruct (run_call_extends c s Hc) as [s1 [E1 F1]].
    destruct (IH (run_call sin cos rand_stream c s) Hcs') as [s2 [E2 F2]].
    exists (s1 ++ s2). split.
    + change (run_calls sin cos rand_stream (c :: cs) s)
        with (run_calls sin cos rand_stream cs
                (run_call sin cos rand_stream c s)).
      rewrite E2, E1. now rewrite app_assoc.
    + apply Forall_app. split.
      * eapply Forall_impl; [|exact F1]. intros e He.
        exists c. split; [now left|exact He].
      * eapply Forall_impl; [|exact F2]. intros e [c' [Ic He]].
        exists c'. split; [now right|exact He].
Qed.

(** X3: no call moves the world bounds.  [setHeightMap] installs the maps
    it is given; [setStones] and [setRoads] write heights into the height
    map but keep its size; every other call leaves the height map and the
    soil map as they are. *)
Theorem run_call_ground (c : gen_call) (s : gstate) :
  let L := land s in
  let L' := land (run_call sin cos rand_stream c s) in
  match c with
  | Call_setHeightMap _ map w h _ _ _ _ boden =>
      same_ground
        (mkLandscape (scape L) (minX L) (maxX L) (minY L) (maxY L)
           (minZ L) (maxZ L) w h map boden) L'
  | Call_setStones _ _ _ _ _ | Call_setRoads _ _ _ _ _ _ => same_frame L L'
  | _ => same_ground L L'
  end.
Proof.
  intros L L'. subst L L'. pose proof (run_call_reshapes c s) as H.
  destruct c; try exact (proj2 H).
  cbn [run_call with_land land]. apply setHeightMap_ground.
Qed.

End GenerationFacts.


(** ** The collision field: what the placing operations do to it *)

Module FieldFacts.
Import Coll.
Section Field.
Context {A : Arith}.

Lemma same_geometry_refl (C : LandscapeCollision) : same_geometry C C.
Proof. unfold same_geometry. repeat split. Qed.

Lemma same_geometry_trans (C1 C2 C3 : LandscapeCollision) :
  same_geometry C1 C2 -> same_geometry C2 C3 -> same_geometry C1 C3.
Proof. unfold same_geometry. intuition congruence. Qed.

Lemma raised_refl (C : LandscapeCollision) : raised C C.
Proof. split; [apply same_geometry_refl|intros i; lia]. Qed.

Lemma raised_trans (C1 C2 C3 : LandscapeCollision) :
  raised C1 C2 -> raised C2 C3 -> raised C1 C3.
Proof.
  intros [G1 H1] [G2 H2]. split.
  - eapply same_geometry_trans; eassumption.
  - intros i. specialize (H1 i). specialize (H2 i). lia.
Qed.

Lemma raised_antisym (C D : LandscapeCollision) :
  raised C D -> raised D C -> C = D.
Proof.
  intros [G1 H1] [_ H2]. destruct C, D. unfold same_geometry in G1.
  simpl in *. destruct G1 as (-> & -> & -> & -> & -> & -> & Hl).
  f_equal. apply rd_ext; [congruence|].
  intros i. specialize (H1 i). specialize (H2 i). lia.
Qed.

Lemma saturate_range (k : Z) : 0 <= saturate k <= 255.
Proof.
  unfold saturate. destruct (255 <? k) eqn:E1.
  - simpl. lia.
  - apply Z.ltb_ge in E1. destruct (k <? 0) eqn:E2; [lia|].
    apply Z.ltb_ge in E2. lia.
Qed.

Lemma raise_raised (i k : Z) (C : LandscapeCollision) :
  0 <= k <= 255 -> raised C (raise i k C).
Proof.
  intros Hk. unfold raise.
  destruct (rd (data C) i <? k) eqn:E; [|apply raised_refl].
  apply Z.ltb_lt in E. split.
  - unfold same_geometry. simpl. rewrite length_wr. repeat split.
  - intros j. simpl. destruct (Z.eq_dec i j) as [<-|Hn].
    + destruct (in_or_out (data C) i) as [Hi|Ho].
      * rewrite rd_wr_same by exact Hi. unfold u8.
        rewrite Z.mod_small by lia. lia.
      * rewrite wr_out by exact Ho. lia.
    + rewrite rd_wr_other by exact Hn. lia.
Qed.

Lemma raise_stays (i k : Z) (C C' : LandscapeCollision) :
  0 <= k <= 255 -> raise i k C = C -> raised C C' -> raise i k C' = C'.
Proof.
  intros Hk Heq [G Hle]. unfold raise in *.
  destruct (rd (data C) i <? k) eqn:E.
  - apply Z.ltb_lt in E.
    assert (Hd : wr (data C) i (u8 k) = data C)
      by (apply (f_equal data) in Heq; exact Heq).
    destruct (in_or_out (data C) i) as [Hi|Ho].
    + pose proof (rd_wr_same (data C) i (u8 k) Hi) as Hs.
      rewrite Hd in Hs. unfold u8 in Hs. rewrite Z.mod_small in Hs by lia.
      lia.
    + assert (Ho' : ~ 0 <= i < Z.of_nat (length (data C'))).
      { destruct G as (_ & _ & _ & _ & _ & _ & Hl). rewrite Hl. exact Ho. }
      destruct (rd (data C') i <? k); [|reflexivity].
      rewrite wr_out by exact Ho'. now destruct C'.
  - apply Z.ltb_ge in E. specialize (Hle i).
    destruct (rd (data C') i <? k) eqn:E'; [|reflexivity].
    apply Z.ltb_lt in E'. lia.
Qed.

Lemma raise_twice (i k : Z) (C : LandscapeCollision) :
  0 <= k <= 255 -> raise i k (raise i k C) = raise i k C.
Proof.
  intros Hk. unfold raise at 2.
  destruct (rd (data C) i <? k) eqn:E.
  - unfold raise. simpl. rewrite E.
    destruct (in_or_out (data C) i) as [Hi|Ho].
    + rewrite rd_wr_same by exact Hi. unfold u8.
      rewrite Z.mod_small by lia. now rewrite Z.ltb_irrefl.
    + rewrite !wr_out by exact Ho. now rewrite E.
  - unfold raise. now rewrite E.
Qed.

Lemma steady_raise (i k : Z) : 0 <= k <= 255 -> steady (raise i k).
Proof.
  intros Hk. split; [|split].
  - intros C. now apply raise_raised.
  - intros C C'. now apply raise_stays.
  - intros C. now apply raise_twice.
Qed.

Lemma steady_id : steady (fun C => C).
Proof.
  split; [|split]; auto. intros C. apply raised_refl.
Qed.

Lemma steady_ext (f g : LandscapeCollision -> LandscapeCollision) :
  (forall C, f C = g C) -> steady f -> steady g.
Proof.
  intros E (Ha & Hb & Hc). split; [|split].
  - intros C. rewrite <- E. apply Ha.
  - intros C C' H. rewrite <- !E in *. now apply Hb.
  - intros C. rewrite <- !E. apply Hc.
Qed.

Lemma steady_compose (f g : LandscapeCollision -> LandscapeCollision) :
  steady f -> steady g -> steady (fun C => g (f C)).
Proof.
  intros (Fa & Fb & Fc) (Ga & Gb & Gc). split; [|split].
  - intros C. eapply raised_trans; [apply Fa|apply Ga].
  - intros C C' Hfix Hr.
    assert (Hf : f C = C).
    { symmetry. apply raised_antisym; [apply Fa|].
      rewrite <- Hfix at 2. apply Ga. }
    rewrite Hf in Hfix.
    rewrite (Fb C C' Hf Hr). now apply (Gb C C').
  - intros C.
    assert (Hf : f (g (f C)) = g (f C)).
    { apply (Fb (f C)); [apply Fc|apply Ga]. }
    rewrite Hf. apply Gc.
Qed.

Lemma steady_for_loop (body : Z -> LandscapeCollision -> LandscapeCollision) :
  (forall i, steady (body i)) ->
  forall n i0, steady (for_loop n i0 body).
Proof.
  intros Hb. induction n as [|n IH]; intros i0.
  - apply steady_id.
  - apply (steady_ext (fun C => for_loop n (i0 + 1) body (body i0 C))).
    + reflexivity.
    + apply steady_compose; [apply Hb|apply IH].
Qed.

Lemma steady_param {P : Type} (p : LandscapeCollision -> P)
    (h : P -> LandscapeCollision -> LandscapeCollision) :
  (forall C C', same_geometry C C' -> p C' = p C) ->
  (forall q, steady (h q)) ->
  steady (fun C => h (p C) C).
Proof.
  intros Hp Hh. split; [|split].
  - intros C. apply (Hh (p C)).
  - intros C C' Hfix Hr. rewrite (Hp C C') by apply Hr.
    now apply (proj1 (proj2 (Hh (p C))) C C').
  - intros C. rewrite (Hp C (h (p C) C)) by apply (Hh (p C)).
    apply (Hh (p C)).
Qed.

Lemma steady_raise_choice (q : option (Z * Z)) :
  steady (fun C => match q with
                   | Some (i, k) => raise i (saturate k) C
                   | None => C
                   end).
Proof.
  destruct q as [[i k]|]; [|apply steady_id].
  apply steady_raise, saturate_range.
Qed.

Ltac same_geom G :=
  let Ew := fresh in let Eh := fresh in
  let E1 := fresh in let E2 := fresh in let E3 := fresh in let E4 := fresh in
  destruct G as (Ew & Eh & E1 & E2 & E3 & E4 & _);
  unfold xCoord, zCoord, xPos, zPos;
  rewrite ?Ew, ?Eh, ?E1, ?E2, ?E3, ?E4.

Lemma steady_placeCircle_cell (x z rad2 dz : num) (zp xp : Z) :
  steady (placeCircle_cell x z rad2 dz zp xp).
Proof.
  pose (p := fun C : LandscapeCollision =>
       if u32 (width C) <=? u32 xp then None else
       let dx := (xPos C xp -d x) /d rad2 in
       let d := db 1 -d fsqrt Double (dx *d dx +d dz *d dz) in
       if fgt d (db 0)
       then Some (xp + zp * width C, to_int (d *d db 256))
       else None).
  pose (h := fun (q : option (Z * Z)) (C : LandscapeCollision) =>
       match q with
       | Some (i, k) => raise i (saturate k) C
       | None => C
       end).
  apply (steady_ext (fun C => h (p C) C)).
  - intros C. subst p h. unfold placeCircle_cell. cbv beta iota zeta.
    destruct (u32 (width C) <=? u32 xp); [reflexivity|].
    destruct (fgt _ _); reflexivity.
  - apply (steady_param p h).
    + intros C C' G. subst p. cbv beta. same_geom G. reflexivity.
    + intros q. apply steady_raise_choice.
Qed.

Lemma steady_placeCircle_row (x z rad2 : num) (xp0 xp1 zp : Z) :
  steady (fun C =>
            let dz := (zPos C zp -d z) /d rad2 in
            if u32 (height C) <=? u32 zp then C else
            for_loop (Z.to_nat (xp1 - xp0 + 1)) xp0
              (placeCircle_cell x z rad2 dz zp) C).
Proof.
  apply (steady_param
    (fun C => ((zPos C zp -d z) /d rad2, u32 (height C) <=? u32 zp))
    (fun q C =>
       if snd q then C else
       for_loop (Z.to_nat (xp1 - xp0 + 1)) xp0
         (placeCircle_cell x z rad2 (fst q) zp) C)).
  - intros C C' G. same_geom G. reflexivity.
  - intros [dz b]. simpl. destruct b; [apply steady_id|].
    apply steady_for_loop. intros xp. apply steady_placeCircle_cell.
Qed.

Lemma steady_placeCircle (x z rad : num) :
  steady (fun C => placeCircle C x z rad).
Proof.
  apply (steady_param
    (fun C => (xCoord C (x -d rad *d db 2), zCoord C (z -d rad *d db 2),
               xCoord C (x +d rad *d db 2), zCoord C (z +d rad *d db 2)))
    (fun q =>
       let '(xp0, zp0, xp1, zp1) := q in
       for_loop (Z.to_nat (zp1 - zp0 + 1)) zp0
         (fun zp C =>
            let dz := (zPos C zp -d z) /d (rad *d db 2) in
            if u32 (height C) <=? u32 zp then C else
            for_loop (Z.to_nat (xp1 - xp0 + 1)) xp0
              (placeCircle_cell x z (rad *d db 2) dz zp) C))).
  - intros C C' G. same_geom G. reflexivity.
  - intros [[[xp0 zp0] xp1] zp1]. apply steady_for_loop. intros zp.
    apply steady_placeCircle_row.
Qed.

(** Once a loop of steady steps is through, none of its steps has
    anything left to do. *)
Lemma for_loop_members_fix
    (body : Z -> LandscapeCollision -> LandscapeCollision) :
  (forall i, steady (body i)) ->
  forall n i0 C i, i0 <= i < i0 + Z.of_nat n ->
    body i (for_loop n i0 body C) = for_loop n i0 body C.
Proof.
  intros Hb. induction n as [|n IH]; intros i0 C i Hi; [lia|].
  cbn [for_loop].
  destruct (Z.eq_dec i i0) as [->|Hn].
  - destruct (Hb i0) as (_ & Fb & Fc).
    apply (Fb (body i0 C)); [apply Fc|].
    apply (steady_for_loop body Hb n (i0 + 1)).
  - apply IH. lia.
Qed.

(** A field that a loop of steady steps leaves as it is, is left as it is
    by each of the steps. *)
Lemma for_loop_fixed_point
    (body : Z -> LandscapeCollision -> LandscapeCollision) :
  (forall i, steady (body i)) ->
  forall n i0 C, for_loop n i0 body C = C ->
    forall i, i0 <= i < i0 + Z.of_nat n -> body i C = C.
Proof.
  intros Hb. induction n as [|n IH]; intros i0 C Hfix i Hi; [lia|].
  cbn [for_loop] in Hfix.
  assert (H0 : body i0 C = C).
  { symmetry. apply raised_antisym; [apply (Hb i0)|].
    rewrite <- Hfix at 2. apply (steady_for_loop body Hb n (i0 + 1)). }
  rewrite H0 in Hfix.
  destruct (Z.eq_dec i i0) as [->|Hn]; [exact H0|].
  apply (IH (i0 + 1) C Hfix). lia.
Qed.

Lemma raise_fixed_ge (i k : Z) (C : LandscapeCollision) :
  0 <= k <= 255 -> 0 <= i < Z.of_nat (length (data C)) ->
  raise i k C = C -> k <= rd (data C) i.
Proof.
  intros Hk Hi. unfold raise.
  destruct (rd (data C) i <? k) eqn:E.
  - intros Heq. apply (f_equal data) in Heq. cbn [data] in Heq.
    pose proof (rd_wr_same (data C) i (u8 k) Hi) as Hs.
    rewrite Heq in Hs. unfold u8 in Hs. rewrite Z.mod_small in Hs by lia.
    lia.
  - intros _. now apply Z.ltb_ge in E.
Qed.

(** After [placeCircle], the step of every cell of the box has nothing
    left to do. *)
Lemma placeCircle_cell_done (x z rad : num) (C : LandscapeCollision)
    (zp xp : Z) :
  let rad2 := rad *d db 2 in
  let C1 := placeCircle C x z rad in
  zCoord C (z -d rad2) <= zp <= zCoord C (z +d rad2) ->
  xCoord C (x -d rad2) <= xp <= xCoord C (x +d rad2) ->
  (u32 (height C) <=? u32 zp) = false ->
  placeCircle_cell x z rad2 ((zPos C zp -d z) /d rad2) zp xp C1 = C1.
Proof.
  intros rad2 C1 Hz Hx Hg.
  set (xp0 := xCoord C (x -d rad2)) in *.
  set (xp1 := xCoord C (x +d rad2)) in *.
  set (zp0 := zCoord C (z -d rad2)) in *.
  set (zp1 := zCoord C (z +d rad2)) in *.
  pose (row := fun zp C' =>
          let dz := (zPos C' zp -d z) /d rad2 in
          if u32 (height C') <=? u32 zp then C' else
          for_loop (Z.to_nat (xp1 - xp0 + 1)) xp0
            (placeCircle_cell x z rad2 dz zp) C').
  assert (HC1 : C1 = for_loop (Z.to_nat (zp1 - zp0 + 1)) zp0 row C)
    by reflexivity.
  assert (Hrow : row zp C1 = C1).
  { rewrite HC1. apply for_loop_members_fix; [|lia].
    intros i. apply steady_placeCircle_row. }
  assert (G : same_geometry C C1).
  { apply (proj1 (steady_placeCircle x z rad)). }
  unfold row in Hrow. cbv zeta in Hrow.
  assert (Eh : height C1 = height C) by apply G.
  assert (Ez : zPos C1 zp = zPos C zp).
  { destruct G as (Ew & Eh' & E1 & E2 & E3 & E4 & _).
    unfold zPos. now rewrite Eh', E3, E4. }
  rewrite Eh, Hg, Ez in Hrow.
  apply (for_loop_fixed_point
           (placeCircle_cell x z rad2 ((zPos C zp -d z) /d rad2) zp)
           (fun i => steady_placeCircle_cell x z rad2 _ zp i)
           _ _ _ Hrow).
  lia.
Qed.

Lemma steady_placeMask_cell (map : list Z) (w h : Z) (scale add : num)
    (x z : Z) :
  steady (placeMask_cell map w h scale add x z).
Proof.
  pose (p := fun C : LandscapeCollision =>
        let x3 := fl x *f fl w /f fl (width C) in
        let z3 := fl z *f fl h /f fl (height C) in
        let x2 := to_int (ffloor x3) in
        let z2 := to_int (ffloor z3) in
        let x4 := x3 -f fl x2 in
        let z4 := z3 -f fl z2 in
        let xn := if w <=? u32 (x2 + 1) then u32 (w - 1) else u32 (x2 + 1) in
        let zn := if h <=? u32 (z2 + 1) then u32 (h - 1) else u32 (z2 + 1) in
        let v__ := rd map (u32 (x2 + z2 * w)) in
        let vp_ := rd map (u32 (xn + z2 * w)) in
        let vpp := rd map (u32 (xn + zn * w)) in
        let v_p := rd map (u32 (x2 + zn * w)) in
        let top := (fl vp_ -f fl v__) *f x4 +f fl v__ in
        let bottom := (fl vpp -f fl v_p) *f x4 +f fl v_p in
        let t := (bottom -f top) *f z4 +f top in
        Some (x + z * width C, to_int (t *f scale +f add *f fl 256))).
  pose (g := fun (q : option (Z * Z)) (C : LandscapeCollision) =>
       match q with
       | Some (i, k) => raise i (saturate k) C
       | None => C
       end).
  apply (steady_ext (fun C => g (p C) C)).
  - intros C. reflexivity.
  - apply (steady_param p g).
    + intros C C' G. subst p. cbv beta. same_geom G. reflexivity.
    + intros q. apply steady_raise_choice.
Qed.

Lemma steady_placeMask (map : list Z) (w h : Z) (scale add : num) :
  steady (fun C => placeMask C map w h scale add).
Proof.
  apply (steady_param
    (fun C => (width C, height C))
    (fun q => for_zx (fst q) (snd q) (placeMask_cell map w h scale add))).
  - intros C C' G. same_geom G. reflexivity.
  - intros [cw ch]. unfold for_zx. simpl fst. simpl snd.
    apply steady_for_loop. intros zi.
    apply (steady_ext
             (for_loop (Z.to_nat cw) 0
                (fun xi => placeMask_cell map w h scale add xi zi)));
      [reflexivity|].
    apply steady_for_loop. intros xi. apply steady_placeMask_cell.
Qed.

(** X6: [placeCircle] only raises cells of the field, on the same grid;
    placing the same circle again changes nothing, also after other
    cells have been raised in between. *)
Theorem placeCircle_steady (x z rad : num) (C : LandscapeCollision) :
  let C1 := placeCircle C x z rad in
  raised C C1 /\
  forall C2, raised C1 C2 -> placeCircle C2 x z rad = C2.
Proof.
  intros C1. destruct (steady_placeCircle x z rad) as (Ha & Hb & Hc).
  split; [apply Ha|].
  intros C2 Hr. apply (Hb C1 C2); [apply Hc|exact Hr].
Qed.

(** X7: [placeMask] only raises cells of the field, on the same grid;
    placing the same mask again changes nothing, also after other cells
    have been raised in between. *)
Theorem placeMask_steady (map : list Z) (w h : Z) (scale add : num)
    (C : LandscapeCollision) :
  let C1 := placeMask C map w h scale add in
  raised C C1 /\
  forall C2, raised C1 C2 -> placeMask C2 map w h scale add = C2.
Proof.
  intros C1.
  destruct (steady_placeMask map w h scale add) as (Ha & Hb & Hc).
  split; [apply Ha|].
  intros C2 Hr. apply (Hb C1 C2); [apply Hc|exact Hr].
Qed.

Lemma collide_loop_free (C : LandscapeCollision)
    (x0 z0 xd zd d step : num) :
  forall fuel xp zp r,
    isPoint C xp zp = false ->
    collide_loop fuel C x0 z0 xd zd d step xp zp = Some r ->
    hit r = true ->
    isPoint C (xh r) (zh r) = false /\ r = hit_at C (xh r) (zh r).
Proof.
  induction fuel as [|fuel IH]; intros xp zp r Hfree Hr Hhit;
    [discriminate|].
  cbn [collide_loop] in Hr. cbv zeta in Hr.
  destruct (isPoint C (xp +d xd *d step) (zp +d zd *d step)) eqn:E.
  - destruct (fgt _ d); injection Hr as <-; simpl; now split.
  - destruct (fgt _ d).
    + injection Hr as <-. discriminate.
    + apply (IH _ _ r E Hr Hhit).
Qed.

(** X8: when [collideLine] reports a hit, the position it reports is not
    itself solid, the segment started at a free position, and the normal
    it reports is the field's normal at the reported position. *)
Theorem collideLine_hit_is_free (fuel : nat) (C : LandscapeCollision)
    (x0 z0 x1 z1 : num) (r : collision) :
  collideLine fuel C x0 z0 x1 z1 = Some r ->
  hit r = true ->
  isPoint C x0 z0 = false /\
  isPoint C (xh r) (zh r) = false /\
  (xn r, zn r) = normal C (xh r) (zh r).
Proof.
  unfold collideLine. intros Hr Hhit.
  destruct (isPoint C x0 z0) eqn:E0.
  - injection Hr as <-. discriminate.
  - split; [reflexivity|].
    destruct (flt _ _).
    + injection Hr as <-. discriminate.
    + destruct (collide_loop_free _ _ _ _ _ _ _ _ _ _ r E0 Hr Hhit)
        as [Hf Hn].
      split; [exact Hf|].
      pose proof (f_equal xn Hn) as Hx. pose proof (f_equal zn Hn) as Hz.
      unfold hit_at in Hx, Hz. cbn [xn zn] in Hx, Hz.
      rewrite Hx, Hz. now destruct (normal C (xh r) (zh r)).
Qed.

End Field.
End FieldFacts.


(** ** The view: delaunay and update *)

Section ViewFacts.
Context {A : Arith}.





End ViewFacts.


(** ** The object editor *)

Section EditorFacts.
Context {A : Arith}.
Variable qsort : qsort_fn.
Variable delaunator : delaunator_fn.

Lemma landscape_eq (L L' : Landscape) :
  scape L' = scape L -> same_ground L L' -> L' = L.
Proof.
  unfold same_ground. destruct L, L'. simpl.
  intros -> (-> & -> & -> & -> & -> & -> & -> & -> & -> & ->). reflexivity.
Qed.

Lemma object_of_pixel_ground (L L' : Landscape) (rgba : list Z) (w h : Z)
    (c : Z * Z) :
  same_ground L L' -> object_of_pixel L' rgba w h c = object_of_pixel L rgba w h c.
Proof.
  intros G. unfold object_of_pixel. f_equal. f_equal.
  apply landscape_eq; [reflexivity|].
  unfold same_ground in *. simpl. exact G.
Qed.

Lemma update_fresh (L : Landscape) (R R' : LandscapeRaw) (cam : Vector)
    (ds : num) :
  update qsort delaunator L R cam ds = update qsort delaunator L R' cam ds.
Proof. reflexivity. Qed.

Lemma filter_objects_out (l : list LandscapeElement) :
  Forall (fun e => In (e_type e) (map type_code [LANDSCAPE_TYPE_OBJECT])) l ->
  filter (fun e => negb (e_type e =? type_code LANDSCAPE_TYPE_OBJECT)) l = [].
Proof.
  induction 1 as [|e l He Hl IH]; [reflexivity|].
  simpl in *. destruct He as [<-|[]]. simpl. exact IH.
Qed.

Lemma filter_twice (f : LandscapeElement -> bool) (l : list LandscapeElement) :
  filter f (filter f l) = filter f l.
Proof.
  induction l as [|e l IH]; [reflexivity|].
  simpl. destruct (f e) eqn:E; simpl; rewrite ?E, IH; reflexivity.
Qed.

Lemma setObjects_adds (rgba : list Z) (w h : Z) (L : Landscape) :
  extends [LANDSCAPE_TYPE_OBJECT] L (setObjects rgba w h L) /\
  same_ground L (setObjects rgba w h L).
Proof.
  unfold setObjects.
  apply (for_zx_related
           (fun L L' => extends [LANDSCAPE_TYPE_OBJECT] L L' /\
                        same_ground L L'));
    [apply adds_refl|apply adds_trans|].
  intros x z L'. apply adds_setObjects_cell.
Qed.

Lemma refreshObjects_eq (E1 E2 : LandscapeEdit) :
  removeElementsWithType (ed_scape E1) (type_code LANDSCAPE_TYPE_OBJECT) =
    removeElementsWithType (ed_scape E2) (type_code LANDSCAPE_TYPE_OBJECT) ->
  objects E1 = objects E2 -> cameraPos E1 = cameraPos E2 ->
  details E1 = details E2 -> saved E1 = saved E2 ->
  refreshObjects qsort delaunator E1 = refreshObjects qsort delaunator E2.
Proof.
  intros H1 H2 H3 H4 H5. unfold refreshObjects. cbv zeta.
  rewrite H1, H2, H3, H4, H5. reflexivity.
Qed.

Lemma refreshObjects_spec (E : LandscapeEdit) :
  let E' := refreshObjects qsort delaunator E in
  let o := objects E in
  scape (ed_scape E') =
    filter (fun e => negb (e_type e =? type_code LANDSCAPE_TYPE_OBJECT))
      (scape (ed_scape E))
    ++ flat_map (object_of_pixel (ed_scape E) (img_data o) (img_width o)
                   (img_height o))
         (scan_cells (img_width o) (img_height o)) /\
  same_ground (ed_scape E) (ed_scape E') /\
  objects E' = objects E /\ saved E' = saved E /\
  refreshObjects qsort delaunator E' = E'.
Proof.
  intros E' o.
  set (t := type_code LANDSCAPE_TYPE_OBJECT).
  destruct (remove_filter_ground (ed_scape E) t) as [Hf Hg].
  set (L0 := removeElementsWithType (ed_scape E) t) in *.
  pose proof (setObjects_scan (img_data o) (img_width o) (img_height o) L0)
    as Hs.
  destruct (setObjects_adds (img_data o) (img_width o) (img_height o) L0)
    as [[suf [Hsuf Hobj]] Hg'].
  set (L1 := setObjects (img_data o) (img_width o) (img_height o) L0) in *.
  assert (HL : ed_scape E' = L1) by reflexivity.
  split; [|split; [|split; [|split]]].
  - rewrite HL, Hs, Hf. reflexivity.
  - rewrite HL. exact (same_ground_trans _ _ _ Hg Hg').
  - reflexivity.
  - reflexivity.
  - assert (H0 : removeElementsWithType L1 t = L0).
    { destruct (remove_filter_ground L1 t) as [Hf1 Hg1].
      apply landscape_eq.
      - rewrite Hf1, Hsuf, filter_app, Hf, filter_twice.
        subst t. rewrite (filter_objects_out suf Hobj). apply app_nil_r.
      - exact (same_ground_trans _ _ _ Hg' Hg1). }
    change (refreshObjects qsort delaunator E' =
            refreshObjects qsort delaunator E).
    apply refreshObjects_eq; try reflexivity. exact H0.
Qed.


Lemma unsigned_guard (w x : Z) :
  0 <= w < 2 ^ 31 -> - 2 ^ 31 <= x < 2 ^ 31 ->
  (u32 w <=? u32 x) = false <-> 0 <= x < w.
Proof.
  intros Hw Hx. rewrite (u32_small w) by lia. rewrite Z.leb_gt.
  destruct (Z_lt_ge_dec x 0) as [Hn|Hp].
  - rewrite (u32_neg x) by lia. lia.
  - rewrite (u32_small x) by lia. lia.
Qed.

Lemma rgba_of_red (r : Z) : 0 <= r < 2 ^ 32 -> rgba_of r 0 0 0 = r.
Proof.
  intros Hr. unfold rgba_of. rewrite !Z.shiftl_0_l. simpl Z.lor at 2.
  rewrite Z.lor_0_r. now apply u32_small.
Qed.



(** X10: [refreshObjects] keeps the elements that are not objects, in
    their order, and puts behind them the objects of the raster, pixel by
    pixel; the ground, the raster and the file are not touched, and a
    second refresh changes nothing. *)
Theorem refreshObjects_rebuilds (E : LandscapeEdit) :
  let E' := refreshObjects qsort delaunator E in
  let o := objects E in
  scape (ed_scape E') =
    filter (fun e => negb (e_type e =? type_code LANDSCAPE_TYPE_OBJECT))
      (scape (ed_scape E))
    ++ flat_map (object_of_pixel (ed_scape E) (img_data o) (img_width o)
                   (img_height o))
         (scan_cells (img_width o) (img_height o)) /\
  same_ground (ed_scape E) (ed_scape E') /\
  objects E' = objects E /\ saved E' = saved E /\
  refreshObjects qsort delaunator E' = E'.
Proof. apply refreshObjects_spec. Qed.


Lemma in_scan_cells (w h x z : Z) :
  0 <= x < w -> 0 <= z < h -> In (x, z) (scan_cells w h).
Proof.
  intros Hx Hz. unfold scan_cells. apply in_flat_map.
  exists (Z.to_nat z). split; [apply in_seq; lia|].
  apply in_map_iff. exists (Z.to_nat x).
  split; [f_equal; lia|apply in_seq; lia].
Qed.

Lemma land_63_range (i : Z) : 0 <= Z.land i 63 <= 63.
Proof.
  assert (H : Z.land i 63 = i mod 2 ^ 6)
    by (change 63 with (Z.ones 6); apply Z.land_ones; lia).
  rewrite H. pose proof (Z.mod_pos_bound i (2 ^ 6) ltac:(lia)). lia.
Qed.

Lemma land_255_small (p : Z) : 0 <= p < 256 -> Z.land p 255 = p.
Proof.
  intros Hp. change 255 with (Z.ones 8). rewrite Z.land_ones by lia.
  apply Z.mod_small. lia.
Qed.

(** X11: [placeObject] at a position outside the raster does nothing at
    all: no pixel is written, nothing is saved and the landscape is not
    refreshed. *)
Theorem placeObject_outside (E : LandscapeEdit) (pos : Vector) (objectId : Z) :
  0 <= img_width (objects E) < 2 ^ 31 ->
  0 <= img_height (objects E) < 2 ^ 31 ->
  ~ (0 <= pixel_x E pos < img_width (objects E) /\
     0 <= pixel_z E pos < img_height (objects E)) ->
  placeObject qsort delaunator E pos objectId = E.
Proof.
  intros Hw Hh Hout. unfold placeObject. cbv zeta.
  pose proof (to_int_range
    (to_single (vec_x pos -d minX (ed_scape E)) /f
     (maxX (ed_scape E) -f minX (ed_scape E)) *f fl (img_width (objects E))))
    as Hx.
  pose proof (to_int_range
    (to_single (vec_z pos -d minZ (ed_scape E)) /f
     (maxZ (ed_scape E) -f minZ (ed_scape E)) *f fl (img_height (objects E))))
    as Hz.
  fold (pixel_x E pos) in Hx. fold (pixel_z E pos) in Hz.
  unfold INT_MIN, INT_MAX in Hx, Hz.
  destruct (u32 (img_width (objects E)) <=? u32 (pixel_x E pos)) eqn:Ex;
    [reflexivity|].
  destruct (u32 (img_height (objects E)) <=? u32 (pixel_z E pos)) eqn:Ez;
    [reflexivity|].
  apply unsigned_guard in Ex; [|lia|lia].
  apply unsigned_guard in Ez; [|lia|lia].
  tauto.
Qed.

(** X12: [placeObject] at a position on the raster writes the pixel of the
    position, and only that one, saves the raster, and refreshes: the
    landscape then holds an object of type [objectId & 63] for this
    pixel, its parameters v1 and v2 zero.  An [objectId] that is a
    multiple of 64 leaves the pixel without an object. *)
Theorem placeObject_round_trip (E : LandscapeEdit) (pos : Vector)
    (objectId : Z) :
  let o := objects E in
  let w := img_width o in
  let h := img_height o in
  let px := pixel_x E pos in
  let pz := pixel_z E pos in
  w < 2 ^ 31 -> h < 2 ^ 31 ->
  0 <= px < w -> 0 <= pz < h ->
  length (img_data o) = Z.to_nat (w * h) ->
  let E' := placeObject qsort delaunator E pos objectId in
  let o' := objects E' in
  img_width o' = w /\ img_height o' = h /\
  rd (img_data o') (px + pz * w) = Z.land objectId 63 * 4 + 2 /\
  (forall i, i <> px + pz * w -> rd (img_data o') i = rd (img_data o) i) /\
  saved E' = o' :: saved E /\
  (Z.land objectId 63 = 0 ->
   object_of_pixel (ed_scape E') (img_data o') w h (px, pz) = []) /\
  (Z.land objectId 63 <> 0 ->
   exists e,
     object_of_pixel (ed_scape E') (img_data o') w h (px, pz) = [e] /\
     In e (scape (ed_scape E')) /\
     e_type e = type_code LANDSCAPE_TYPE_OBJECT /\
     e_v0 e = Z.land objectId 63 /\ e_v1 e = 0 /\ e_v2 e = 0).
Proof.
  intros o w h px pz Hw Hh Hpx Hpz Hlen E' o'.
  pose proof (land_63_range objectId) as Hid.
  set (r := Z.land objectId 63 * 4 + 2) in *.
  set (o1 := set_pixel o px pz (rgba_of r 0 0 0)).
  assert (HE : E' = refreshObjects qsort delaunator
                      (savePNG (set_objects E o1))).
  { subst E'. unfold placeObject. cbv zeta.
    fold o. fold w. fold h. fold px. fold pz.
    assert (Gx : (u32 w <=? u32 px) = false) by (apply unsigned_guard; lia).
    assert (Gz : (u32 h <=? u32 pz) = false) by (apply unsigned_guard; lia).
    rewrite Gx, Gz. reflexivity. }
  assert (Ho' : o' = o1) by (subst o'; rewrite HE; reflexivity).
  assert (Hr : rgba_of r 0 0 0 = r) by (apply rgba_of_red; lia).
  assert (Hpix : rd (img_data o1) (px + pz * w) = r).
  { subst o1. unfold set_pixel. cbn [img_data]. fold w. rewrite Hr.
    apply rd_wr_same. rewrite Hlen. rewrite Z2Nat.id by nia. nia. }
  assert (Hland : Z.land r 255 = r) by (apply land_255_small; lia).
  assert (Hsh : forall n, 8 <= n -> Z.land (Z.shiftr r n) 255 / 4 = 0).
  { intros n Hn. rewrite Z.shiftr_div_pow2 by lia.
    rewrite (Z.div_small r (2 ^ n)); [reflexivity|].
    assert (Hrr : 0 <= r < 256) by (subst r; lia).
    assert (Hp : 2 ^ 8 <= 2 ^ n) by (apply Z.pow_le_mono_r; lia).
    change (2 ^ 8) with 256 in Hp. clearbody r. lia. }
  rewrite Ho'.
  split; [reflexivity|]. split; [reflexivity|]. split; [exact Hpix|].
  split.
  { intros i Hi. subst o1. unfold set_pixel. cbn [img_data]. fold w.
    apply rd_wr_other. congruence. }
  split; [rewrite HE; cbn [saved refreshObjects savePNG set_objects objects];
          reflexivity|].
  destruct (object_of_pixel_decode (img_data o1) w h (ed_scape E') px pz)
    as [D0 D1].
  cbv zeta in D0, D1. rewrite Hpix, Hland in D0, D1.
  split.
  - intros H0. apply D0. subst r. lia.
  - intros Hn. destruct D1 as [e (He & Ht & H0 & H1 & H2 & _)];
      [subst r; lia|].
    exists e. split; [exact He|]. split.
    + destruct (refreshObjects_spec (savePNG (set_objects E o1)))
        as (Hs & _).
      cbv zeta in Hs. rewrite <- HE in Hs.
      cbn [objects savePNG set_objects ed_scape] in Hs.
      rewrite Hs. apply in_or_app. right. apply in_flat_map.
      exists (px, pz). split.
      * change (img_width o1) with w. change (img_height o1) with h.
        apply in_scan_cells; lia.
      * change (img_width o1) with w. change (img_height o1) with h.
        rewrite <- (object_of_pixel_ground (ed_scape E) (ed_scape E')).
        -- now rewrite He; left.
        -- destruct (refreshObjects_spec (savePNG (set_objects E o1)))
             as (_ & Hg & _).
           cbv zeta in Hg. rewrite <- HE in Hg. exact Hg.
    + split; [exact Ht|]. rewrite H0, H1, H2, !Hsh by lia.
      repeat split. subst r.
      rewrite Z.add_comm, Z.div_add by lia. reflexivity.
Qed.



(** *** rotateObjectY *)

Lemma byte_bits_high (r n : Z) : 0 <= r < 256 -> 8 <= n -> Z.testbit r n = false.
Proof.
  intros Hr Hn. destruct (Z.eq_dec r 0) as [->|Hz]; [apply Z.bits_0|].
  apply Z.bits_above_log2; [lia|].
  assert (Z.log2 r < 8) by (apply Z.log2_lt_pow2; lia). lia.
Qed.

Lemma rgba_of_bits (r g b a n : Z) :
  0 <= n ->
  Z.testbit (rgba_of r g b a) n =
    if n <? 32
    then Z.testbit r n || (Z.testbit g (n - 8) ||
           (Z.testbit b (n - 16) || Z.testbit a (n - 24)))
    else false.
Proof.
  intros Hn. unfold rgba_of, u32.
  destruct (n <? 32) eqn:E.
  - apply Z.ltb_lt in E. rewrite Z.mod_pow2_bits_low by lia.
    rewrite !Z.lor_spec, !Z.shiftl_spec by lia. reflexivity.
  - apply Z.ltb_ge in E. apply Z.mod_pow2_bits_high. lia.
Qed.

Lemma land_255_bits (x n : Z) :
  0 <= n -> Z.testbit (Z.land x 255) n = Z.testbit x n && (n <? 8).
Proof.
  intros Hn. rewrite Z.land_spec. f_equal.
  change 255 with (Z.ones 8). apply Z.testbit_ones_nonneg; lia.
Qed.

(** The red channel of an assembled pixel is the red value, the green
    channel the green value. *)
Lemma rgba_of_red_channel (r g b a : Z) :
  0 <= r < 256 -> Z.land (rgba_of r g b a) 255 = r.
Proof.
  intros Hr. apply Z.bits_inj'. intros n Hn.
  rewrite land_255_bits, rgba_of_bits by lia.
  destruct (n <? 8) eqn:E8.
  - apply Z.ltb_lt in E8.
    assert (E32 : (n <? 32) = true) by (apply Z.ltb_lt; lia).
    rewrite E32, !(Z.testbit_neg_r _ (n - 8)), !(Z.testbit_neg_r _ (n - 16)),
      !(Z.testbit_neg_r _ (n - 24)) by lia.
    now rewrite !orb_false_r, andb_true_r.
  - apply Z.ltb_ge in E8. rewrite andb_false_r.
    symmetry. apply byte_bits_high; lia.
Qed.

Lemma rgba_of_green_channel (r g b a : Z) :
  0 <= r < 256 -> 0 <= g < 256 ->
  Z.land (Z.shiftr (rgba_of r g b a) 8) 255 = g.
Proof.
  intros Hr Hg. apply Z.bits_inj'. intros n Hn.
  rewrite land_255_bits, Z.shiftr_spec, rgba_of_bits by lia.
  destruct (n <? 8) eqn:E8.
  - apply Z.ltb_lt in E8.
    assert (E32 : (n + 8 <? 32) = true) by (apply Z.ltb_lt; lia).
    rewrite E32, (byte_bits_high r (n + 8)) by lia.
    rewrite !(Z.testbit_neg_r _ (n + 8 - 16)), !(Z.testbit_neg_r _ (n + 8 - 24))
      by lia.
    replace (n + 8 - 8) with n by lia.
    now rewrite !orb_false_r, andb_true_r.
  - apply Z.ltb_ge in E8. rewrite andb_false_r.
    symmetry. apply byte_bits_high; lia.
Qed.

Lemma turned_channels (rotation p : Z) :
  0 <= rotation <= 63 -> Z.land p 255 <> 0 ->
  Z.land (turned rotation p) 255 = Z.land p 255 /\
  Z.land (Z.shiftr (turned rotation p) 8) 255 = rotation * 4 + 2.
Proof.
  intros Hr Hp. unfold turned. cbv zeta.
  destruct (Z.land p 255 =? 0) eqn:E; [apply Z.eqb_eq in E; contradiction|].
  cbn [negb]. pose proof (land_255_range p) as Hb. split.
  - apply rgba_of_red_channel. lia.
  - apply rgba_of_green_channel; lia.
Qed.

Lemma rotateObjectY_cell_spec (rotation x z : Z) (o : RGBAImage) (sm : bool) :
  0 <= img_width o < 2 ^ 31 -> 0 <= img_height o < 2 ^ 31 ->
  - 2 ^ 31 <= x < 2 ^ 31 -> - 2 ^ 31 <= z < 2 ^ 31 ->
  length (img_data o) = Z.to_nat (img_width o * img_height o) ->
  let st' := rotateObjectY_cell rotation x z (o, sm) in
  let w := img_width o in
  let h := img_height o in
  img_width (fst st') = w /\ img_height (fst st') = h /\
  length (img_data (fst st')) = length (img_data o) /\
  (forall a b, 0 <= a < w -> 0 <= b < h ->
     (a = x /\ b = z ->
      rd (img_data (fst st')) (a + b * w) =
        turned rotation (rd (img_data o) (a + b * w))) /\
     (~ (a = x /\ b = z) ->
      rd (img_data (fst st')) (a + b * w) = rd (img_data o) (a + b * w))) /\
  (snd st' = true <->
   sm = true \/
   (0 <= x < w /\ 0 <= z < h /\ Z.land (rd (img_data o) (x + z * w)) 255 <> 0)) /\
  (snd st' = false -> fst st' = o).
Proof.
  intros Hw Hh Hx Hz Hlen st' w h. subst st'. unfold rotateObjectY_cell.
  fold w. fold h.
  assert (Skip : ~ (0 <= x < w /\ 0 <= z < h /\
                    Z.land (rd (img_data o) (x + z * w)) 255 <> 0) ->
            img_width o = w /\ img_height o = h /\
            length (img_data o) = length (img_data o) /\
            (forall a b, 0 <= a < w -> 0 <= b < h ->
               (a = x /\ b = z ->
                rd (img_data o) (a + b * w) =
                  turned rotation (rd (img_data o) (a + b * w))) /\
               (~ (a = x /\ b = z) ->
                rd (img_data o) (a + b * w) = rd (img_data o) (a + b * w))) /\
            (sm = true <->
             sm = true \/
             (0 <= x < w /\ 0 <= z < h /\
              Z.land (rd (img_data o) (x + z * w)) 255 <> 0)) /\
            (sm = false -> o = o)).
  { intros Hout. split; [reflexivity|]. split; [reflexivity|].
    split; [reflexivity|]. split; [|split].
    - intros a b Ha Hb. split; [|reflexivity]. intros [-> ->].
      unfold turned. cbv zeta.
      destruct (Z.land (rd (img_data o) (x + z * w)) 255 =? 0) eqn:E0;
        [reflexivity|]. apply Z.eqb_neq in E0. tauto.
    - split; [now left|]. intros [H|H]; [exact H|tauto].
    - reflexivity. }
  destruct (u32 w <=? u32 x) eqn:Gx.
  { cbn [fst snd]. apply Skip. intros [H _].
    apply (unsigned_guard w x) in H; [congruence|lia|lia]. }
  destruct (u32 h <=? u32 z) eqn:Gz.
  { cbn [fst snd]. apply Skip. intros (_ & H & _).
    apply (unsigned_guard h z) in H; [congruence|lia|lia]. }
  apply unsigned_guard in Gx; [|lia|lia].
  apply unsigned_guard in Gz; [|lia|lia].
  cbv zeta.
  destruct (Z.land (rd (img_data o) (x + z * w)) 255 =? 0) eqn:Er; cbn [negb].
  - apply Z.eqb_eq in Er. cbn [fst snd]. apply Skip. tauto.
  - apply Z.eqb_neq in Er. cbn [fst snd set_pixel img_width img_height img_data].
    fold w. split; [reflexivity|]. split; [reflexivity|].
    split; [apply length_wr|]. split; [|split].
    + intros a b Ha Hb. split.
      * intros [-> ->]. rewrite rd_wr_same.
        -- unfold turned. cbv zeta.
           destruct (Z.land (rd (img_data o) (x + z * w)) 255 =? 0) eqn:E2;
             [apply Z.eqb_eq in E2; contradiction|reflexivity].
        -- rewrite Hlen. fold w. fold h. rewrite Z2Nat.id by nia. nia.
      * intros Hne. apply rd_wr_other. intros E.
        apply Hne. symmetry in E. now apply (cell_index_unique w).
    + split; [intros _; right; tauto|reflexivity].
    + discriminate.
Qed.

Lemma for_box_turns (rotation px pz : Z) (o : RGBAImage) :
  0 <= img_width o < 2 ^ 31 -> 0 <= img_height o < 2 ^ 31 ->
  INT_MIN + 2 <= px <= INT_MAX - 2 -> INT_MIN + 2 <= pz <= INT_MAX - 2 ->
  length (img_data o) = Z.to_nat (img_width o * img_height o) ->
  let st' := for_box px pz (rotateObjectY_cell rotation) (o, false) in
  let w := img_width o in
  let h := img_height o in
  img_width (fst st') = w /\ img_height (fst st') = h /\
  (forall a b, 0 <= a < w -> 0 <= b < h ->
     (px - 2 <= a <= px + 2 /\ pz - 2 <= b <= pz + 2 ->
      rd (img_data (fst st')) (a + b * w) =
        turned rotation (rd (img_data o) (a + b * w))) /\
     (~ (px - 2 <= a <= px + 2 /\ pz - 2 <= b <= pz + 2) ->
      rd (img_data (fst st')) (a + b * w) = rd (img_data o) (a + b * w))) /\
  (snd st' = true ->
   exists a b, 0 <= a < w /\ 0 <= b < h /\
     (px - 2 <= a <= px + 2 /\ pz - 2 <= b <= pz + 2) /\
     Z.land (rd (img_data o) (a + b * w)) 255 <> 0) /\
  (snd st' = false ->
   fst st' = o /\
   forall a b, 0 <= a < w -> 0 <= b < h ->
     px - 2 <= a <= px + 2 /\ pz - 2 <= b <= pz + 2 ->
     Z.land (rd (img_data o) (a + b * w)) 255 = 0).
Proof.
  intros Hw Hh Hpx Hpz Hlen. unfold INT_MIN, INT_MAX in Hpx, Hpz.
  unfold for_box. cbv zeta. rewrite !i32_small by lia.
  change (Z.to_nat (2 + 2 + 1)) with 5%nat.
  set (w := img_width o) in *. set (h := img_height o) in *.
  (* [V] tells which cells have been visited. *)
  pose (Inv := fun (V : Z -> Z -> Prop) (st : RGBAImage * bool) =>
    img_width (fst st) = w /\ img_height (fst st) = h /\
    length (img_data (fst st)) = length (img_data o) /\
    (forall a b, 0 <= a < w -> 0 <= b < h ->
       (V a b -> rd (img_data (fst st)) (a + b * w) =
                   turned rotation (rd (img_data o) (a + b * w))) /\
       (~ V a b -> rd (img_data (fst st)) (a + b * w) =
                     rd (img_data o) (a + b * w))) /\
    (snd st = true ->
     exists a b, 0 <= a < w /\ 0 <= b < h /\ V a b /\
       Z.land (rd (img_data o) (a + b * w)) 255 <> 0) /\
    (snd st = false ->
     fst st = o /\
     forall a b, 0 <= a < w -> 0 <= b < h -> V a b ->
       Z.land (rd (img_data o) (a + b * w)) 255 = 0)).
  assert (Step : forall (V : Z -> Z -> Prop) x z st,
            - 2 ^ 31 <= x < 2 ^ 31 -> - 2 ^ 31 <= z < 2 ^ 31 ->
            ~ V x z -> Inv V st ->
            Inv (fun a b => V a b \/ (a = x /\ b = z))
              (rotateObjectY_cell rotation x z st)).
  { intros V x z [s sm] Hx Hz Hnew (Iw & Ih & Il & Ip & It & If).
    cbn [fst snd] in *.
    assert (Hls : length (img_data s) = Z.to_nat (img_width s * img_height s))
      by (rewrite Il, Iw, Ih; exact Hlen).
    destruct (rotateObjectY_cell_spec rotation x z s sm) as
      (Cw & Ch & Cl & Cp & Ct & Cf); try lia.
    cbv zeta in Cw, Ch, Cl, Cp, Ct, Cf. rewrite Iw, Ih in *.
    assert (Hold : 0 <= x < w -> 0 <= z < h ->
              rd (img_data s) (x + z * w) = rd (img_data o) (x + z * w)).
    { intros Hxw Hzh. now apply (proj2 (Ip x z Hxw Hzh)). }
    unfold Inv. split; [exact Cw|]. split; [exact Ch|].
    split; [congruence|]. split; [|split].
    - intros a b Ha Hb. destruct (Cp a b Ha Hb) as [C1 C2].
      destruct (Ip a b Ha Hb) as [P1 P2]. split.
      + intros [Hv|[-> ->]].
        * rewrite C2; [now apply P1|]. intros [-> ->]. contradiction.
        * rewrite C1 by tauto. now rewrite Hold.
      + intros Hn. rewrite C2 by tauto. apply P2. tauto.
    - intros Htrue. apply Ct in Htrue. destruct Htrue as [Hsm|(Hxw & Hzh & Hr)].
      + destruct (It Hsm) as (a & b & Ha & Hb & Hv & Hr).
        exists a, b. tauto.
      + exists x, z. rewrite <- Hold by assumption. tauto.
    - intros Hfalse.
      assert (Hsm : sm = false).
      { destruct sm; [|reflexivity].
        assert (snd (rotateObjectY_cell rotation x z (s, true)) = true)
          by (apply Ct; now left). congruence. }
      destruct (If Hsm) as [Es Hz0]. split.
      + rewrite (Cf Hfalse). exact Es.
      + intros a b Ha Hb [Hv|[-> ->]]; [now apply Hz0|].
        destruct (Z.eq_dec (Z.land (rd (img_data o) (x + z * w)) 255) 0)
          as [E|E]; [exact E|].
        assert (snd (rotateObjectY_cell rotation x z (s, sm)) = true).
        { apply Ct. right. rewrite Hold by assumption. tauto. }
        congruence. }
  assert (Weaken : forall (V V' : Z -> Z -> Prop) st,
            (forall a b, V a b <-> V' a b) -> Inv V st -> Inv V' st).
  { intros V V' st HV (Iw & Ih & Il & Ip & It & If). unfold Inv.
    split; [exact Iw|]. split; [exact Ih|]. split; [exact Il|].
    split; [|split].
    - intros a b Ha Hb. destruct (Ip a b Ha Hb) as [P1 P2].
      split; intros H; [apply P1|apply P2]; now rewrite HV.
    - intros Ht. destruct (It Ht) as (a & b & Ha & Hb & Hv & Hr).
      exists a, b. rewrite <- HV. tauto.
    - intros Hf. destruct (If Hf) as [Es Hz0]. split; [exact Es|].
      intros a b Ha Hb Hv. apply Hz0; auto. now rewrite HV. }
  assert (HI : Inv (fun a b => px - 2 <= a <= px + 2 /\
                               pz - 2 <= b < - 2 + pz + Z.of_nat 5)
                 (for_loop 5 (-2 + pz)
                    (fun z s => for_loop 5 (-2 + px)
                       (fun x s => rotateObjectY_cell rotation x z s) s)
                    (o, false))).
  { apply (for_loop_index
             (fun z st => Inv (fun a b => px - 2 <= a <= px + 2 /\
                                          pz - 2 <= b < z) st)).
    - intros z st Hz HIz.
      apply (Weaken (fun a b => (px - 2 <= a <= px + 2 /\ pz - 2 <= b < z) \/
                                (- 2 + px <= a < - 2 + px + Z.of_nat 5 /\ b = z)));
        [intros a b; lia|].
      apply (for_loop_index
               (fun x st => Inv (fun a b =>
                  (px - 2 <= a <= px + 2 /\ pz - 2 <= b < z) \/
                  (- 2 + px <= a < x /\ b = z)) st)).
      + intros x st' Hx HJ.
        apply (Weaken (fun a b =>
                 ((px - 2 <= a <= px + 2 /\ pz - 2 <= b < z) \/
                  (- 2 + px <= a < x /\ b = z)) \/ (a = x /\ b = z)));
          [intros a b; lia|].
        apply Step; [lia|lia|lia|exact HJ].
      + apply (Weaken (fun a b => px - 2 <= a <= px + 2 /\ pz - 2 <= b < z));
          [intros a b; lia|exact HIz].
    - unfold Inv. cbn [fst snd].
      split; [reflexivity|]. split; [reflexivity|]. split; [reflexivity|].
      split; [|split].
      + intros a b Ha Hb. split; [lia|reflexivity].
      + discriminate.
      + intros _. split; [reflexivity|]. intros a b Ha Hb Hv. lia. }
  apply (Weaken _ (fun a b => px - 2 <= a <= px + 2 /\ pz - 2 <= b <= pz + 2))
    in HI; [|intros a b; lia].
  destruct HI as (Iw & Ih & Il & Ip & It & If).
  split; [exact Iw|]. split; [exact Ih|]. split; [exact Ip|].
  split; [exact It|exact If].
Qed.

(** X24: [rotateObjectY] turns every object of the raster that lies in
    the box of 5 by 5 pixels around the position: the pixel keeps its red
    channel, so the object its type, and its green channel becomes
    [rotation*4+2], so the parameter v1 the rotation; all other pixels
    stay as they are.  When the box holds no object, nothing is written,
    saved or refreshed; otherwise the raster is saved once. *)
Theorem rotateObjectY_turns (E : LandscapeEdit) (pos : Vector) (rotation : Z) :
  let o := objects E in
  let w := img_width o in
  let h := img_height o in
  let px := pixel_x E pos in
  let pz := pixel_z E pos in
  0 <= w < 2 ^ 31 -> 0 <= h < 2 ^ 31 ->
  INT_MIN + 2 <= px <= INT_MAX - 2 -> INT_MIN + 2 <= pz <= INT_MAX - 2 ->
  length (img_data o) = Z.to_nat (w * h) ->
  0 <= rotation <= 63 ->
  let E' := rotateObjectY qsort delaunator E pos rotation in
  let o' := objects E' in
  img_width o' = w /\ img_height o' = h /\
  (forall a b, 0 <= a < w -> 0 <= b < h ->
     let p := rd (img_data o) (a + b * w) in
     let p' := rd (img_data o') (a + b * w) in
     (px - 2 <= a <= px + 2 /\ pz - 2 <= b <= pz + 2 -> Z.land p 255 <> 0 ->
      p' = turned rotation p /\ Z.land p' 255 = Z.land p 255 /\
      Z.land (Z.shiftr p' 8) 255 / 4 = rotation) /\
     (~ (px - 2 <= a <= px + 2 /\ pz - 2 <= b <= pz + 2) \/ Z.land p 255 = 0 ->
      p' = p)) /\
  ((forall a b, 0 <= a < w -> 0 <= b < h ->
      px - 2 <= a <= px + 2 /\ pz - 2 <= b <= pz + 2 ->
      Z.land (rd (img_data o) (a + b * w)) 255 = 0) ->
   E' = E) /\
  ((exists a b, 0 <= a < w /\ 0 <= b < h /\
      (px - 2 <= a <= px + 2 /\ pz - 2 <= b <= pz + 2) /\
      Z.land (rd (img_data o) (a + b * w)) 255 <> 0) ->
   saved E' = o' :: saved E).
Proof.
  intros o w h px pz Hw Hh Hpx Hpz Hlen Hrot E' o'.
  destruct (for_box_turns rotation px pz o Hw Hh Hpx Hpz Hlen)
    as (Bw & Bh & Bp & Bt & Bf).
  cbv zeta in Bw, Bh, Bp, Bt, Bf. fold w in Bw, Bp, Bt, Bf. fold h in Bh, Bp, Bt, Bf.
  assert (HE : E' =
            let st := for_box px pz (rotateObjectY_cell rotation) (o, false) in
            if snd st
            then refreshObjects qsort delaunator (savePNG (set_objects E (fst st)))
            else set_objects E (fst st)).
  { subst E'. unfold rotateObjectY. cbv zeta. fold o. fold px. fold pz.
    now destruct (for_box px pz (rotateObjectY_cell rotation) (o, false)). }
  cbv zeta in HE.
  set (st := for_box px pz (rotateObjectY_cell rotation) (o, false)) in *.
  assert (Ho' : o' = fst st).
  { subst o'. rewrite HE. now destruct (snd st). }
  rewrite Ho'.
  split; [exact Bw|]. split; [exact Bh|]. split; [|split].
  - intros a b Ha Hb. destruct (Bp a b Ha Hb) as [B1 B2]. cbv zeta. split.
    + intros Hbox Hred. rewrite (B1 Hbox).
      destruct (turned_channels rotation (rd (img_data o) (a + b * w)) Hrot Hred)
        as [T1 T2].
      split; [reflexivity|]. split; [exact T1|].
      rewrite T2. rewrite Z.add_comm, Z.div_add by lia. reflexivity.
    + intros [Hout|Hred]; [now apply B2|].
      destruct (Z_le_dec (px - 2) a), (Z_le_dec a (px + 2)),
        (Z_le_dec (pz - 2) b), (Z_le_dec b (pz + 2));
        try (apply B2; lia).
      rewrite B1 by lia. unfold turned. cbv zeta.
      rewrite Hred. reflexivity.
  - intros Hnone. rewrite HE.
    destruct (snd st) eqn:Es.
    + destruct (Bt eq_refl) as (a & b & Ha & Hb & Hbox & Hr).
      exfalso. apply Hr. now apply Hnone.
    + destruct (Bf eq_refl) as [Eo _]. rewrite Eo. now destruct E.
  - intros (a & b & Ha & Hb & Hbox & Hr). rewrite HE.
    destruct (snd st) eqn:Es; [reflexivity|].
    destruct (Bf eq_refl) as [_ Hz0]. exfalso. apply Hr. now apply Hz0.
Qed.

End EditorFacts.


(** ** getHeight clamps the position *)

Section Clamping.
Context {A : Arith}.
Hypothesis flt_irrefl : forall a : num, flt a a = false.

Lemma upper_clamp (lo hi : num) :
  (if fgt (if flt hi lo then lo else hi) hi
   then hi else if flt hi lo then lo else hi) = hi.
Proof.
  destruct (flt hi lo) eqn:E; unfold fgt.
  - now rewrite E.
  - now rewrite flt_irrefl.
Qed.

Lemma getHeight_clamped (L : Landscape) (x z : num) (xa za : Z) :
  (flt x (minX L) = true ->
   getHeight L x z xa za = getHeight L (minX L) z xa za) /\
  (flt x (minX L) = false -> fgt x (maxX L -f lit Single 1 1000) = true ->
   getHeight L x z xa za = getHeight L (maxX L -f lit Single 1 1000) z xa za) /\
  (flt z (minZ L) = true ->
   getHeight L x z xa za = getHeight L x (minZ L) xa za) /\
  (flt z (minZ L) = false -> fgt z (maxZ L -f lit Single 1 1000) = true ->
   getHeight L x z xa za = getHeight L x (maxZ L -f lit Single 1 1000) xa za).
Proof.
  split; [|split; [|split]].
  - intros H. unfold getHeight. cbv zeta. rewrite H, flt_irrefl. reflexivity.
  - intros H1 H2. unfold getHeight. cbv zeta. rewrite H1, H2.
    rewrite (upper_clamp (minX L) (maxX L -f lit Single 1 1000)). reflexivity.
  - intros H. unfold getHeight. cbv zeta. rewrite H, flt_irrefl. reflexivity.
  - intros H1 H2. unfold getHeight. cbv zeta. rewrite H1, H2.
    rewrite (upper_clamp (minZ L) (maxZ L -f lit Single 1 1000)). reflexivity.
Qed.

End Clamping.


(** ** boxBlur with a kernel of one cell, and of none *)

Section Blur.
Import Coll.
Context {A : Arith}.

(** The mean of one byte is the byte; the mean of nothing is zero. *)
Hypothesis mean_of_one : forall b, 0 <= b <= 255 ->
  u8 (to_int (if negb (feq (fl 0 +f fl 1) (fl 0))
              then (fl 0 +f fl b) /f (fl 0 +f fl 1)
              else fl 0 +f fl b)) = b.
Hypothesis mean_of_none :
  u8 (to_int (if negb (feq (fl 0) (fl 0)) then fl 0 /f fl 0 else fl 0)) = 0.

Lemma boxBlur_one_cell (C : LandscapeCollision) :
  0 <= width C <= INT_MAX -> 0 <= height C <= INT_MAX ->
  (forall i, 0 <= rd (data C) i <= 255) ->
  boxBlur C 0 = C.
Proof.
  unfold INT_MAX. intros Hw Hh Hb. unfold boxBlur. cbv zeta.
  apply (for_zx_keeps (fun C' => C' = C)); [|reflexivity].
  intros x z C' Hx Hz ->. unfold boxBlur_cell. cbv zeta.
  change (Z.to_nat (0 + 0 + 1)) with 1%nat. cbn [for_loop].
  change (- 0 + z) with z. change (- 0 + x) with x.
  rewrite !i32_small by lia. rewrite !u32_small by lia.
  assert (Gx : (x <? width C) = true) by (apply Z.ltb_lt; lia).
  assert (Gz : (z <? height C) = true) by (apply Z.ltb_lt; lia).
  rewrite Gx, Gz. cbn [andb].
  rewrite mean_of_one by apply Hb.
  rewrite wr_rd. now destruct C.
Qed.

Lemma boxBlur_cell_none (old : list Z) (b x y : Z) (C : LandscapeCollision) :
  b < 0 ->
  boxBlur_cell old b x y C =
    mkCollision (wr (data C) (x + y * width C) 0) (width C) (height C)
      (minX C) (maxX C) (minZ C) (maxZ C).
Proof.
  intros Hb. unfold boxBlur_cell. cbv zeta.
  replace (Z.to_nat (b + b + 1)) with 0%nat by lia. cbn [for_loop].
  now rewrite mean_of_none.
Qed.

Lemma boxBlur_no_cell (C : LandscapeCollision) (b : Z) :
  b < 0 ->
  same_geometry C (boxBlur C b) /\
  forall x z, 0 <= x < width C -> 0 <= z < height C ->
    rd (data (boxBlur C b)) (x + z * width C) = 0.
Proof.
  intros Hb. unfold boxBlur. cbv zeta. unfold for_zx.
  set (w := width C). set (h := height C).
  pose (I := fun (r : Z) (s : LandscapeCollision) =>
    same_geometry C s /\
    forall x z, 0 <= x < w -> 0 <= z < r ->
      rd (data s) (x + z * w) = 0).
  assert (HI : I (0 + Z.of_nat (Z.to_nat h))
    (for_loop (Z.to_nat h) 0
       (fun z s => for_loop (Z.to_nat w) 0
                     (fun x s => boxBlur_cell (data C) b x z s) s) C)).
  { apply (for_loop_index I).
    - intros r s Hr [Gs Zs].
      pose (J := fun (c : Z) (s' : LandscapeCollision) =>
        same_geometry C s' /\
        forall x z, 0 <= x < w -> (0 <= z < r \/ z = r /\ 0 <= x < c) ->
          rd (data s') (x + z * w) = 0).
      assert (HJ : J (0 + Z.of_nat (Z.to_nat w))
        (for_loop (Z.to_nat w) 0 (fun x s => boxBlur_cell (data C) b x r s) s)).
      { apply (for_loop_index J).
        - intros c s' Hc [Gs' Zs'].
          rewrite boxBlur_cell_none by exact Hb.
          assert (Ew : width s' = w) by apply Gs'.
          split.
          + unfold same_geometry in *. cbn [width height minX maxX minZ maxZ data].
            rewrite length_wr. exact Gs'.
          + rewrite Ew. intros x z Hx Hz. cbn [data].
            destruct (Z.eq_dec (c + r * w) (x + z * w)) as [E|N].
            * rewrite <- E. apply rd_wr_zero.
            * rewrite rd_wr_other by exact N.
              apply Zs'; [exact Hx|].
              destruct Hz as [Hz|[-> Hxc]]; [now left|].
              right. split; [reflexivity|].
              assert (x <> c) by (intros ->; now apply N). lia.
        - split; [exact Gs|]. intros x z Hx [Hz|[_ Hxc]]; [|lia].
          now apply Zs. }
      destruct HJ as [Gj Zj]. split; [exact Gj|].
      intros x z Hx Hz. apply Zj; [exact Hx|].
      destruct (Z.eq_dec z r) as [->|Hn]; [right; split; [reflexivity|lia]|].
      left. lia.
    - split; [apply FieldFacts.same_geometry_refl|]. intros x z _ Hz. lia. }
  destruct HI as [Gi Zi]. split; [exact Gi|].
  intros x z Hx Hz. apply Zi; [exact Hx|lia].
Qed.

End Blur.

(** ** Further properties in IEEE arithmetic *)

Module RunMore.
Import Scenario.
#[local] Existing Instance IEEE.ieee_arith.

Lemma SFcompare_refl (b : spec_float) :
  SFcompare b b = Some Eq \/ SFcompare b b = None.
Proof.
  destruct b as [s|s| |s m e]; simpl.
  - now left.
  - left. now destruct s.
  - now right.
  - left. destruct s; rewrite Z.compare_refl, Pos.compare_cont_refl;
      reflexivity.
Qed.

Lemma ltb_irrefl (a : spec_float) : IEEE.ltb a a = false.
Proof.
  unfold IEEE.ltb, IEEE.cmp.
  destruct (SFcompare_refl (IEEE.norm Double a)) as [-> | ->]; reflexivity.
Qed.

(** X19: in IEEE arithmetic, [getHeight] clamps the position to the map:
    left of [minX] it gives what it gives at [minX], and beyond
    [maxX - 0.001] what it gives there; likewise in z. *)
Theorem getHeight_clamps (L : Landscape) (x z : spec_float) (xa za : Z) :
  (flt x (minX L) = true ->
   getHeight L x z xa za = getHeight L (minX L) z xa za) /\
  (flt x (minX L) = false -> fgt x (maxX L -f lit Single 1 1000) = true ->
   getHeight L x z xa za = getHeight L (maxX L -f lit Single 1 1000) z xa za) /\
  (flt z (minZ L) = true ->
   getHeight L x z xa za = getHeight L x (minZ L) xa za) /\
  (flt z (minZ L) = false -> fgt z (maxZ L -f lit Single 1 1000) = true ->
   getHeight L x z xa za = getHeight L x (maxZ L -f lit Single 1 1000) xa za).
Proof. exact (getHeight_clamped ltb_irrefl L x z xa za). Qed.


Lemma mean_of_one_byte (b : Z) : 0 <= b <= 255 ->
  u8 (to_int (if negb (feq (fl 0 +f fl 1) (fl 0))
              then (fl 0 +f fl b) /f (fl 0 +f fl 1)
              else fl 0 +f fl b)) = b.
Proof.
  intros Hb.
  assert (Hall : forallb
            (fun b => u8 (to_int (if negb (feq (fl 0 +f fl 1) (fl 0))
                                  then (fl 0 +f fl b) /f (fl 0 +f fl 1)
                                  else fl 0 +f fl b)) =? b)
            (upto 256) = true) by (vm_compute; reflexivity).
  rewrite forallb_forall in Hall.
  apply Z.eqb_eq. apply Hall. apply In_upto. simpl. lia.
Qed.

(** X20: in IEEE arithmetic, [boxBlur] with box size 0 leaves a field of
    bytes as it is, and with a negative box size it sets every cell to
    zero. *)
Theorem boxBlur_small_boxes (C : Coll.LandscapeCollision) :
  (0 <= Coll.width C <= INT_MAX -> 0 <= Coll.height C <= INT_MAX ->
   (forall i, 0 <= rd (Coll.data C) i <= 255) ->
   Coll.boxBlur C 0 = C) /\
  (forall b, b < 0 ->
   Coll.same_geometry C (Coll.boxBlur C b) /\
   forall x z, 0 <= x < Coll.width C -> 0 <= z < Coll.height C ->
     rd (Coll.data (Coll.boxBlur C b)) (x + z * Coll.width C) = 0).
Proof.
  split.
  - exact (boxBlur_one_cell mean_of_one_byte C).
  - intros b Hb. apply boxBlur_no_cell; [|exact Hb].
    vm_compute. reflexivity.
Qed.



(** *** The theorems above on concrete inputs *)

Import Editing.

Lemma run_call_appends_witness :
  extends [LANDSCAPE_TYPE_HEIGHT] scape4
    (land (run_call (fun x => x) (fun x => x) ansi_rand
             (Call_setHeightMap [0; 0; 0; 0] [0; 65535; 65535; 0] 2 2 1 1
                (fl 1) (fl 0) [0; 0; 0; 0])
             (mkG scape4 (srand 0)))).
Proof.
  apply (run_call_appends (fun x => x) (fun x => x) ansi_rand
           (Call_setHeightMap [0; 0; 0; 0] [0; 65535; 65535; 0] 2 2 1 1
              (fl 1) (fl 0) [0; 0; 0; 0])
           (mkG scape4 (srand 0))).
  red. repeat split; try lia; exists 2; reflexivity.
Defined.

Lemma run_calls_append_only_witness :
  exists suffix,
    scape (land (run_calls (fun x => x) (fun x => x) ansi_rand calls4
                   (mkG scape4 (srand 0)))) =
      scape (land (mkG scape4 (srand 0))) ++ suffix /\
    Forall (fun e => exists c, In c calls4 /\
                       In (e_type e) (map type_code (kinds_of_call c)))
      suffix.
Proof.
  apply (run_calls_append_only (fun x => x) (fun x => x) ansi_rand calls4
           (mkG scape4 (srand 0))).
  unfold calls4. repeat constructor; try lia; exists 2; reflexivity.
Defined.

Lemma setObjects_per_pixel_witness :
  exists e, object_of_pixel scape4 [12; 0; 0; 0] 2 2 (0, 0) = [e] /\
    e_type e = type_code LANDSCAPE_TYPE_OBJECT /\
    e_v0 e = Z.land (rd [12; 0; 0; 0] (0 + 0 * 2)) 255 / 4.
Proof.
  destruct (proj2 (proj2 (setObjects_per_pixel [12; 0; 0; 0] 2 2 scape4) 0 0))
    as [e (He & Ht & H0 & _)].
  - vm_compute. discriminate.
  - exists e. repeat split; assumption.
Defined.

Lemma placeCircle_steady_witness :
  Coll.raised wall4 (Coll.placeCircle wall4 (db 2) (db 2) (db 1)) /\
  Coll.placeCircle (Coll.placeCircle wall4 (db 2) (db 2) (db 1))
    (db 2) (db 2) (db 1) = Coll.placeCircle wall4 (db 2) (db 2) (db 1).
Proof.
  destruct (FieldFacts.placeCircle_steady (db 2) (db 2) (db 1) wall4)
    as [H1 H2].
  split; [exact H1|]. apply H2. apply FieldFacts.raised_refl.
Defined.

Lemma placeMask_steady_witness :
  Coll.raised wall4 (Coll.placeMask wall4 [255] 1 1 (fl 1) (fl 0)) /\
  Coll.placeMask (Coll.placeMask wall4 [255] 1 1 (fl 1) (fl 0))
    [255] 1 1 (fl 1) (fl 0) = Coll.placeMask wall4 [255] 1 1 (fl 1) (fl 0).
Proof.
  destruct (FieldFacts.placeMask_steady [255] 1 1 (fl 1) (fl 0) wall4)
    as [H1 H2].
  split; [exact H1|]. apply H2. apply FieldFacts.raised_refl.
Defined.

Lemma collideLine_hit_is_free_witness :
  exists r,
    Coll.collideLine 30 wall4 (db 2) (lit Double 3 2) (lit Double 2501 1000)
      (lit Double 3 2) = Some r /\
    Coll.isPoint wall4 (Coll.xh r) (Coll.zh r) = false.
Proof.
  assert (Hh : option_map Coll.hit
                 (Coll.collideLine 30 wall4 (db 2) (lit Double 3 2)
                    (lit Double 2501 1000) (lit Double 3 2)) = Some true)
    by (vm_compute; reflexivity).
  destruct (Coll.collideLine 30 wall4 (db 2) (lit Double 3 2)
              (lit Double 2501 1000) (lit Double 3 2)) as [r|] eqn:E;
    [|discriminate Hh].
  injection Hh as Hh. exists r. split; [reflexivity|].
  exact (proj1 (proj2 (FieldFacts.collideLine_hit_is_free 30 wall4 (db 2)
                         (lit Double 3 2) (lit Double 2501 1000)
                         (lit Double 3 2) r E Hh))).
Defined.


Lemma placeObject_outside_witness :
  placeObject insertion_qsort two_triangles editor4 off_raster 5 = editor4.
Proof.
  apply placeObject_outside.
  - vm_compute. intuition discriminate.
  - vm_compute. intuition discriminate.
  - vm_compute. intros [[_ H] _]. discriminate H.
Defined.

Lemma placeObject_round_trip_witness :
  rd (img_data (objects (placeObject insertion_qsort two_triangles editor4
                           on_raster 5)))
    (pixel_x editor4 on_raster
     + pixel_z editor4 on_raster * img_width (objects editor4))
  = Z.land 5 63 * 4 + 2.
Proof.
  refine (proj1 (proj2 (proj2
            (placeObject_round_trip insertion_qsort two_triangles editor4
               on_raster 5 _ _ _ _ _)))).
  - vm_compute. reflexivity.
  - vm_compute. reflexivity.
  - vm_compute. intuition discriminate.
  - vm_compute. intuition discriminate.
  - vm_compute. reflexivity.
Defined.


Lemma getHeight_clamps_witness :
  getHeight scape4 (fl (-1)) (fl 0) 0 0 = getHeight scape4 (minX scape4) (fl 0) 0 0.
Proof.
  refine (proj1 (getHeight_clamps scape4 (fl (-1)) (fl 0) 0 0) _).
  vm_compute. reflexivity.
Defined.

Lemma boxBlur_small_boxes_witness : Coll.boxBlur wall4 0 = wall4.
Proof.
  refine (proj1 (boxBlur_small_boxes wall4) _ _ _).
  - vm_compute. intuition discriminate.
  - vm_compute. intuition discriminate.
  - apply rd_bounds; [lia|].
    unfold wall4. cbn [Coll.data]. repeat constructor; lia.
Defined.

Lemma rotateObjectY_turns_witness :
  img_width (objects (rotateObjectY insertion_qsort two_triangles editor4
                        on_raster 5))
  = img_width (objects editor4).
Proof.
  refine (proj1 (rotateObjectY_turns insertion_qsort two_triangles editor4
                   on_raster 5 _ _ _ _ _ _)).
  - vm_compute. intuition discriminate.
  - vm_compute. intuition discriminate.
  - vm_compute. intuition discriminate.
  - vm_compute. intuition discriminate.
  - vm_compute. reflexivity.
  - lia.
Defined.

End RunMore.
